(** * smtp-suite: the SMTP parsers, the DATA transparency codec and the
      client session, embedded from the JavaScript sources.

    Strings are lists of code units ([list ascii], code units 0..255),
    byte buffers are lists of [Z], thrown exceptions are the [Throw]
    branch of [result].  Every function is named after the source function
    it embeds. *)

From Stdlib Require Import ZArith Ascii String DecimalString Lia.
From stdpp Require Import base list strings.

Open Scope list_scope.
Open Scope Z_scope.

(** ** JavaScript values shared by the parsers *)

Abbreviation jsstr := (list ascii).

(** A string literal of the source. *)
Definition str (s : string) : jsstr := list_ascii_of_string s.

Definition CRLF : jsstr := ["013"%char; "010"%char].

(** One constructor per [throw] statement (or rejection) of the sources. *)
Inductive Thrown :=
| CommandLineEmpty          (* 'Unable to parse empty command line.' *)
| CommandLineTooLong        (* 'Command line exceeds size limit of %d octets.' *)
| CommandLineBreaks         (* 'Command lines cannot contain line breaks.' *)
| EhloWithoutDomain         (* 'EHLO command without domain or address literal.' *)
| MailWithoutReturnPath     (* 'MAIL command without return path (FROM:<...>).' *)
| MailInvalidReturnPath     (* 'MAIL missing valid return path argument (FROM:<...>).' *)
| RcptWithoutForwardPath    (* 'RCPT command without forward path (TO:<...>).' *)
| RcptInvalidForwardPath    (* 'RCPT missing valid forward path argument (TO:<...>).' *)
| RcptEmptyForwardPath      (* 'RCPT with empty forward path argument (TO:<...>).' *)
| SerializeNeedsVerb        (* 'Need an object with at least a property "verb" ...' *)
| SerializeEhloNeedsDomain  (* 'EHLO command needs a "domain" property ...' *)
| SerializeRcptNeedsForwardPath (* 'RCPT command needs a "forwardPath" property ...' *)
| SerializedCommandTooLong  (* 'Serialized SMTP command exceeds maximum line length of %d octets.' *)
| ReplyLineEmpty            (* 'Cannot parse an empty line.' *)
| ReplyInputTooLong         (* 'Number of input bytes exceeds size limit of %d octets.' *)
| ReplyLineHasCRLF          (* 'Reply line must not contain line breaks.' *)
| ReplyLineHasBareBreak     (* 'Reply line contains non-standard line breaks.' *)
| ReplyLineInvalid          (* 'Invalid reply line: %s' *)
| ReplyNoLines              (* 'No reply lines to parse in input.' *)
| ReplyPrematureEnd         (* 'Premature end of multiline reply.' *)
| ReplyUnterminated         (* 'Unterminated multiline reply.' *)
| SerializeReplyEmpty       (* 'Cannot serialize empty input.' *)
| SerializeReplyNeedsCode   (* 'Input object needs to have a "code" property.' *)
| SerializeReplyNeedsLines  (* 'Input object needs to have an array as "lines" property with at least 1 line.' *)
| ReplyLineLimit            (* 'Number of input bytes exceeds line limit of %d octets.' *)
| ReplyOverhead             (* 'Illicit overhead data after end of reply has been indicated.' *)
| ReplyStreamEnded          (* 'Premature end of input while parsing reply.' *)
| ReplyTimeout              (* 'Timeout parsing reply after %d seconds.' *)
| DataLineTooLong           (* 'Input exceeds maximum line length of %d octets.' *)
| BufferRangeError          (* RangeError raised by Buffer.writeUInt8 / readUInt8 *)
| ReferenceError (name : string). (* an identifier that resolves in no scope *)



(** A call either returns or throws. *)
Inductive result (A : Type) :=
| Ok (a : A)
| Throw (e : Thrown).
Arguments Ok {A} a.
Arguments Throw {A} e.

Definition bind {A B} (r : result A) (k : A -> result B) : result B :=
  match r with
  | Ok a => k a
  | Throw e => Throw e
  end.

Notation "x <- r ;; k" := (bind r (fun x => k))
  (at level 100, r at next level, right associativity).

Module JS.

(** [\s] of a regular expression and the characters removed by
    [String.prototype.trim], among the code units 0..255. *)
Definition is_ws (c : ascii) : bool :=
  let n := nat_of_ascii c in
  ((9 <=? n)%nat && (n <=? 13)%nat) || (n =? 32)%nat || (n =? 160)%nat.

(** The line terminators that [.] does not match and [[\r\n]] matches. *)
Definition is_cr_or_lf (c : ascii) : bool :=
  let n := nat_of_ascii c in (n =? 13)%nat || (n =? 10)%nat.

Fixpoint take_while (p : ascii -> bool) (s : jsstr) : jsstr :=
  match s with
  | [] => []
  | c :: s' => if p c then c :: take_while p s' else []
  end.

Fixpoint drop_while (p : ascii -> bool) (s : jsstr) : jsstr :=
  match s with
  | [] => []
  | c :: s' => if p c then drop_while p s' else s
  end.

Definition trimLeft (s : jsstr) : jsstr := drop_while is_ws s.
Definition trimRight (s : jsstr) : jsstr := rev (drop_while is_ws (rev s)).
Definition trim (s : jsstr) : jsstr := trimRight (trimLeft s).

(** [s.match(/[\r\n]/)] is truthy. *)
Definition has_cr_or_lf (s : jsstr) : bool := existsb is_cr_or_lf s.

(** [s.split(/\s+/)]: [in_sep] says that the scan stands inside a run of
    white space; a leading or trailing run leaves an empty first or last
    element, and the empty string splits into one empty element. *)
Fixpoint split_go (in_sep : bool) (cur : jsstr) (s : jsstr) : list jsstr :=
  match s with
  | [] => [cur]
  | c :: s' =>
      if is_ws c
      then (if in_sep then split_go true cur s' else cur :: split_go true [] s')
      else split_go false (cur ++ [c]) s'
  end.

Definition split_ws (s : jsstr) : list jsstr := split_go false [] s.

Fixpoint strip_prefix (p s : jsstr) : option jsstr :=
  match p, s with
  | [], _ => Some s
  | a :: p', b :: s' => if Ascii.eqb a b then strip_prefix p' s' else None
  | _ :: _, [] => None
  end.

Definition startsWith (s p : jsstr) : bool :=
  match strip_prefix p s with Some _ => true | None => false end.

Definition endsWith (s p : jsstr) : bool := startsWith (rev s) (rev p).

(** [s.substr(start, len)] for a start inside the string; a length that is
    not positive gives the empty string. *)
Definition substr (s : jsstr) (start : nat) (len : Z) : jsstr :=
  take (Z.to_nat len) (drop start s).

(** [/P(\S+)/.exec(s)] for a literal prefix [P]: the capture of the leftmost
    match, [None] for [null]. *)
Fixpoint exec_prefix_nonspace (p : jsstr) (s : jsstr) : option jsstr :=
  let here :=
    match strip_prefix p s with
    | Some rest =>
        match take_while (fun c => negb (is_ws c)) rest with
        | [] => None
        | m => Some m
        end
    | None => None
    end in
  match here with
  | Some m => Some m
  | None => match s with
            | [] => None
            | _ :: s' => exec_prefix_nonspace p s'
            end
  end.

(** The regular expression of the params loop applied with [exec]: a greedy
    run of characters other than [=] (group 1), then optionally [=] and a
    non-empty run of characters other than line terminators (group 2).  The
    match starts at index 0 and always succeeds; the result is the pair of
    [matches[1]] and [matches[2]], [None] standing for [undefined]. *)
Definition exec_key_value (s : jsstr) : jsstr * option jsstr :=
  let not_eq := fun c => negb (Ascii.eqb c "="%char) in
  let key := take_while not_eq s in
  match drop_while not_eq s with
  | _ :: v =>
      match take_while (fun c => negb (is_cr_or_lf c)) v with
      | [] => (key, None)
      | m => (key, Some m)
      end
  | [] => (key, None)
  end.

(** [memo + sep + ...] over an array, as [Array.prototype.join]. *)
Fixpoint join (sep : jsstr) (l : list jsstr) : jsstr :=
  match l with
  | [] => []
  | [x] => x
  | x :: l' => x ++ sep ++ join sep l'
  end.

End JS.

(** ** The command parser (parsers/command.js) *)

Module SMTPCmdLineParser.
Import JS.

(** A property value of a param object: [true] or a string. *)
Inductive PVal :=
| PTrue
| PStr (s : jsstr).

(** An element of [command.params]: a primitive (rendered as it is) or an
    object, given by its own enumerable properties in insertion order. *)
Inductive Param :=
| ParamPrim (s : jsstr)
| ParamObj (props : list (jsstr * PVal)).

(** [param = {}; param[key] = v]: an assignment to ["__proto__"] reaches the
    accessor of [Object.prototype], which ignores a value that is no object,
    so that no own property is created. *)
Definition new_param (key : jsstr) (v : PVal) : Param :=
  if bool_decide (key = str "__proto__") then ParamObj [] else ParamObj [(key, v)].

Record Command := mkCommand {
  verb : jsstr;
  domain : option jsstr;
  returnPath : option jsstr;
  forwardPath : option jsstr;
  params : list Param
}.

Record SMTPCmdLineParser := mkCmdParser {
  maxLineLength : Z;
  timeout : Z
}.

(** [new SMTPCmdLineParser()] *)
Definition new_parser : SMTPCmdLineParser :=
  {| maxLineLength := 512; timeout := 300000 |}.

(** The [while (parts.length)] loop that turns the remaining tokens into
    params. *)
Definition parse_param (part : jsstr) : Param :=
  match exec_key_value part with
  | (_, None) => new_param part PTrue
  | (key, Some v) => new_param key (PStr v)
  end.

(** The path argument of MAIL and RCPT after the regular expression matched:
    the brackets are removed when the path starts with [<]. *)
Definition unbracket (err : Thrown) (path : jsstr) : result jsstr :=
  if startsWith path (str "<") then
    if negb (endsWith path (str ">")) then Throw err
    else Ok (substr path 1 (Z.of_nat (length path) - 2))
  else Ok path.

(** The [switch (command.verb)] of [parseCommandLine]: the verb-specific
    fields and the tokens left for the params. *)
Definition parse_verb_argument (verb : jsstr) (parts : list jsstr)
  : result (option jsstr * option jsstr * option jsstr * list jsstr) :=
  if bool_decide (verb = str "EHLO") then
    match parts with
    | [] => Throw EhloWithoutDomain
    | d :: rest => Ok (Some d, None, None, rest)
    end
  else if bool_decide (verb = str "MAIL") then
    match parts with
    | [] => Throw MailWithoutReturnPath
    | tok :: rest =>
        match exec_prefix_nonspace (str "FROM:") tok with
        | None => Throw MailInvalidReturnPath
        | Some path =>
            p <- unbracket MailInvalidReturnPath path ;;
            Ok (None, Some p, None, rest)
        end
    end
  else if bool_decide (verb = str "RCPT") then
    match parts with
    | [] => Throw RcptWithoutForwardPath
    | tok :: rest =>
        match exec_prefix_nonspace (str "TO:") tok with
        | None => Throw RcptInvalidForwardPath
        | Some path =>
            p <- unbracket RcptInvalidForwardPath path ;;
            match p with
            | [] => Throw RcptEmptyForwardPath
            | _ => Ok (None, None, Some p, rest)
            end
        end
    end
  else Ok (None, None, None, parts).

Definition parseCommandLine (this : SMTPCmdLineParser) (line : jsstr)
  : result Command :=
  match line with
  | [] => Throw CommandLineEmpty
  | _ =>
      let line := trim line in
      if Z.of_nat (length line) >? maxLineLength this - 2 then Throw CommandLineTooLong
      else if has_cr_or_lf line then Throw CommandLineBreaks
      else
        match split_ws line with
        | [] => Ok (mkCommand [] None None None []) (* split never returns an empty array *)
        | v :: parts =>
            r <- parse_verb_argument v parts ;;
            let '(d, rp, fp, parts) := r in
            Ok (mkCommand v d rp fp (map parse_param parts))
        end
  end.

(** The reduce over the keys of one param object in [serializeCommand]. *)
Definition render_prop (memo : jsstr) (kv : jsstr * PVal) : jsstr :=
  match kv with
  | (key, PTrue) => memo ++ str " " ++ key
  | (key, PStr []) => memo ++ str " " ++ key
  | (key, PStr v) => memo ++ str " " ++ key ++ str "=" ++ v
  end.

Definition render_param (commandLine : jsstr) (param : Param) : jsstr :=
  match param with
  | ParamPrim s => commandLine ++ str " " ++ s
  | ParamObj props => commandLine ++ fold_left render_prop props []
  end.

Definition is_empty (s : jsstr) : bool :=
  match s with [] => true | _ => false end.

Definition falsy (o : option jsstr) : bool :=
  match o with None => true | Some s => is_empty s end.

(** The [switch (command.verb)] of [serializeCommand]: the command line
    after the verb and its argument were written. *)
Definition render_verb_argument (command : Command) : result jsstr :=
  if bool_decide (verb command = str "EHLO") then
    match domain command with
    | Some ((_ :: _) as d) => Ok (verb command ++ str " " ++ d)
    | _ => Throw SerializeEhloNeedsDomain
    end
  else if bool_decide (verb command = str "MAIL") then
    Ok (verb command ++ str " FROM:<"
          ++ (match returnPath command with Some p => p | None => [] end)
          ++ str ">")
  else if bool_decide (verb command = str "RCPT") then
    match forwardPath command with
    | Some ((_ :: _) as p) => Ok (verb command ++ str " TO:<" ++ p ++ str ">")
    | _ => Throw SerializeRcptNeedsForwardPath
    end
  else Ok (verb command).

(** [serializeCommand]; the argument [None] is a falsy [command]. *)
Definition serializeCommand (this : SMTPCmdLineParser) (command : option Command)
  : result jsstr :=
  match command with
  | None => Ok (str "NOOP" ++ CRLF)
  | Some command =>
      if is_empty (verb command) then Throw SerializeNeedsVerb
      else
        commandLine <- render_verb_argument command ;;
        let commandLine := fold_left render_param (params command) commandLine in
        let commandLine := trim commandLine ++ CRLF in
        if Z.of_nat (length commandLine) >? maxLineLength this then Throw SerializedCommandTooLong
        else Ok commandLine
  end.

End SMTPCmdLineParser.

(** ** The reply parser (parsers/reply.js) *)

Module SMTPReplyParser.
Import JS.

Record parser := mkParser {
  timeout : Z;
  maxLineLength : Z
}.

(** [new SMTPReplyParser()] *)
Definition new_parser : parser := {| timeout := 300000; maxLineLength := 512 |}.

Record ReplyLine := mkReplyLine {
  code : Z;
  isLast : bool;
  message : jsstr
}.

(** A reply object; [None] is an absent property. *)
Record Reply := mkReply {
  reply_code : option Z;
  reply_message : option jsstr;
  reply_lines : option (list jsstr)
}.

Definition is_digit (c : ascii) : bool :=
  let n := nat_of_ascii c in (48 <=? n)%nat && (n <=? 57)%nat.

Definition is_2345 (c : ascii) : bool :=
  let n := nat_of_ascii c in (50 <=? n)%nat && (n <=? 53)%nat.

Definition digit_value (c : ascii) : Z := Z.of_nat (nat_of_ascii c) - 48.

(** [s.match(/\r\n/)] is truthy. *)
Fixpoint has_crlf (s : jsstr) : bool :=
  match s with
  | c :: ((d :: _) as s') =>
      (Ascii.eqb c "013"%char && Ascii.eqb d "010"%char) || has_crlf s'
  | _ => false
  end.

(** The regular expression of [parseReplyLine] applied with [exec]: three
    digits, the first one of 2..5, at the start of the input, then optionally
    a hyphen or a space (group 2) and the rest of the line (group 3).  The
    expression is not anchored at the end: when the character after the code
    is neither a hyphen nor a space, the optional group matches nothing and
    the match still succeeds.  [None] is [null]. *)
Definition exec_reply_line (input : jsstr)
  : option (jsstr * option ascii * option jsstr) :=
  match input with
  | a :: b :: c :: rest =>
      if is_2345 a && is_digit b && is_digit c then
        match rest with
        | sep :: msg =>
            if Ascii.eqb sep "-"%char || Ascii.eqb sep " "%char
            then Some ([a; b; c], Some sep,
                       Some (take_while (fun x => negb (is_cr_or_lf x)) msg))
            else Some ([a; b; c], None, None)
        | [] => Some ([a; b; c], None, None)
        end
      else None
  | _ => None
  end.

(** [Number.parseInt] of three decimal digits. *)
Definition parseInt3 (digits : jsstr) : Z :=
  match digits with
  | [a; b; c] => 100 * digit_value a + 10 * digit_value b + digit_value c
  | _ => 0
  end.

Definition parseReplyLine (this : parser) (input : jsstr) : result ReplyLine :=
  match input with
  | [] => Throw ReplyLineEmpty
  | _ =>
      if Z.of_nat (length input) >? maxLineLength this then Throw ReplyInputTooLong
      else
        let input := trimRight input in
        if has_crlf input then Throw ReplyLineHasCRLF
        else if has_cr_or_lf input then Throw ReplyLineHasBareBreak
        else
          match exec_reply_line input with
          | None => Throw ReplyLineInvalid
          | Some (digits, sep, msg) =>
              Ok {| code := parseInt3 digits;
                    isLast := match sep with
                              | Some c => negb (Ascii.eqb c "-"%char)
                              | None => true
                              end;
                    message := match msg with Some m => m | None => [] end |}
          end
  end.

(** [buffer.toString('utf8')] on bytes below 0x80, which decode to the code
    unit of the same value. *)
Definition Buffer_toString (b : list Z) : jsstr :=
  map (fun z => ascii_of_nat (Z.to_nat z)) b.

(** [input.split(/\r\n/)] *)
Fixpoint split_crlf (cur : jsstr) (s : jsstr) : list jsstr :=
  match s with
  | [] => [cur]
  | c :: s' =>
      match s' with
      | d :: s'' =>
          if Ascii.eqb c "013"%char && Ascii.eqb d "010"%char
          then cur :: split_crlf [] s''
          else split_crlf (cur ++ [c]) s'
      | [] => [cur ++ [c]]
      end
  end.

(** [_.map(lines, parseReplyLine)]: the first exception leaves the map. *)
Fixpoint map_parseReplyLine (this : parser) (lines : list jsstr)
  : result (list ReplyLine) :=
  match lines with
  | [] => Ok []
  | l :: ls =>
      rl <- parseReplyLine this l ;;
      rls <- map_parseReplyLine this ls ;;
      Ok (rl :: rls)
  end.

(** The callback of [_.reduce] in [parseReply], at index [idx] of a list of
    [len] reply lines. *)
Definition reduce_step (len idx : nat) (memo : Reply) (replyLine : ReplyLine)
  : result Reply :=
  let memo := {| reply_code := Some (code replyLine);
                 reply_message := reply_message memo;
                 reply_lines := reply_lines memo |} in
  let memo := if (idx =? 0)%nat
              then {| reply_code := reply_code memo;
                      reply_message := Some (message replyLine);
                      reply_lines := Some [] |}
              else memo in
  let memo := {| reply_code := reply_code memo;
                 reply_message := reply_message memo;
                 reply_lines := Some (match reply_lines memo with
                                      | Some ls => ls ++ [message replyLine]
                                      | None => [message replyLine]
                                      end) |} in
  if isLast replyLine && negb (Z.of_nat idx =? Z.of_nat len - 1) then Throw ReplyPrematureEnd
  else if negb (isLast replyLine) && (Z.of_nat idx =? Z.of_nat len - 1) then Throw ReplyUnterminated
  else Ok memo.

Fixpoint reduce (len idx : nat) (memo : Reply) (l : list ReplyLine) : result Reply :=
  match l with
  | [] => Ok memo
  | replyLine :: l' =>
      memo <- reduce_step len idx memo replyLine ;;
      reduce len (S idx) memo l'
  end.

(** The input of [parseReply]: a string (or a buffer, decoded first) or an
    array of reply lines. *)
Inductive ReplyInput :=
| InString (s : jsstr)
| InLines (l : list ReplyLine).

Definition parseReply (this : parser) (input : ReplyInput) : result Reply :=
  replyLines <-
    match input with
    | InString s => map_parseReplyLine this (split_crlf [] s)
    | InLines l => Ok l
    end ;;
  match replyLines with
  | [] => Throw ReplyNoLines
  | _ => reduce (length replyLines) 0 (mkReply None None None) replyLines
  end.

(** The decimal rendering of an integer by string concatenation. *)
Definition Number_toString (n : Z) : jsstr :=
  str (DecimalString.NilZero.string_of_int (Z.to_int n)).

(** [reply.lines[0] = reply.message] on an array. *)
Definition set_first (m : jsstr) (lines : list jsstr) : list jsstr :=
  match lines with
  | [] => [m]
  | _ :: rest => m :: rest
  end.

(** The callback of the reduce in [serializeReply]. *)
Definition render_line (this : parser) (code : Z) (len idx : nat) (line : jsstr)
  : result jsstr :=
  let currentLine :=
    Number_toString code
      ++ (if (Z.of_nat idx =? Z.of_nat len - 1) then str " " else str "-")
      ++ trim line ++ CRLF in
  if Z.of_nat (length currentLine) >? maxLineLength this then Throw ReplyLineLimit
  else Ok currentLine.

Fixpoint render_lines (this : parser) (code : Z) (len idx : nat) (memo : jsstr)
  (lines : list jsstr) : result jsstr :=
  match lines with
  | [] => Ok memo
  | line :: rest =>
      currentLine <- render_line this code len idx line ;;
      render_lines this code len (S idx) (memo ++ currentLine) rest
  end.

Definition truthy_string (o : option jsstr) : bool :=
  match o with Some (_ :: _) => true | _ => false end.

Definition truthy_number (o : option Z) : bool :=
  match o with Some n => negb (n =? 0) | None => false end.

(** [serializeReply]: the result of the call and the argument object as the
    call leaves it.  [None] is a falsy argument. *)
Definition serializeReply (this : parser) (reply : option Reply)
  : result jsstr * option Reply :=
  match reply with
  | None => (Throw SerializeReplyEmpty, None)
  | Some reply =>
      if negb (truthy_number (reply_code reply))
      then (Throw SerializeReplyNeedsCode, Some reply)
      else if (match reply_lines reply with Some (_ :: _) => false | _ => true end)
              && negb (truthy_string (reply_message reply))
      then (Throw SerializeReplyNeedsLines, Some reply)
      else
        let reply :=
          match reply_message reply with
          | Some ((_ :: _) as m) =>
              {| reply_code := reply_code reply;
                 reply_message := reply_message reply;
                 reply_lines :=
                   Some (set_first m (match reply_lines reply with
                                      | Some ls => ls
                                      | None => []
                                      end)) |}
          | _ => reply
          end in
        let lines := match reply_lines reply with Some ls => ls | None => [] end in
        let code := match reply_code reply with Some c => c | None => 0 end in
        (render_lines this code (length lines) 0 [] lines, Some reply)
  end.

(** *** The streaming [parse] *)

Inductive Promise :=
| Pending
| Resolved (reply : Reply)
| Rejected (e : Thrown).

(** The variables closed over by the listeners of one [parse] call, the
    promise it returned and whether its listeners and its timer are still
    registered. *)
Record ParseState := mkParseState {
  currentLine : list Z;
  lineLength : nat;
  replyLines : list ReplyLine;
  promise : Promise;
  listening : bool;
  timer_set : bool
}.

(** The state after [parse(inputStream)] returned. *)
Definition parse (this : parser) : ParseState :=
  {| currentLine := replicate (Z.to_nat (maxLineLength this)) 0;
     lineLength := 0;
     replyLines := [];
     promise := Pending;
     listening := true;
     timer_set := (0 <? timeout this) |}.

(** [cleanup(result)]: a settled promise ignores a second settlement. *)
Definition cleanup (st : ParseState) (r : result Reply) : ParseState :=
  {| currentLine := currentLine st;
     lineLength := lineLength st;
     replyLines := replyLines st;
     promise := match promise st with
                | Pending => match r with Ok reply => Resolved reply | Throw e => Rejected e end
                | settled => settled
                end;
     listening := false;
     timer_set := false |}.

(** The [while (pos < chunk.length)] loop of [onData] on the bytes of the
    chunk from [pos] on.  The second component is the exception that leaves
    the listener, if one does. *)
Fixpoint onData_loop (this : parser) (st : ParseState) (rest : list Z)
  : ParseState * option Thrown :=
  match rest with
  | [] => (st, None)
  | currChar :: rest' =>
      if Z.of_nat (lineLength st) >=? maxLineLength this
      then (cleanup st (Throw ReplyLineLimit), None)
      else
        let st := {| currentLine := <[lineLength st := currChar]> (currentLine st);
                     lineLength := S (lineLength st);
                     replyLines := replyLines st;
                     promise := promise st;
                     listening := listening st;
                     timer_set := timer_set st |} in
        if currChar =? 10 then
          match parseReplyLine this (Buffer_toString (take (lineLength st) (currentLine st))) with
          | Throw e => (cleanup st (Throw e), None)
          | Ok replyLine =>
              let st := {| currentLine := currentLine st;
                           lineLength := lineLength st;
                           replyLines := replyLines st ++ [replyLine];
                           promise := promise st;
                           listening := listening st;
                           timer_set := timer_set st |} in
              if isLast replyLine then
                match rest' with
                | _ :: _ => (st, Some ReplyOverhead)
                | [] => (cleanup st (parseReply this (InLines (replyLines st))), None)
                end
              else
                onData_loop this
                  {| currentLine := currentLine st;
                     lineLength := 0;
                     replyLines := replyLines st;
                     promise := promise st;
                     listening := listening st;
                     timer_set := timer_set st |} rest'
          end
        else onData_loop this st rest'
  end.

(** The ['data'] listener; a removed listener is not called. *)
Definition onData (this : parser) (st : ParseState) (chunk : list Z)
  : ParseState * option Thrown :=
  if listening st then onData_loop this st chunk else (st, None).

(** The ['end'] listener and the timer. *)
Definition onEnd (st : ParseState) : ParseState :=
  if listening st then cleanup st (Throw ReplyStreamEnded) else st.

Definition onTimeout (st : ParseState) : ParseState :=
  if timer_set st then cleanup st (Throw ReplyTimeout) else st.

End SMTPReplyParser.

(** ** The DATA transparency codec (parsers/data.js) *)

Module Bytes.

Definition CR : Z := 0x0d.
Definition LF : Z := 0x0a.
Definition DOT : Z := 0x2e.

(** [buffer.writeUInt8(value, offset)] raises a RangeError for an offset
    outside the buffer.  (The values written are bytes read from a chunk or
    the constants above, always within 0..255.) *)
Definition writeUInt8 (buffer : list Z) (value : Z) (offset : Z) : result (list Z) :=
  if (0 <=? offset) && (offset <? Z.of_nat (length buffer))
  then Ok (<[Z.to_nat offset := value]> buffer)
  else Throw BufferRangeError.

Definition readUInt8 (buffer : list Z) (offset : Z) : result Z :=
  if 0 <=? offset then
    match buffer !! Z.to_nat offset with
    | Some v => Ok v
    | None => Throw BufferRangeError
    end
  else Throw BufferRangeError.

(** [buffer.slice(from, to)] for [0 <= from]; the bytes the slice shows at
    the time of the call. *)
Definition slice (buffer : list Z) (from to : Z) : list Z :=
  take (Z.to_nat (to - from)) (drop (Z.to_nat from) buffer).

End Bytes.

Module DotEncoder.
Import Bytes.

(** The fields of the transform and, in [pushed], the chunks handed to
    [push] so far, each with the bytes it holds when it is pushed. *)
Record t := mk {
  buffer : list Z;
  bufferSize : Z;
  lastChar : Z;
  pushed : list (list Z)
}.

(** [new DotEncoder()] *)
Definition new : t :=
  {| buffer := replicate 1024 0; bufferSize := 0; lastChar := 0; pushed := [] |}.

Definition push (this : t) (chunk : list Z) : t :=
  {| buffer := buffer this; bufferSize := bufferSize this;
     lastChar := lastChar this; pushed := pushed this ++ [chunk] |}.

Definition write2Buffer (this : t) (c : Z) : result t :=
  buf <- writeUInt8 (buffer this) c (bufferSize this) ;;
  let this := {| buffer := buf; bufferSize := bufferSize this + 1;
                 lastChar := c; pushed := pushed this |} in
  if bufferSize this =? Z.of_nat (length (buffer this))
  then
    let this := push this (buffer this) in
    Ok {| buffer := buffer this; bufferSize := 0;
          lastChar := lastChar this; pushed := pushed this |}
  else Ok this.

(** One pass through the body of the [while] loop of [_transform] at the
    byte [currentChar]; the boolean tells whether [chunkPos] was advanced
    ([false] after [continue]). *)
Definition loop_body (this : t) (currentChar : Z) : result (t * bool) :=
  this <-
    (if (lastChar this =? 0) || (lastChar this =? LF)
     then (if currentChar =? DOT then write2Buffer this DOT else Ok this)
     else Ok this) ;;
  if negb (currentChar =? LF) && (lastChar this =? CR)
  then
    this <- write2Buffer this LF ;;
    Ok (this, false)
  else
    this <-
      (if (currentChar =? LF) && negb (lastChar this =? CR)
       then write2Buffer this CR else Ok this) ;;
    this <- write2Buffer this currentChar ;;
    Ok (this, true).

(** The [while (chunkPos < chunk.length)] loop on the bytes of the chunk
    from [chunkPos] on.  [None]: the fuel ran out. *)
Fixpoint loop (fuel : nat) (this : t) (rest : list Z) : option (result t) :=
  match rest with
  | [] => Some (Ok this)
  | currentChar :: rest' =>
      match fuel with
      | O => None
      | S fuel =>
          match loop_body this currentChar with
          | Throw e => Some (Throw e)
          | Ok (this, true) => loop fuel this rest'
          | Ok (this, false) => loop fuel this rest
          end
      end
  end.

(** [_transform(chunk)] with the fuel of two passes per byte. *)
Definition _transform (this : t) (chunk : list Z) : option (result t) :=
  loop (2 * length chunk) this chunk.

Definition _flush (this : t) : t :=
  let this := push this (slice (buffer this) 0 (bufferSize this)) in
  let this :=
    if lastChar this =? CR then
      let this := push this [LF] in
      {| buffer := buffer this; bufferSize := bufferSize this;
         lastChar := LF; pushed := pushed this |}
    else if negb (lastChar this =? LF) then
      let this := push this [CR; LF] in
      {| buffer := buffer this; bufferSize := bufferSize this;
         lastChar := LF; pushed := pushed this |}
    else this in
  push this [DOT; CR; LF].

(** The stream writes the chunks one after the other and flushes at the end
    of the input. *)
Fixpoint write_all (this : t) (chunks : list (list Z)) : option (result t) :=
  match chunks with
  | [] => Some (Ok this)
  | chunk :: chunks' =>
      match _transform this chunk with
      | Some (Ok this) => write_all this chunks'
      | other => other
      end
  end.

(** All the bytes the encoder emits for the input [chunks]. *)
Definition encode (chunks : list (list Z)) : option (result (list Z)) :=
  match write_all new chunks with
  | Some (Ok this) => Some (Ok (concat (pushed (_flush this))))
  | Some (Throw e) => Some (Throw e)
  | None => None
  end.

End DotEncoder.

Module DotDecoder.
Import Bytes.

(** The fields of the transform; [pushed] as for the encoder; [ended] is set
    by [push(null)]; [stalled] is set when [_transform] returned without
    calling its callback, after which the stream hands it no further chunk. *)
Record t := mk {
  maxLineLength : Z;
  buffer : list Z;
  bufferSize : Z;
  pushed : list (list Z);
  ended : bool;
  stalled : bool
}.

(** [new DotDecoder()] *)
Definition new : t :=
  {| maxLineLength := 1000; buffer := replicate 1000 0; bufferSize := 0;
     pushed := []; ended := false; stalled := false |}.

Definition set_buffer (this : t) (buf : list Z) (size : Z) : t :=
  {| maxLineLength := maxLineLength this; buffer := buf; bufferSize := size;
     pushed := pushed this; ended := ended this; stalled := stalled this |}.

Definition push (this : t) (chunk : list Z) : t :=
  {| maxLineLength := maxLineLength this; buffer := buffer this;
     bufferSize := bufferSize this; pushed := pushed this ++ [chunk];
     ended := ended this; stalled := stalled this |}.

(** [this.bufferSize = -1; this.push(null); return;] *)
Definition finish (this : t) : t :=
  {| maxLineLength := maxLineLength this; buffer := buffer this;
     bufferSize := -1; pushed := pushed this; ended := true; stalled := true |}.

(** The [while (pos < chunk.length)] loop of [_transform] on the bytes of the
    chunk from [pos] on. *)
Fixpoint loop (this : t) (lastChar : Z) (rest : list Z) : result t :=
  match rest with
  | [] => Ok this
  | currChar :: rest' =>
      if bufferSize this >? maxLineLength this then Throw DataLineTooLong
      else
        buf <- writeUInt8 (buffer this) currChar (bufferSize this) ;;
        let this := set_buffer this buf (bufferSize this + 1) in
        if (lastChar =? CR) && (currChar =? LF) then
          first <- (if bufferSize this >? 0 then readUInt8 (buffer this) 0 else Ok 0) ;;
          if (bufferSize this >? 0) && (first =? DOT) then
            if bufferSize this =? 3 then Ok (finish this)
            else
              let this := push this (slice (buffer this) 1 (bufferSize this)) in
              loop (set_buffer this (buffer this) 0) currChar rest'
          else
            let this := push this (slice (buffer this) 0 (bufferSize this)) in
            loop (set_buffer this (buffer this) 0) currChar rest'
        else loop this currChar rest'
  end.

(** [_transform(chunk)]: [lastChar] starts from the last byte of the whole
    buffer, at index [buffer.length - 1]. *)
Definition _transform (this : t) (chunk : list Z) : result t :=
  lastChar <-
    (if negb (Z.of_nat (length (buffer this)) =? 0)
     then readUInt8 (buffer this) (Z.of_nat (length (buffer this)) - 1)
     else Ok 0) ;;
  loop this lastChar chunk.

(** The stream hands the chunks to [_transform] one after the other, as long
    as each call invoked its callback. *)
Fixpoint write_all (this : t) (chunks : list (list Z)) : result t :=
  match chunks with
  | [] => Ok this
  | chunk :: chunks' =>
      if stalled this then Ok this
      else
        this <- _transform this chunk ;;
        write_all this chunks'
  end.

(** All the bytes the decoder emits for the input [chunks], and whether it
    ended its output. *)
Definition decode (chunks : list (list Z)) : result (list Z * bool) :=
  this <- write_all new chunks ;;
  Ok (concat (pushed this), ended this).

End DotDecoder.

(** ** The client session (client/session.js) *)

Module SMTPClientSession.

(** A registered listener, known by its identity. *)
Abbreviation Observer := nat.

(** The errors a session handles: what a listener hands to its callback and
    the [VError]s built around a cause. *)
Inductive SessionError :=
| ListenerError (n : nat)
| VetoRaised (eventName : string) (cause : SessionError)
| VetoExpired (eventName : string).

(** What a call does to the world outside the session object. *)
Inductive Effect :=
| Called (listener : Observer) (eventName : string) (* nextListener.call(this, firstArg, callback) *)
| OnReady                                          (* onReady.call() *)
| Emitted (eventName : string)                     (* EventEmitter.prototype.emit.apply(this, arguments) *)
| ClientClosed.                                    (* this.client.close() *)

Record State := mkState {
  stage : string;
  connected : bool;
  ended : bool;
  error : option SessionError
}.

Record t := mk {
  state : State;
  listeners : string -> list Observer
}.

(** The identifiers that the functions [end] and [abort] can resolve: those
    declared at the top of the module, those of the module wrapper and those
    of every function.  The variable [self] is declared in [start], [command]
    and [emit] only, and the global object of the runtime has no property of
    that name.  (Were [self] the global object, [self.state] would be
    [undefined] and the assignment to [self.state.connected] would raise a
    TypeError at the same place, with the same outcome.) *)
Definition module_scope : list string :=
  ["events"; "SMTPClient"; "SMTPCommandLineParser"; "URI"; "VError"; "_";
   "SMTPClientSession"; "module"; "exports"; "require"; "__filename";
   "__dirname"; "this"; "arguments"]%string.

Definition resolve (scope : list string) (name : string) : result unit :=
  if bool_decide (name ∈ scope) then Ok tt else Throw (ReferenceError name).

Definition set_connected (this : t) (b : bool) : t :=
  {| state := {| stage := stage (state this); connected := b;
                 ended := ended (state this); error := error (state this) |};
     listeners := listeners this |}.

Definition set_ended (this : t) (err : option SessionError) : t :=
  {| state := {| stage := stage (state this); connected := connected (state this);
                 ended := true; error := err |};
     listeners := listeners this |}.

(** [try { self.state.connected = b; this.client.close(); } catch (ignored) {}]
    in a function whose scope is [scope]: the state and the effects of the
    block. *)
Definition try_close (scope : list string) (this : t) (b : bool) : t * list Effect :=
  match resolve scope "self" with
  | Ok _ => (set_connected this b, [ClientClosed])
  | Throw _ => (this, [])
  end.

(** The events whose listeners form a checkpoint. *)
Definition is_checkpoint (eventName : string) : bool :=
  bool_decide (eventName = "command"%string)
  || bool_decide (eventName = "reply"%string)
  || bool_decide (eventName = "connect"%string).

(** The variables closed over by [callback] in one checkpoint [emit]:
    [queue] is the local array [listeners], [timer] tells whether the
    variable [timer] holds a timer, [scheduled] whether that timer is still
    to fire. *)
Record Checkpoint := mkCheckpoint {
  eventName : string;
  queue : list Observer;
  timer : bool;
  scheduled : bool
}.

(** [emit(eventName, firstArg, onReady, options)]: the session, the effects
    and, when listeners were found, the checkpoint that waits for them. *)
Definition emit (this : t) (eventName : string)
  : t * list Effect * option Checkpoint :=
  if is_checkpoint eventName then
    match listeners this eventName with
    | [] => (this, [OnReady], None)
    | nextListener :: rest =>
        (this, [Called nextListener eventName],
         Some {| eventName := eventName; queue := rest; timer := true; scheduled := true |})
    end
  else (this, [Emitted eventName], None).

(** [abort(err)] *)
Definition abort (this : t) (err : SessionError) : t * list Effect :=
  if ended (state this) then (this, [])
  else
    let this := set_ended this (Some err) in
    let '(this, closing) :=
      if connected (state this) then try_close module_scope this true else (this, []) in
    let '(this, emitted, _) := emit this "error" in
    (this, closing ++ emitted).

(** [end()] *)
Definition end_ (this : t) : t * list Effect :=
  if ended (state this) then (this, [])
  else
    let this := set_ended this (error (state this)) in
    let '(this, closing) :=
      if connected (state this) then try_close module_scope this false else (this, []) in
    let '(this, emitted, _) := emit this "end" in
    (this, closing ++ emitted).

(** [callback(err)] of a checkpoint. *)
Definition callback (this : t) (cp : Checkpoint) (err : option SessionError)
  : t * list Effect * Checkpoint :=
  if negb (timer cp) then (this, [], cp)
  else if ended (state this) then
    (this, [], {| eventName := eventName cp; queue := queue cp;
                  timer := false; scheduled := false |})
  else
    match err with
    | Some err =>
        let cp := {| eventName := eventName cp; queue := queue cp;
                     timer := timer cp; scheduled := false |} in
        let '(this, effects) := abort this (VetoRaised (eventName cp) err) in
        (this, effects, cp)
    | None =>
        match queue cp with
        | [] =>
            (this, [OnReady], {| eventName := eventName cp; queue := [];
                                 timer := false; scheduled := false |})
        | nextListener :: rest =>
            (this, [Called nextListener (eventName cp)],
             {| eventName := eventName cp; queue := rest;
                timer := timer cp; scheduled := scheduled cp |})
        end
    end.

(** The function given to [setTimeout]; a cleared timer does not fire. *)
Definition on_timeout (this : t) (cp : Checkpoint) : t * list Effect * Checkpoint :=
  if scheduled cp then
    let cp := {| eventName := eventName cp; queue := queue cp;
                 timer := false; scheduled := false |} in
    let '(this, effects) := abort this (VetoExpired (eventName cp)) in
    (this, effects, cp)
  else (this, [], cp).

(** What can happen to a session that waits at a checkpoint. *)
Inductive Event :=
| CallbackInvoked (err : option SessionError)
| TimerFired
| EndCalled.

Definition step (this : t) (cp : Checkpoint) (ev : Event) : t * list Effect * Checkpoint :=
  match ev with
  | CallbackInvoked err => callback this cp err
  | TimerFired => on_timeout this cp
  | EndCalled => let '(this, effects) := end_ this in (this, effects, cp)
  end.

Fixpoint steps (this : t) (cp : Checkpoint) (evs : list Event)
  : t * list Effect * Checkpoint :=
  match evs with
  | [] => (this, [], cp)
  | ev :: evs' =>
      let '(this, effects, cp) := step this cp ev in
      let '(this, effects', cp) := steps this cp evs' in
      (this, effects ++ effects', cp)
  end.

(** A checkpoint [emit] followed by the events [evs]: the session at the end
    and all the effects in the order they happened. *)
Definition checkpoint_run (this : t) (eventName : string) (evs : list Event)
  : t * list Effect :=
  match emit this eventName with
  | (this, effects, None) => (this, effects)
  | (this, effects, Some cp) =>
      let '(this, effects', _) := steps this cp evs in
      (this, effects ++ effects')
  end.

End SMTPClientSession.

(** ** The input side of the command parser: [assertCommandLine] and the
       streaming [parse] (parsers/command.js) *)

Module SMTPCmdLineInput.
Import JS SMTPCmdLineParser.

(** A call that returns a value or raises one of the errors [E]. *)
Inductive outcome (E A : Type) :=
| Returned (a : A)
| Raised (e : E).
Arguments Returned {E A} a.
Arguments Raised {E A} e.

(** The two [throw] statements that [assertCommandLine] reaches for a
    string. *)
Inductive AssertError :=
| AssertLineBreaks   (* "Command lines cannot contain line breaks." *)
| AssertLineTooLong. (* 'Command line exceeds maximum line length of %d octets.' *)

(** [Buffer.byteLength(s, encoding)] for the default encoding name of
    [assertCommandLine], ['uft8'], which the runtime does not know and
    treats as UTF-8: one byte for a code unit below 0x80, two bytes for the
    code units up to 0xFF. *)
Definition byteLength (s : jsstr) : Z :=
  fold_right (fun c n => (if (nat_of_ascii c <? 128)%nat then 1 else 2) + n) 0 s.

(** [assertCommandLine(input, options)] for a string [input] and options
    without [encoding]; the second argument is [options.maxLineLength],
    [None] when it is absent. *)
Definition assertCommandLine (this : SMTPCmdLineParser) (input : jsstr)
  (options_maxLineLength : option Z) : outcome AssertError jsstr :=
  let maxLineLength :=
    match options_maxLineLength with
    | Some n => if n =? 0 then maxLineLength this else n
    | None => maxLineLength this
    end in
  let command := trim input in
  if has_cr_or_lf command then Raised AssertLineBreaks
  else
    let command := command ++ CRLF in
    if byteLength command >? maxLineLength then Raised AssertLineTooLong
    else Returned command.

(** *** The streaming [parse] *)

(** What the promise of [parse] is rejected with. *)
Inductive StreamError :=
| InputTooLong          (* 'Number of input bytes exceeds size limit of %d octets.' *)
| UnsupportedLineBreak  (* "Input stream contains unsupported line break." *)
| OctetsAfterLineBreak  (* 'Input stream provided additional octets after CRLF line break.' *)
| PrematureEnd          (* 'Premature end of input stream while parsing SMTP command.' *)
| CommandTimeout        (* 'Timeout after waiting on SMTP command for more than %d seconds.' *)
| StreamFailed          (* the error of an 'error' event of the stream *)
| ParseFailed (e : Thrown). (* what [parseCommandLine] threw *)

Inductive Promise :=
| Pending
| Resolved (command : Command)
| Rejected (e : StreamError).

(** The variables closed over by the listeners of one [parse] call, the
    promise it returned, and which of its listeners and whether its timer
    are still registered. *)
Record ParseState := mkParseState {
  buffer : list Z;
  bufferSize : nat;
  promise : Promise;
  data_listener : bool;
  error_listener : bool;
  end_listener : bool;
  timer_set : bool
}.

(** The state after [parse(inputStream)] returned, for a parser whose
    [maxLineLength] is not negative ([Buffer.alloc] raises otherwise). *)
Definition parse (this : SMTPCmdLineParser) : ParseState :=
  {| buffer := replicate (Z.to_nat (maxLineLength this)) 0;
     bufferSize := 0;
     promise := Pending;
     data_listener := true;
     error_listener := true;
     end_listener := true;
     timer_set := (0 <? timeout this) |}.

(** [cleanup(result)]: only the ['data'] listener is removed; a settled
    promise ignores a second settlement. *)
Definition cleanup (st : ParseState) (r : outcome StreamError Command) : ParseState :=
  {| buffer := buffer st;
     bufferSize := bufferSize st;
     promise := match promise st with
                | Pending => match r with
                             | Returned command => Resolved command
                             | Raised e => Rejected e
                             end
                | settled => settled
                end;
     data_listener := false;
     error_listener := error_listener st;
     end_listener := end_listener st;
     timer_set := false |}.

(** [chunk.copy(buffer, targetStart)]: the target after the copy and the
    number of bytes copied, which is what fits behind [targetStart]. *)
Definition copy (chunk buffer : list Z) (targetStart : nat) : list Z * nat :=
  let n := (length chunk `min` (length buffer - targetStart))%nat in
  (take targetStart buffer ++ take n chunk ++ drop (targetStart + n) buffer, n).

(** How the [while] loop of [onData] ends. *)
Inductive Scan :=
| NoLineBreak                 (* the chunk is used up *)
| BadLineBreak                (* a CR without LF or a LF without CR *)
| LineBreak (rest : list Z).  (* LF after CR; [rest] is the chunk from [pos] on *)

Fixpoint scan (lastChar : Z) (chunk : list Z) : Scan :=
  match chunk with
  | [] => NoLineBreak
  | currChar :: rest =>
      if ((lastChar =? 13) && negb (currChar =? 10))
         || (negb (lastChar =? 13) && (currChar =? 10))
      then BadLineBreak
      else if currChar =? 10 then LineBreak rest
      else scan currChar rest
  end.

(** The ['data'] listener on a buffer [chunk]; the second component is the
    exception that leaves the listener, if one does. *)
Definition onData (this : SMTPCmdLineParser) (st : ParseState) (chunk : list Z)
  : ParseState * option Thrown :=
  if negb (data_listener st) then (st, None)
  else
    match chunk with
    | [] => (st, None)
    | _ =>
        if Z.of_nat (bufferSize st + length chunk) >? maxLineLength this
        then (cleanup st (Raised InputTooLong), None)
        else
          match (if (bufferSize st =? 0)%nat then Ok 0
                 else Bytes.readUInt8 (buffer st) (Z.of_nat (bufferSize st) - 1)) with
          | Throw e => (st, Some e)
          | Ok lastChar =>
              let '(buf, n) := copy chunk (buffer st) (bufferSize st) in
              let st := {| buffer := buf;
                           bufferSize := bufferSize st + n;
                           promise := promise st;
                           data_listener := data_listener st;
                           error_listener := error_listener st;
                           end_listener := end_listener st;
                           timer_set := timer_set st |} in
              match scan lastChar chunk with
              | BadLineBreak => (cleanup st (Raised UnsupportedLineBreak), None)
              | NoLineBreak => (st, None)
              | LineBreak (_ :: _) => (cleanup st (Raised OctetsAfterLineBreak), None)
              | LineBreak [] =>
                  let line :=
                    SMTPReplyParser.Buffer_toString
                      (take (Z.to_nat (Z.of_nat (bufferSize st) - 2)) (buffer st)) in
                  match parseCommandLine this line with
                  | Ok command => (cleanup st (Returned command), None)
                  | Throw e => (cleanup st (Raised (ParseFailed e)), None)
                  end
              end
          end
    end.

(** The listeners registered with [once], and the timer. *)
Definition onError (st : ParseState) : ParseState :=
  if error_listener st then
    cleanup {| buffer := buffer st; bufferSize := bufferSize st; promise := promise st;
               data_listener := data_listener st; error_listener := false;
               end_listener := end_listener st; timer_set := timer_set st |}
            (Raised StreamFailed)
  else st.

Definition onEnd (st : ParseState) : ParseState :=
  if end_listener st then
    cleanup {| buffer := buffer st; bufferSize := bufferSize st; promise := promise st;
               data_listener := data_listener st; error_listener := error_listener st;
               end_listener := false; timer_set := timer_set st |}
            (Raised PrematureEnd)
  else st.

Definition onTimeout (st : ParseState) : ParseState :=
  if timer_set st then cleanup st (Raised CommandTimeout) else st.

(** The stream delivers the chunks one after the other; an exception that
    leaves the listener ends the delivery. *)
Fixpoint deliver (this : SMTPCmdLineParser) (st : ParseState) (chunks : list (list Z))
  : ParseState * option Thrown :=
  match chunks with
  | [] => (st, None)
  | chunk :: chunks' =>
      match onData this st chunk with
      | (st, None) => deliver this st chunks'
      | thrown => thrown
      end
  end.

End SMTPCmdLineInput.

(** ** The client (client.js): [command] and [_write] *)

Module SMTPClient.
Import JS SMTPCmdLineParser.

(** [Buffer.from(s, 'utf8')] for code units below 0x80. *)
Definition Buffer_from (s : jsstr) : list Z := map (fun c => Z.of_nat (nat_of_ascii c)) s.

(** The fields of a client; [socket] tells whether [this.socket] is set. *)
Record t := mk {
  timeout : Z;
  maxReplyLineLength : Z;
  maxCommandLineLength : Z;
  maxDataLineLength : Z;
  sending : bool;
  needsDrain : bool;
  secure : bool;
  socket : bool
}.

(** [new SMTPClient()] *)
Definition new : t :=
  {| timeout := 300000; maxReplyLineLength := 512; maxCommandLineLength := 512;
     maxDataLineLength := 1000; sending := false; needsDrain := false; secure := false;
     socket := false |}.

(** The options of [command]; [None] is an absent property. *)
Record Options := mkOptions {
  options_timeout : option Z;
  options_maxCommandLineLength : option Z;
  options_maxReplyLineLength : option Z
}.

(** [options || {}] for absent options. *)
Definition no_options : Options := mkOptions None None None.

(** [options.x || this.x] on numbers. *)
Definition or_else (o : option Z) (d : Z) : Z :=
  match o with
  | Some n => if n =? 0 then d else n
  | None => d
  end.

(** What the promises of the client are rejected with. *)
Inductive ClientError :=
| NotConnected        (* 'Client is not connected.' *)
| NotInSendingState   (* 'Unable to send data to the server: Client is not in sending state: %j' *)
| ParserError (e : Thrown). (* what the command parser threw *)

(** [_write(data)]: rejected at once, or the write is scheduled for the next tick. *)
Inductive Written :=
| WriteRejected (e : ClientError)
| WriteScheduled (data : list Z).

Definition _write (this : t) (data : list Z) : Written :=
  if negb (socket this) then WriteRejected NotConnected
  else if needsDrain this || sending this then WriteRejected NotInSendingState
  else WriteScheduled data.

(** The first argument of [command]: a string, or a command object ([None]
    for a falsy argument). *)
Inductive CommandArgument :=
| CommandString (line : jsstr)
| CommandObject (command : option Command).

(** [command(command, options)]: the promise is rejected at once, or a reply
    parser with the settings [replyParser] was started on the socket (the
    promise follows the promise of that parser) and [_write] was called. *)
Inductive Commanded :=
| CommandRejected (e : ClientError)
| CommandIssued (replyParser : SMTPReplyParser.parser)
                (reply : SMTPReplyParser.ParseState) (written : Written).

Definition command (this : t) (command : CommandArgument) (options : Options) : Commanded :=
  if negb (socket this) then CommandRejected NotConnected
  else
    let timeout := or_else (options_timeout options) (timeout this) in
    let maxCommandLineLength :=
      or_else (options_maxCommandLineLength options) (maxCommandLineLength this) in
    let maxReplyLineLength :=
      or_else (options_maxReplyLineLength options) (maxReplyLineLength this) in
    let cmdParser :=
      {| maxLineLength := maxCommandLineLength;
         SMTPCmdLineParser.timeout := SMTPCmdLineParser.timeout new_parser |} in
    let replyParser :=
      {| SMTPReplyParser.timeout := timeout;
         SMTPReplyParser.maxLineLength := maxReplyLineLength |} in
    match (match command with
           | CommandString line =>
               match parseCommandLine cmdParser line with
               | Ok c => Ok (Some c)
               | Throw e => Throw e
               end
           | CommandObject c => Ok c
           end) with
    | Throw e => CommandRejected (ParserError e)
    | Ok c =>
        match serializeCommand cmdParser c with
        | Throw e => CommandRejected (ParserError e)
        | Ok line =>
            CommandIssued replyParser (SMTPReplyParser.parse replyParser)
                          (_write this (Buffer_from line))
        end
    end.

End SMTPClient.

(** ** Notions for the statements about command lines *)

Section CommandNotions.
Import JS SMTPCmdLineParser.

(** The checks of [parseCommandLine] that do not depend on the verb. *)
Definition passes_line_checks (this : SMTPCmdLineParser) (line : jsstr) : Prop :=
  line <> []
  /\ Z.of_nat (length (trim line)) <= maxLineLength this - 2
  /\ has_cr_or_lf (trim line) = false.

(** ASCII upper case, to say what a case variant of a verb is. *)
Definition to_upper (c : ascii) : ascii :=
  let n := nat_of_ascii c in
  if ((97 <=? n) && (n <=? 122))%nat then ascii_of_nat (n - 32) else c.

Definition case_variant_of (v verb : jsstr) : Prop :=
  map to_upper v = verb /\ v <> verb.

(** A string without white space. *)
Definition ws_free (s : jsstr) : Prop := Forall (fun c => is_ws c = false) s.

(** A token of a command line: not empty, no white space. *)
Definition is_token (s : jsstr) : Prop := s <> [] /\ ws_free s.

(** The last character of a non-empty string is no white space. *)
Fixpoint no_trailing_ws (s : jsstr) : Prop :=
  match s with
  | [] => True
  | c :: s' => match s' with [] => is_ws c = false | _ => no_trailing_ws s' end
  end.

Definition no_leading_ws (s : jsstr) : Prop :=
  match s with [] => True | c :: _ => is_ws c = false end.

(** [field || ""] *)
Definition or_empty (field : option jsstr) : jsstr :=
  match field with Some s => s | None => [] end.

(** The argument token that [serializeCommand] writes after the verb. *)
Definition argument_tokens (c : Command) : list jsstr :=
  if bool_decide (verb c = str "EHLO") then [or_empty (domain c)]
  else if bool_decide (verb c = str "MAIL")
  then [str "FROM:<" ++ or_empty (returnPath c) ++ str ">"]
  else if bool_decide (verb c = str "RCPT")
  then [str "TO:<" ++ or_empty (forwardPath c) ++ str ">"]
  else [].

(** The token of a param: the bare key of a flag, [KEY=VALUE] otherwise. *)
Definition param_token (p : Param) : jsstr :=
  match p with
  | ParamPrim s => s
  | ParamObj [(key, PStr ((_ :: _) as v))] => key ++ str "=" ++ v
  | ParamObj [(key, _)] => key
  | ParamObj _ => []
  end.

(** The canonical line of a command: the verb, its argument and the params
    in their order, separated by single spaces. *)
Definition canonical_line (c : Command) : jsstr :=
  join (str " ") (verb c :: argument_tokens c ++ map param_token (params c)).


End CommandNotions.

(** ** Notions for the statements about replies *)

Section ReplyNotions.
Import JS SMTPReplyParser.

(** Exactly one line is marked as the last one, and it stands at the end. *)
Fixpoint only_last_isLast (x : list ReplyLine) : Prop :=
  match x with
  | [] => False
  | l :: x' =>
      match x' with
      | [] => isLast l = true
      | _ => isLast l = false /\ only_last_isLast x'
      end
  end.

(** One consistent multi-line reply with the code [c]. *)
Definition consistent_reply (c : Z) (x : list ReplyLine) : Prop :=
  Forall (fun l => code l = c) x /\ only_last_isLast x.

(** The lines of a reply on the wire: code, hyphen (space on the last line),
    the trimmed text, CRLF. *)
Fixpoint wire_lines (c : jsstr) (msgs : list jsstr) : jsstr :=
  match msgs with
  | [] => []
  | m :: msgs' =>
      match msgs' with
      | [] => c ++ str " " ++ trim m ++ CRLF
      | _ => c ++ str "-" ++ trim m ++ CRLF ++ wire_lines c msgs'
      end
  end.

(** The wire line of one message is within the limit of the parser. *)
Definition line_fits (this : parser) (c : Z) (m : jsstr) : Prop :=
  Z.of_nat (length (Number_toString c) + 1 + length (trim m) + 2) <= maxLineLength this.

(** A single final line whose message has 508 characters, the longest that
    [parseReplyLine] lets through. *)
Definition long_reply_line : ReplyLine :=
  mkReplyLine 250 true (replicate 508 "a"%char).

(** The bytes of "250 OK", CR, LF and one more byte, "X". *)
Definition reply_with_overhead : list Z := [50; 53; 48; 32; 79; 75; 13; 10; 88].

End ReplyNotions.

(** ** Notions for the statements about the session *)

Section SessionNotions.
Import SMTPClientSession.

(** A callback without an error. *)
Definition is_success (ev : Event) : bool :=
  match ev with CallbackInvoked None => true | _ => false end.

Fixpoint successes (evs : list Event) : nat :=
  match evs with
  | [] => 0
  | ev :: evs' => (if is_success ev then 1 else 0) + successes evs'
  end.

(** The listeners called by a run, in the order of the calls. *)
Fixpoint called_listeners (effects : list Effect) : list Observer :=
  match effects with
  | [] => []
  | Called o _ :: effects' => o :: called_listeners effects'
  | _ :: effects' => called_listeners effects'
  end.

(** How often [onReady] was called. *)
Fixpoint ready_count (effects : list Effect) : nat :=
  match effects with
  | [] => 0
  | OnReady :: effects' => S (ready_count effects')
  | _ :: effects' => ready_count effects'
  end.

(** A session with the listeners 1, 2 and 3 on 'command', in that order. *)
Definition three_listeners (connected ended : bool) : t :=
  {| state := {| stage := ""; connected := connected; ended := ended; error := None |};
     listeners := fun name => if bool_decide (name = "command"%string) then [1; 2; 3]%nat else [] |}.

(** A session with one listener on 'command'. *)
Definition one_listener (ended : bool) : t :=
  {| state := {| stage := ""; connected := false; ended := ended; error := None |};
     listeners := fun name => if bool_decide (name = "command"%string) then [7%nat] else [] |}.

End SessionNotions.

(** ** Notions for the statements about the encoder *)

Section EncoderNotions.
Import Bytes DotEncoder.

(** The bytes the encoder writes for the input byte [c] after the byte
    [lc]: the stuffed dot at the start of a line, the LF after a bare CR, the
    CR before a bare LF, and the byte itself. *)
Definition enc_step (lc c : Z) : list Z :=
  if ((lc =? 0) || (lc =? LF)) && (c =? DOT) then [DOT; DOT]
  else if negb (c =? LF) && (lc =? CR)
  then LF :: (if c =? DOT then [DOT; DOT] else [c])
  else if (c =? LF) && negb (lc =? CR) then [CR; LF]
  else [c].

Fixpoint enc_stream (lc : Z) (xs : list Z) : list Z :=
  match xs with
  | [] => []
  | c :: xs' => enc_step lc c ++ enc_stream c xs'
  end.

(** The last byte of [xs], or [lc] when there is none. *)
Fixpoint last_char (lc : Z) (xs : list Z) : Z :=
  match xs with
  | [] => lc
  | c :: xs' => last_char c xs'
  end.

(** What [_flush] appends before the final dot line. *)
Definition line_end (lc : Z) : list Z :=
  if lc =? CR then [LF] else if negb (lc =? LF) then [CR; LF] else [].

(** All the bytes pushed so far and the bytes waiting in the buffer. *)
Definition emitted (this : t) : list Z :=
  concat (pushed this) ++ take (Z.to_nat (bufferSize this)) (buffer this).

(** The buffer has its 1024 bytes and [bufferSize] points into it. *)
Definition enc_inv (this : t) : Prop :=
  length (buffer this) = 1024%nat /\ 0 <= bufferSize this < 1024.

End EncoderNotions.

(** ** Notions for the statements about the decoder *)

Section DecoderNotions.
Import Bytes DotDecoder.

(** The decoder on a stream of bytes, without its buffer: [line] is the
    line read so far, [lc] the byte before; the result is the output and
    whether the stream ended with the final dot line. *)
Fixpoint dec_lines (line : list Z) (lc : Z) (s : list Z) : list Z * bool :=
  match s with
  | [] => ([], false)
  | b :: s' =>
      if (lc =? CR) && (b =? LF) then
        let full := line ++ [b] in
        match full with
        | d :: rest =>
            if d =? DOT then
              if Z.of_nat (length full) =? 3 then ([], true)
              else let '(out, e) := dec_lines [] b s' in (rest ++ out, e)
            else let '(out, e) := dec_lines [] b s' in (full ++ out, e)
        | [] => dec_lines [] b s'
        end
      else dec_lines (line ++ [b]) b s'
  end.

(** No line of the stream, counted up to and with its CRLF, is longer than
    the 1000 bytes of the decoder's buffer; [n] bytes of the current line
    were read already, [lc] is the byte before. *)
Fixpoint lines_fit (n : nat) (lc : Z) (s : list Z) : Prop :=
  match s with
  | [] => True
  | b :: s' =>
      (n < 1000)%nat
      /\ lines_fit (if (lc =? CR) && (b =? LF) then 0%nat else S n) b s'
  end.

(** The decoder holds the line [line] in its buffer and is still running. *)
Definition dec_rel (this : t) (line : list Z) : Prop :=
  maxLineLength this = 1000
  /\ length (buffer this) = 1000%nat
  /\ bufferSize this = Z.of_nat (length line)
  /\ take (length line) (buffer this) = line
  /\ stalled this = false /\ ended this = false.

(** The line without the dot that was stuffed in front of it. *)
Definition unstuff (line : list Z) : list Z :=
  match line with
  | d :: rest => if d =? DOT then rest else line
  | [] => []
  end.

(** Line endings made CRLF: what becomes of the byte [c] after [lc]. *)
Definition norm_step (lc c : Z) : list Z :=
  if negb (c =? LF) && (lc =? CR) then [LF; c]
  else if (c =? LF) && negb (lc =? CR) then [CR; LF]
  else [c].

Fixpoint norm (lc : Z) (xs : list Z) : list Z :=
  match xs with
  | [] => line_end lc
  | c :: xs' => norm_step lc c ++ norm c xs'
  end.

(** The input with every bare CR and every bare LF made a CRLF, and a CRLF
    added to a last line that has none (also to the empty input). *)
Definition crlf_normalize (x : list Z) : list Z := norm 0 x.

Definition lc_of (prev : option Z) : Z :=
  match prev with Some b => b | None => 0 end.

(** No NUL byte stands directly before a dot. *)
Fixpoint nul_dot_free (prev : option Z) (x : list Z) : Prop :=
  match x with
  | [] => True
  | c :: x' => ~ (prev = Some 0 /\ c = DOT) /\ nul_dot_free (Some c) x'
  end.

(** The line the decoder holds after the encoded form of an input that ended
    with the byte [prev]: empty at the start and after a line end, ending
    with [prev] otherwise; and a line that starts with a dot starts with
    two. *)
Definition line_state (prev : option Z) (line : list Z) : Prop :=
  match prev with
  | None => line = []
  | Some b => if b =? LF then line = [] else last line = Some b
  end
  /\ (forall r, line = DOT :: r -> exists r', r = DOT :: r').

(** No chunk boundary separates a CR from the LF that follows it; [prev] is
    the byte before the first chunk. *)
Fixpoint keeps_crlf (prev : Z) (chunks : list (list Z)) : Prop :=
  match chunks with
  | [] => True
  | chunk :: chunks' =>
      ~ (prev = CR /\ hd_error chunk = Some LF)
      /\ keeps_crlf (last_char prev chunk) chunks'
  end.

(** The buffer has its 1000 bytes, and its last byte is a CR only while the
    buffer is full. *)
Definition good (this : t) : Prop :=
  length (buffer this) = 1000%nat
  /\ (buffer this !! 999%nat = Some CR -> bufferSize this = 1000).

(** The bounds the constructor sets up. *)
Definition dec_bounds (this : t) : Prop :=
  maxLineLength this = 1000 /\ length (buffer this) = 1000%nat /\ bufferSize this <= 1000.

(** Text made of lines that end with CRLF, without any other CR or LF. *)
Fixpoint crlf_only (lc : Z) (x : list Z) : Prop :=
  match x with
  | [] => lc = LF
  | c :: x' => (lc = CR -> c = LF) /\ (c = LF -> lc = CR) /\ crlf_only c x'
  end.

(** "a", CR, LF, ".b", CR, LF in two chunks. *)
Definition sample_chunks : list (list Z) := [[97; 13]; [10; 46; 98; 13; 10]].

End DecoderNotions.

(** ** Notions for the statements about the input side of the command parser *)

Section CommandInputNotions.
Import JS SMTPCmdLineParser SMTPCmdLineInput.

(** Every code unit is below 0x80. *)
Definition ascii_only (s : jsstr) : Prop := Forall (fun c => (nat_of_ascii c < 128)%nat) s.

(** A byte of a command line: below 0x80 and neither CR nor LF. *)
Definition line_byte (b : Z) : Prop := 0 <= b < 128 /\ b <> 13 /\ b <> 10.

(** What [parse] settles its promise with when [parseCommandLine] was
    called. *)
Definition settled_with (r : result Command) : Promise :=
  match r with
  | Ok command => Resolved command
  | Throw e => Rejected (ParseFailed e)
  end.

(** The rest of a stream that holds one line and its CRLF, after the byte
    [lc]. *)
Fixpoint line_rest (lc : Z) (s : list Z) : Prop :=
  match s with
  | [] => False
  | b :: s' => (lc = 13 -> b = 10 /\ s' = []) /\ (lc <> 13 -> b <> 10 /\ line_rest b s')
  end.

(** The bytes of a line that is not complete yet: no LF, and no CR except
    as the last byte. *)
Definition open_line (p : list Z) : Prop :=
  exists body, Forall (fun b => b <> 13 /\ b <> 10) body /\ (p = body \/ p = body ++ [13]).

(** The parser holds the bytes [p] and waits for more. *)
Definition holds (this : SMTPCmdLineParser) (st : ParseState) (p : list Z) : Prop :=
  length (buffer st) = Z.to_nat (maxLineLength this)
  /\ bufferSize st = length p
  /\ take (length p) (buffer st) = p
  /\ promise st = Pending
  /\ data_listener st = true.

End CommandInputNotions.

(** ** Notions for the statements about the streaming reply parser *)

Section ReplyStreamNotions.
Import JS SMTPReplyParser.
Import SMTPClient (Buffer_from).

(** The stream delivers the chunks one after the other to the ['data']
    listener; an exception that leaves the listener ends the delivery. *)
Fixpoint deliver_reply (this : parser) (st : ParseState) (chunks : list (list Z))
  : ParseState * option Thrown :=
  match chunks with
  | [] => (st, None)
  | chunk :: chunks' =>
      match onData this st chunk with
      | (st, None) => deliver_reply this st chunks'
      | thrown => thrown
      end
  end.

(** What a promise is settled with. *)
Definition settled_reply (r : result Reply) : Promise :=
  match r with
  | Ok reply => Resolved reply
  | Throw e => Rejected e
  end.

(** The reply parser on a stream of bytes, without its buffer and without
    the chunks: [cur] is the line read so far, [lines] the reply lines
    parsed so far.  The scan goes on, fails, or reaches the last line of the
    reply with the bytes [rest] still to come. *)
Inductive Scanned :=
| Running (cur : list Z) (lines : list ReplyLine)
| Failed (e : Thrown)
| Final (lines : list ReplyLine) (rest : list Z).

Fixpoint scan_reply (this : parser) (cur : list Z) (lines : list ReplyLine) (s : list Z)
  : Scanned :=
  match s with
  | [] => Running cur lines
  | b :: s' =>
      if Z.of_nat (length cur) >=? maxLineLength this then Failed ReplyLineLimit
      else if b =? 10 then
        match parseReplyLine this (Buffer_toString (cur ++ [b])) with
        | Throw e => Failed e
        | Ok replyLine =>
            if isLast replyLine then Final (lines ++ [replyLine]) s'
            else scan_reply this [] (lines ++ [replyLine]) s'
        end
      else scan_reply this (cur ++ [b]) lines s'
  end.

(** The parser holds the line [cur] and the reply lines [lines] and waits
    for more bytes. *)
Definition reading (this : parser) (st : ParseState) (cur : list Z) (lines : list ReplyLine)
  : Prop :=
  length (currentLine st) = Z.to_nat (maxLineLength this)
  /\ lineLength st = length cur
  /\ take (length cur) (currentLine st) = cur
  /\ replyLines st = lines
  /\ promise st = Pending
  /\ listening st = true.

(** The reply lines that the wire form of the messages [msgs] with the code
    [c] stands for. *)
Fixpoint wire_reply_lines (c : Z) (msgs : list jsstr) : list ReplyLine :=
  match msgs with
  | [] => []
  | m :: msgs' =>
      mkReplyLine c (match msgs' with [] => true | _ => false end) (trim m)
      :: wire_reply_lines c msgs'
  end.

End ReplyStreamNotions.

(** ** Notions for further statements about the codec *)

Section CodecNotions.
Import Bytes.

(** The input with every dot doubled that directly follows a NUL byte;
    [prev] is the byte before, [None] at the start of the input. *)
Fixpoint nul_dots (prev : option Z) (x : list Z) : list Z :=
  match x with
  | [] => []
  | c :: x' =>
      (if match prev with Some p => p =? 0 | None => false end && (c =? DOT)
       then [DOT; DOT] else [c])
      ++ nul_dots (Some c) x'
  end.

End CodecNotions.

(** * Properties *)

(** ** Command lines *)

Section CommandLines.
Import JS SMTPCmdLineParser.

Example parse_mail_scenario :
  parseCommandLine new_parser (str "MAIL FROM:<test@baleen.io> SIZE=1000000 TESTPARAM")
  = Ok (mkCommand (str "MAIL") None (Some (str "test@baleen.io")) None
          [ParamObj [(str "SIZE", PStr (str "1000000"))];
           ParamObj [(str "TESTPARAM", PTrue)]]).
Proof. vm_compute. reflexivity. Qed.

Example serialize_mail_scenario :
  (c <- parseCommandLine new_parser (str "  MAIL   FROM:test@baleen.io SIZE=1000000  TESTPARAM  ") ;;
   serializeCommand new_parser (Some c))
  = Ok (str "MAIL FROM:<test@baleen.io> SIZE=1000000 TESTPARAM" ++ CRLF).
Proof. vm_compute. reflexivity. Qed.

Example parse_lowercase_mail :
  parseCommandLine new_parser (str "mail FROM:<a@b>")
  = Ok (mkCommand (str "mail") None None None
          [ParamObj [(str "FROM:<a@b>", PTrue)]]).
Proof. vm_compute. reflexivity. Qed.

Lemma parseCommandLine_tokens this line v parts :
  passes_line_checks this line ->
  split_ws (trim line) = v :: parts ->
  parseCommandLine this line =
    (r <- parse_verb_argument v parts ;;
     let '(d, rp, fp, parts) := r in
     Ok (mkCommand v d rp fp (map parse_param parts))).
Proof.
  intros (Hne & Hlen & Hbr) Hsplit. unfold parseCommandLine.
  destruct line as [|c line]; [done|].
  destruct (Z.gtb_spec (Z.of_nat (length (trim (c :: line)))) (maxLineLength this - 2)); [lia|].
  rewrite Hbr, Hsplit. reflexivity.
Qed.

Lemma parse_verb_argument_other v parts :
  v <> str "EHLO" -> v <> str "MAIL" -> v <> str "RCPT" ->
  parse_verb_argument v parts = Ok (None, None, None, parts).
Proof.
  intros H1 H2 H3. unfold parse_verb_argument.
  rewrite !bool_decide_eq_false_2 by assumption. reflexivity.
Qed.

End CommandLines.

Section Tokens.
Import JS.

Lemma take_drop_while p s : take_while p s ++ drop_while p s = s.
Proof. induction s as [|c s IH]; simpl; [done|]. destruct (p c); simpl; congruence. Qed.

Lemma take_while_all p s : Forall (fun c => p c = true) s -> take_while p s = s.
Proof. induction 1 as [|c s Hc _ IH]; simpl; [done|]. rewrite Hc, IH. done. Qed.

Lemma take_while_Forall p s : Forall (fun c => p c = true) (take_while p s).
Proof.
  induction s as [|c s IH]; simpl; [constructor|].
  destruct (p c) eqn:Hc; constructor; assumption.
Qed.

Lemma drop_while_head p c s : p c = false -> drop_while p (c :: s) = c :: s.
Proof. intros H. simpl. rewrite H. done. Qed.

Lemma drop_while_snoc p l c :
  p c = false -> exists u, drop_while p (l ++ [c]) = u ++ [c].
Proof.
  intros Hc. induction l as [|a l [u IH]]; simpl.
  - rewrite Hc. exists []. done.
  - destruct (p a); [eauto|]. exists (a :: l). done.
Qed.

Lemma ws_free_app s1 s2 : ws_free s1 -> ws_free s2 -> ws_free (s1 ++ s2).
Proof. apply Forall_app_2. Qed.

Lemma not_ws_not_break c : is_ws c = false -> is_cr_or_lf c = false.
Proof. destruct c as [[] [] [] [] [] [] [] []]; vm_compute; congruence. Qed.

Lemma ws_free_no_break s : ws_free s -> has_cr_or_lf s = false.
Proof.
  induction 1 as [|c s Hc _ IH]; simpl; [done|].
  rewrite IH, (not_ws_not_break _ Hc). done.
Qed.

Lemma ws_free_not_break s :
  ws_free s -> Forall (fun c => negb (is_cr_or_lf c) = true) s.
Proof.
  induction 1 as [|c s Hc _ IH]; constructor; [|done].
  rewrite (not_ws_not_break _ Hc). done.
Qed.

(** *** [trim] *)

Lemma no_trailing_ws_snoc l c : is_ws c = false -> no_trailing_ws (l ++ [c]).
Proof.
  intros Hc. induction l as [|a l IH]; simpl; [done|].
  destruct (l ++ [c]) eqn:E; [by destruct l|]. done.
Qed.

Lemma no_trailing_ws_rev s : no_leading_ws s -> no_trailing_ws (rev s).
Proof. destruct s as [|c s]; simpl; [done|]. apply no_trailing_ws_snoc. Qed.

Lemma no_leading_ws_drop_while s : no_leading_ws (drop_while is_ws s).
Proof.
  induction s as [|c s IH]; simpl; [done|]. destruct (is_ws c) eqn:E; [done|]. simpl. done.
Qed.

Lemma trim_no_trailing_ws s : no_trailing_ws (trim s).
Proof. unfold trim, trimRight. apply no_trailing_ws_rev, no_leading_ws_drop_while. Qed.

Lemma trim_no_leading_ws s : no_leading_ws (trim s).
Proof.
  unfold trim, trimRight, trimLeft.
  pose proof (no_leading_ws_drop_while s) as H.
  destruct (drop_while is_ws s) as [|c t]; [done|]. simpl in H.
  simpl rev. destruct (drop_while_snoc is_ws (rev t) c H) as [u ->].
  rewrite rev_app_distr. simpl. done.
Qed.

Lemma trimLeft_id s : no_leading_ws s -> trimLeft s = s.
Proof.
  destruct s as [|c s]; [done|]. intros H. unfold trimLeft. simpl in *. by rewrite H.
Qed.

Lemma trimRight_id s : no_trailing_ws s -> trimRight s = s.
Proof.
  intros H. unfold trimRight.
  assert (Hl : no_leading_ws (rev s)).
  { induction s as [|c s IH]; [done|]. simpl in H. destruct s as [|d s].
    - simpl. done.
    - specialize (IH H). simpl in *. destruct (rev s ++ [d]) eqn:E; [by destruct (rev s)|].
      simpl. done. }
  destruct (rev s) as [|c t] eqn:E; simpl.
  - rewrite <- (rev_involutive s), E. done.
  - simpl in Hl. rewrite Hl. rewrite <- E. apply rev_involutive.
Qed.

Lemma trim_id s : no_leading_ws s -> no_trailing_ws s -> trim s = s.
Proof. intros H1 H2. unfold trim. rewrite (trimLeft_id _ H1). by apply trimRight_id. Qed.

Lemma trimRight_app_ws s t :
  Forall (fun c => is_ws c = true) t -> trimRight (s ++ t) = trimRight s.
Proof.
  intros Ht. unfold trimRight. f_equal. rewrite rev_app_distr.
  apply Forall_rev in Ht. induction Ht as [|c u Hc _ IH]; simpl; [done|].
  rewrite Hc. done.
Qed.

Lemma drop_while_all p s : Forall (fun c => p c = true) s -> drop_while p s = [].
Proof. induction 1 as [|c s Hc _ IH]; simpl; [done|]. by rewrite Hc. Qed.

Lemma take_while_app_stop p s c t :
  Forall (fun x => p x = true) s -> p c = false ->
  take_while p (s ++ c :: t) = s /\ drop_while p (s ++ c :: t) = c :: t.
Proof.
  intros Hs Hc. induction Hs as [|x s Hx _ [IH1 IH2]]; simpl.
  - by rewrite Hc.
  - by rewrite Hx, IH1, IH2.
Qed.

Lemma key_chars key :
  Forall (fun c => c <> "="%char) key ->
  Forall (fun c => negb (Ascii.eqb c "="%char) = true) key.
Proof.
  intros H. eapply Forall_impl; [exact H|]. intros c Hc.
  apply negb_true_iff. by apply Ascii.eqb_neq.
Qed.

End Tokens.

Section Splitting.
Import JS.

(** *** [split] *)

Lemma split_go_ws_free s : forall b cur,
  ws_free cur -> Forall ws_free (split_go b cur s).
Proof.
  induction s as [|c s IH]; intros b cur Hcur; simpl.
  - by constructor.
  - destruct (is_ws c) eqn:Hc.
    + destruct b; [by apply IH|]. constructor; [done|]. apply IH. constructor.
    + apply IH. apply ws_free_app; [done|]. by constructor.
Qed.

Lemma split_go_nonempty s : forall b cur,
  no_trailing_ws s ->
  (b = true -> s <> []) -> (b = false -> cur <> []) ->
  Forall (fun tok : jsstr => tok <> []) (split_go b cur s).
Proof.
  induction s as [|c s IH]; intros b cur Htrail Hb Hcur; simpl.
  - destruct b; [by destruct (Hb eq_refl)|]. constructor; [by apply Hcur | constructor].
  - assert (Hs : is_ws c = true -> s <> [] /\ no_trailing_ws s).
    { intros Hc. simpl in Htrail. destruct s; [congruence|]. done. }
    assert (Hs' : no_trailing_ws s).
    { simpl in Htrail. destruct s; [done|]. done. }
    destruct (is_ws c) eqn:Hc.
    + destruct (Hs eq_refl) as [Hne _]. destruct b.
      * apply IH; [done | done | done].
      * constructor; [by apply Hcur|]. apply IH; done.
    + apply IH; [done | done |]. intros _. by destruct cur.
Qed.

Lemma split_trim_tokens line v parts :
  split_ws (trim line) = v :: parts -> v <> [] -> Forall is_token (v :: parts).
Proof.
  intros Hsplit Hv.
  pose proof (trim_no_leading_ws line) as Hlead.
  pose proof (trim_no_trailing_ws line) as Htrail.
  destruct (trim line) as [|c s] eqn:E.
  - inversion Hsplit; subst. done.
  - simpl in Hlead. unfold split_ws in Hsplit. simpl in Hsplit. rewrite Hlead in Hsplit.
    assert (Hs : no_trailing_ws s) by (simpl in Htrail; destruct s; done).
    pose proof (split_go_ws_free s false [c] ltac:(by constructor)) as H1.
    pose proof (split_go_nonempty s false [c] Hs ltac:(done) ltac:(done)) as H2.
    rewrite Hsplit in H1, H2. apply Forall_forall. intros tok Hin. split.
    + by apply (proj1 (Forall_forall _ _) H2).
    + by apply (proj1 (Forall_forall _ _) H1).
Qed.

Lemma split_go_token t : forall cur rest,
  ws_free t -> split_go false cur (t ++ rest) = split_go false (cur ++ t) rest.
Proof.
  induction t as [|c t IH]; intros cur rest Ht; simpl.
  - by rewrite app_nil_r.
  - inversion Ht as [|? ? Hc Ht']; subst. rewrite Hc, IH by done.
    by rewrite <- app_assoc.
Qed.

Lemma join_cons sep x l :
  join sep (x :: l) = x ++ concat (map (fun t => sep ++ t) l).
Proof.
  revert x. induction l as [|y l IH]; intros x; simpl.
  - by rewrite app_nil_r.
  - simpl in IH. rewrite IH. by rewrite <- app_assoc.
Qed.

Lemma split_go_join toks : forall t cur,
  Forall is_token (t :: toks) ->
  split_go false cur (join (str " ") (t :: toks)) = (cur ++ t) :: toks.
Proof.
  induction toks as [|t2 toks IH]; intros t cur Htoks.
  - inversion Htoks as [|? ? [_ Ht] _]; subst. simpl.
    rewrite <- (app_nil_r t) at 1. rewrite split_go_token by done. done.
  - inversion Htoks as [|? ? [_ Ht] Hrest]; subst.
    change (join (str " ") (t :: t2 :: toks))
      with (t ++ str " " ++ join (str " ") (t2 :: toks)).
    rewrite split_go_token by done.
    specialize (IH t2 [] Hrest). simpl app in IH.
    inversion Hrest as [|? ? [Hne Ht2] _]; subst.
    rewrite (join_cons _ t2 toks) in *. destruct t2 as [|c t2]; [done|].
    inversion Ht2 as [|? ? Hc _]; subst.
    change (str " " ++ ?x) with (" "%char :: x).
    cbn [split_go app] in *. change (is_ws " "%char) with true. cbn iota.
    rewrite Hc in *. by rewrite IH.
Qed.

Lemma split_ws_join t toks :
  Forall is_token (t :: toks) ->
  split_ws (join (str " ") (t :: toks)) = t :: toks.
Proof. intros H. unfold split_ws. by rewrite split_go_join. Qed.

Lemma no_trailing_ws_app s r :
  r <> [] -> no_trailing_ws r -> no_trailing_ws (s ++ r).
Proof.
  intros Hr Hn. induction s as [|c s IH]; [done|].
  change (no_trailing_ws (c :: (s ++ r))). cbn [no_trailing_ws].
  destruct (s ++ r) eqn:E; [by destruct s|]. done.
Qed.

Lemma ws_free_no_trailing s : ws_free s -> no_trailing_ws s.
Proof.
  induction 1 as [|c s Hc Hs IHs]; [done|]. cbn [no_trailing_ws]. by destruct s.
Qed.

Lemma join_ws_free_parts t toks :
  Forall is_token (t :: toks) ->
  no_leading_ws (join (str " ") (t :: toks))
  /\ no_trailing_ws (join (str " ") (t :: toks))
  /\ has_cr_or_lf (join (str " ") (t :: toks)) = false.
Proof.
  revert t. induction toks as [|t2 toks IH]; intros t Htoks.
  - inversion Htoks as [|? ? [Hne Ht] _]; subst. simpl. split; [|split].
    + destruct t; [done|]. by inversion Ht.
    + by apply ws_free_no_trailing.
    + by apply ws_free_no_break.
  - inversion Htoks as [|? ? [Hne Ht] Hrest]; subst.
    destruct (IH t2 Hrest) as (H1 & H2 & H3).
    change (join (str " ") (t :: t2 :: toks))
      with (t ++ " "%char :: join (str " ") (t2 :: toks)).
    set (r := join (str " ") (t2 :: toks)) in *.
    assert (Hr : r <> []).
    { unfold r. rewrite join_cons. inversion Hrest as [|? ? [Hne2 _] _]; subst.
      by destruct t2. }
    split; [|split].
    + destruct t; [done|]. by inversion Ht.
    + apply no_trailing_ws_app; [done|]. cbn [no_trailing_ws]. by destruct r.
    + unfold has_cr_or_lf in *. rewrite existsb_app. simpl.
      fold (has_cr_or_lf t). rewrite (ws_free_no_break _ Ht), H3. done.
Qed.

End Splitting.

Section CanonicalLines.
Import JS SMTPCmdLineParser.

Ltac ws_free_literal :=
  unfold ws_free, str; simpl;
  repeat (apply List.Forall_cons; [reflexivity|]); apply List.Forall_nil.

Lemma bracketed_token pre p :
  ws_free pre -> ws_free p -> is_token (pre ++ str "<" ++ p ++ str ">").
Proof.
  intros Hpre Hp. split; [by destruct pre|].
  apply ws_free_app; [done|]. apply (ws_free_app (str "<")); [ws_free_literal|].
  apply ws_free_app; [done | ws_free_literal].
Qed.

Lemma strip_prefix_app p m : strip_prefix p (p ++ m) = Some m.
Proof.
  induction p as [|a p IH]; simpl; [by destruct m|]. by rewrite Ascii.eqb_refl.
Qed.

Lemma exec_prefix_nonspace_unfold p s :
  exec_prefix_nonspace p s =
  match
    match strip_prefix p s with
    | Some rest =>
        match take_while (fun c => negb (is_ws c)) rest with
        | [] => None
        | m => Some m
        end
    | None => None
    end
  with
  | Some m => Some m
  | None => match s with [] => None | _ :: s' => exec_prefix_nonspace p s' end
  end.
Proof. by destruct s. Qed.

Lemma ws_free_negb s : ws_free s -> Forall (fun c => negb (is_ws c) = true) s.
Proof. intros H. eapply Forall_impl; [exact H|]. by intros c ->. Qed.

Lemma exec_prefix_nonspace_here p m :
  is_token m -> exec_prefix_nonspace p (p ++ m) = Some m.
Proof.
  intros [Hne Hm]. rewrite exec_prefix_nonspace_unfold, strip_prefix_app.
  rewrite (take_while_all _ _ (ws_free_negb _ Hm)). by destruct m.
Qed.

Lemma exec_prefix_nonspace_token p s m :
  exec_prefix_nonspace p s = Some m -> is_token m.
Proof.
  induction s as [|c s IH]; rewrite exec_prefix_nonspace_unfold.
  - destruct (strip_prefix p []) as [rest|]; [|done].
    pose proof (take_while_Forall (fun c => negb (is_ws c)) rest) as HF.
    destruct (take_while _ rest) eqn:E; [done|]. intros [= <-]. split; [done|].
    eapply Forall_impl; [exact HF|]. intros x Hx. by apply negb_true_iff in Hx.
  - destruct (strip_prefix p (c :: s)) as [rest|]; [|done].
    pose proof (take_while_Forall (fun c => negb (is_ws c)) rest) as HF.
    destruct (take_while _ rest) eqn:E; [done|]. intros [= <-]. split; [done|].
    eapply Forall_impl; [exact HF|]. intros x Hx. by apply negb_true_iff in Hx.
Qed.

Lemma unbracket_ws_free err path p :
  unbracket err path = Ok p -> ws_free path -> ws_free p.
Proof.
  unfold unbracket. destruct (startsWith path (str "<")); [|by intros [= ->]].
  destruct (endsWith path (str ">")); [|done]. simpl. intros [= <-] H.
  unfold substr. by apply Forall_take, Forall_drop.
Qed.

Lemma unbracket_bracketed err p :
  unbracket err (str "<" ++ p ++ str ">") = Ok p.
Proof.
  unfold unbracket. change (startsWith (str "<" ++ p ++ str ">") (str "<")) with true.
  cbn iota. unfold endsWith. rewrite !rev_app_distr. simpl rev at 1 2.
  change (startsWith ((">"%char :: rev p) ++ rev (str "<")) [">"%char]) with true.
  cbn [negb]. cbn iota. f_equal. unfold substr.
  change (str "<" ++ p ++ str ">") with ("<"%char :: p ++ [">"%char]).
  cbn [drop length]. rewrite length_app. cbn [length].
  replace (Z.to_nat (Z.of_nat (S (length p + 1)) - 2)) with (length p) by lia.
  by rewrite drop_0, take_app_length.
Qed.

(** A token is parsed into a param from which it is rendered again, unless
    its key is ["__proto__"]. *)
Lemma parse_param_token tok :
  is_token tok -> parse_param tok <> ParamObj [] ->
  param_token (parse_param tok) = tok
  /\ forall line, render_param line (parse_param tok) = line ++ str " " ++ tok.
Proof.
  intros [Hne Htok] Hproto. unfold parse_param, exec_key_value in *.
  set (not_eq := fun c => negb (Ascii.eqb c "="%char)) in *.
  pose proof (take_drop_while not_eq tok) as Hsplit.
  destruct (drop_while not_eq tok) as [|e v] eqn:Hdrop.
  - unfold new_param in *. case_bool_decide; [done|]. simpl. split; [done|].
    intros line. done.
  - assert (He : e = "="%char).
    { clear -Hdrop. induction tok as [|c tok IH]; [done|]. simpl in Hdrop.
      destruct (not_eq c) eqn:Hc; [by apply IH|]. injection Hdrop as -> _.
      unfold not_eq in Hc. apply negb_false_iff, Ascii.eqb_eq in Hc. done. }
    subst e.
    assert (Hv : ws_free v).
    { rewrite <- Hsplit in Htok. apply Forall_app in Htok as [_ Htok].
      by inversion Htok. }
    rewrite (take_while_all _ _ (ws_free_not_break _ Hv)) in *.
    destruct v as [|c v].
    + unfold new_param in *. case_bool_decide; [done|]. simpl. split; [done|].
      intros line. done.
    + unfold new_param in *. case_bool_decide; [done|]. simpl. split.
      * by rewrite <- Hsplit at 2.
      * intros line. rewrite <- Hsplit at 2. done.
Qed.

Lemma render_params line toks :
  Forall is_token toks ->
  Forall (fun p => p <> ParamObj []) (map parse_param toks) ->
  map param_token (map parse_param toks) = toks
  /\ fold_left render_param (map parse_param toks) line
     = line ++ concat (map (fun t => str " " ++ t) toks).
Proof.
  revert line. induction toks as [|t toks IH]; intros line Htoks Hproto; simpl.
  - by rewrite app_nil_r.
  - inversion Htoks as [|? ? Ht Htoks']; subst.
    inversion Hproto as [|? ? Hp Hproto']; subst.
    destruct (parse_param_token t Ht Hp) as [H1 H2].
    destruct (IH (line ++ str " " ++ t) Htoks' Hproto') as [H3 H4].
    rewrite H1, H2, H3, H4. split; [done|]. by rewrite <- !app_assoc.
Qed.

Lemma split_go_not_nil s : forall b cur, split_go b cur s <> [].
Proof.
  induction s as [|c s IH]; intros b cur; simpl; [done|].
  destruct (is_ws c); [destruct b|]; [apply IH | done | apply IH].
Qed.

(** What a successful parse says about the line and the command. *)
Lemma parseCommandLine_inv this line c :
  parseCommandLine this line = Ok c ->
  exists v parts d rp fp parts',
    passes_line_checks this line
    /\ split_ws (trim line) = v :: parts
    /\ parse_verb_argument v parts = Ok (d, rp, fp, parts')
    /\ c = mkCommand v d rp fp (map parse_param parts').
Proof.
  unfold parseCommandLine. destruct line as [|a line]; [done|].
  destruct (Z.gtb_spec (Z.of_nat (length (trim (a :: line)))) (maxLineLength this - 2));
    [done|].
  destruct (has_cr_or_lf (trim (a :: line))) eqn:Hbr; [done|].
  destruct (split_ws (trim (a :: line))) as [|v parts] eqn:Hsplit.
  - by apply split_go_not_nil in Hsplit.
  - destruct (parse_verb_argument v parts) as [[[[d rp] fp] parts']|] eqn:Harg; [|done].
    simpl. intros [= <-]. exists v, parts, d, rp, fp, parts'.
    repeat split; try done.
Qed.

(** The fields and the tokens after a successful [switch], and what the
    [switch] of [serializeCommand] makes of them. *)
Lemma parse_verb_argument_canonical v parts d rp fp parts' ps :
  Forall is_token (v :: parts) ->
  parse_verb_argument v parts = Ok (d, rp, fp, parts') ->
  let c := mkCommand v d rp fp ps in
  Forall is_token (argument_tokens c) /\ Forall is_token parts'
  /\ parse_verb_argument v (argument_tokens c ++ parts') = Ok (d, rp, fp, parts')
  /\ render_verb_argument c = Ok (join (str " ") (v :: argument_tokens c)).
Proof.
  intros Htoks Hparse c. inversion Htoks as [|? ? Hv Hparts]; subst.
  unfold parse_verb_argument in Hparse |- *.
  unfold render_verb_argument, argument_tokens. subst c. cbn [verb domain returnPath forwardPath].
  case_bool_decide as HE; [|case_bool_decide as HM; [|case_bool_decide as HR]].
  - destruct parts as [|dtok rest]; [done|]. injection Hparse as <- <- <- <-.
    inversion Hparts as [|? ? Hd Hrest]; subst. cbn [or_empty].
    split; [constructor; [done|constructor]|]. split; [done|]. split; [done|].
    destruct dtok; [by destruct Hd|]. done.
  - destruct parts as [|tok rest]; [done|].
    destruct (exec_prefix_nonspace (str "FROM:") tok) as [path|] eqn:Hexec; [|done].
    destruct (unbracket MailInvalidReturnPath path) as [p|] eqn:Hunb; [|done].
    simpl in Hparse. injection Hparse as <- <- <- <-.
    inversion Hparts as [|? ? Ht Hrest]; subst.
    pose proof (exec_prefix_nonspace_token _ _ _ Hexec) as [_ Hpath].
    pose proof (unbracket_ws_free _ _ _ Hunb Hpath) as Hp.
    assert (Harg : is_token (str "<" ++ p ++ str ">")).
    { apply (bracketed_token [] p); [constructor | done]. }
    cbn [or_empty]. split; [|split; [done|split]].
    + constructor; [|constructor].
      apply (bracketed_token (str "FROM:") p); [ws_free_literal | done].
    + cbn [app]. change (str "FROM:<" ++ p ++ str ">")
        with (str "FROM:" ++ str "<" ++ p ++ str ">").
      rewrite (exec_prefix_nonspace_here _ _ Harg), unbracket_bracketed. done.
    + done.
  - destruct parts as [|tok rest]; [done|].
    destruct (exec_prefix_nonspace (str "TO:") tok) as [path|] eqn:Hexec; [|done].
    destruct (unbracket RcptInvalidForwardPath path) as [p|] eqn:Hunb; [|done].
    simpl in Hparse.
    assert (Hne : p <> []) by (by intros ->).
    assert (Hparse' : Ok (None, None, Some p, rest) = Ok (d, rp, fp, parts'))
      by (by destruct p).
    clear Hparse. injection Hparse' as <- <- <- <-.
    inversion Hparts as [|? ? Ht Hrest]; subst.
    pose proof (exec_prefix_nonspace_token _ _ _ Hexec) as [_ Hpath].
    pose proof (unbracket_ws_free _ _ _ Hunb Hpath) as Hp.
    assert (Harg : is_token (str "<" ++ p ++ str ">")).
    { apply (bracketed_token [] p); [constructor | done]. }
    cbn [or_empty]. split; [|split; [done|split]].
    + constructor; [|constructor].
      apply (bracketed_token (str "TO:") p); [ws_free_literal | done].
    + cbn [app]. change (str "TO:<" ++ p ++ str ">")
        with (str "TO:" ++ str "<" ++ p ++ str ">").
      rewrite (exec_prefix_nonspace_here _ _ Harg), unbracket_bracketed.
      by destruct p.
    + by destruct p.
  - injection Hparse as <- <- <- <-.
    split; [constructor|]. split; [done|]. split; [done|]. done.
Qed.

End CanonicalLines.

Section C6.
Import JS SMTPCmdLineParser.




End C6.

Section C10.
Import JS SMTPCmdLineParser.

(** The param that the params loop makes of one token, by the shape of the
    token. *)
Lemma parse_param_shapes part :
  is_token part ->
  (Forall (fun c => c <> "="%char) part -> part <> str "__proto__" ->
   parse_param part = ParamObj [(part, PTrue)])
  /\ (forall key value,
        part = key ++ str "=" ++ value ->
        Forall (fun c => c <> "="%char) key -> value <> [] -> key <> str "__proto__" ->
        parse_param part = ParamObj [(key, PStr value)])
  /\ (forall key,
        part = key ++ str "=" ->
        Forall (fun c => c <> "="%char) key ->
        parse_param part = ParamObj [(part, PTrue)]).
Proof.
  intros [_ Hfree]. split; [|split].
  - intros Hkey Hproto. apply key_chars in Hkey. unfold parse_param, exec_key_value.
    rewrite (drop_while_all _ _ Hkey). unfold new_param.
    by rewrite bool_decide_eq_false_2.
  - intros key value -> Hkey Hne Hproto. apply key_chars in Hkey.
    assert (Hval : ws_free value).
    { unfold ws_free in *. apply Forall_app in Hfree as [_ Hfree].
      by apply Forall_app in Hfree as [_ Hfree]. }
    unfold parse_param, exec_key_value.
    change (str "=" ++ value) with ("="%char :: value).
    destruct (take_while_app_stop _ key "="%char value Hkey eq_refl) as [-> ->].
    rewrite (take_while_all _ _ (ws_free_not_break _ Hval)).
    destruct value as [|c v]; [done|]. unfold new_param.
    by rewrite bool_decide_eq_false_2.
  - intros key -> Hkey. apply key_chars in Hkey. unfold parse_param, exec_key_value.
    change (str "=") with ["="%char].
    destruct (take_while_app_stop _ key "="%char [] Hkey eq_refl) as [-> ->].
    cbn [take_while]. unfold new_param. rewrite bool_decide_eq_false_2; [done|].
    intros Heq. apply (f_equal (@rev ascii)) in Heq. rewrite rev_app_distr in Heq.
    simpl in Heq. discriminate Heq.
Qed.

(** C10: the verb dispatch is case sensitive.  For a command line that
    passes the checks made for every verb and whose first token is a
    lower-case or mixed-case variant of EHLO, MAIL or RCPT, the parse
    succeeds, the result has no domain, returnPath or forwardPath, and there
    is one param for every remaining token, in order, a FROM: or TO: token
    included: a token without equals sign is the flag [token: true], a token
    [key=value] is the param [key] with the string [value], and a token that
    ends with its only equals sign is a flag named like the token (keys
    named __proto__ apart). *)
Theorem C10_verb_dispatch_case_sensitive this line v parts :
  passes_line_checks this line ->
  split_ws (trim line) = v :: parts ->
  case_variant_of v (str "EHLO") \/ case_variant_of v (str "MAIL")
    \/ case_variant_of v (str "RCPT") ->
  exists ps,
    parseCommandLine this line
    = Ok {| verb := v; domain := None; returnPath := None; forwardPath := None;
            params := ps |}
    /\ Forall2
         (fun part p =>
            (Forall (fun c => c <> "="%char) part -> part <> str "__proto__" ->
             p = ParamObj [(part, PTrue)])
            /\ (forall key value,
                  part = key ++ str "=" ++ value ->
                  Forall (fun c => c <> "="%char) key -> value <> [] ->
                  key <> str "__proto__" ->
                  p = ParamObj [(key, PStr value)])
            /\ (forall key,
                  part = key ++ str "=" ->
                  Forall (fun c => c <> "="%char) key ->
                  p = ParamObj [(part, PTrue)]))
         parts ps.
Proof.
  intros Hchecks Hsplit Hvariant. exists (map parse_param parts). split.
  - rewrite (parseCommandLine_tokens _ _ _ _ Hchecks Hsplit).
    rewrite parse_verb_argument_other; [reflexivity | | |];
      intros ->; destruct Hvariant as [[H1 H2]|[[H1 H2]|[H1 H2]]];
      try (by apply H2); vm_compute in H1; discriminate H1.
  - assert (Hv : v <> []).
    { intros ->. destruct Hvariant as [[H1 _]|[[H1 _]|[H1 _]]]; discriminate H1. }
    pose proof (split_trim_tokens _ _ _ Hsplit Hv) as Htoks.
    apply Forall_cons_1 in Htoks as [_ Htoks]. clear -Htoks.
    induction Htoks as [|part parts Hpart _ IH]; [constructor|].
    cbn [map]. constructor; [|exact IH]. by apply parse_param_shapes.
Qed.

Lemma C10_witness :
  parseCommandLine new_parser (str "mail FROM:<a@b> SIZE=10")
  = Ok {| verb := str "mail"; domain := None; returnPath := None; forwardPath := None;
          params := [ParamObj [(str "FROM:<a@b>", PTrue)];
                     ParamObj [(str "SIZE", PStr (str "10"))]] |}.
Proof.
  destruct (C10_verb_dispatch_case_sensitive new_parser (str "mail FROM:<a@b> SIZE=10")
              (str "mail") [str "FROM:<a@b>"; str "SIZE=10"])
    as (ps & Hparse & Hparams).
  - repeat split; vm_compute; congruence.
  - vm_compute. reflexivity.
  - right. left. split; vm_compute; congruence.
  - rewrite Hparse.
    apply Forall2_cons_inv_l in Hparams as (p1 & ps1 & (Hflag & _ & _) & Hparams & ->).
    apply Forall2_cons_inv_l in Hparams as (p2 & ps2 & (_ & Hvalue & _) & Hparams & ->).
    apply Forall2_nil_inv_l in Hparams as ->.
    rewrite Hflag; [|repeat constructor; discriminate | discriminate].
    rewrite (Hvalue (str "SIZE") (str "10"));
      [reflexivity | reflexivity | repeat constructor; discriminate | discriminate
       | discriminate].
Defined.

(** C10 as stated fails: a line whose first token is [mail] and that is
    longer than the line limit is rejected like every other line of that
    length. *)
Lemma C10_counterexample :
  case_variant_of (str "mail") (str "MAIL")
  /\ hd_error (split_ws (trim (str "mail FROM:<a@b> " ++ replicate 600 "x"%char)))
     = Some (str "mail")
  /\ parseCommandLine new_parser (str "mail FROM:<a@b> " ++ replicate 600 "x"%char)
     = Throw CommandLineTooLong.
Proof.
  split; [split; vm_compute; congruence|]. split; vm_compute; reflexivity.
Qed.

End C10.

Section C5.
Import JS SMTPCmdLineParser.





End C5.

(** ** Replies *)

Section Replies.
Import JS SMTPReplyParser.

Lemma reduce_tail : forall l len idx c m acc,
  (0 < idx)%nat -> len = (idx + length l)%nat ->
  Forall (fun l => code l = c) l ->
  (l <> [] -> only_last_isLast l) ->
  reduce len idx (mkReply (Some c) (Some m) (Some acc)) l
  = Ok (mkReply (Some c) (Some m) (Some (acc ++ map message l))).
Proof.
  induction l as [|rl l IH]; intros len idx c m acc Hidx Hlen Hcode Hlast.
  - simpl. by rewrite app_nil_r.
  - inversion Hcode as [|? ? Hc Hcode']; subst. specialize (Hlast ltac:(done)).
    cbn [reduce]. unfold reduce_step. cbn [reply_code reply_message reply_lines].
    destruct (Nat.eqb_spec idx 0) as [->|_]; [lia|].
    cbn [reply_code reply_message reply_lines].
    destruct l as [|rl' l].
    + cbn [only_last_isLast] in Hlast. rewrite Hlast. cbn [length] in *.
      rewrite (proj2 (Z.eqb_eq _ _)) by lia.
      simpl. done.
    + destruct Hlast as [Hfalse Hlast]. rewrite Hfalse. cbn [length] in *.
      rewrite (proj2 (Z.eqb_neq _ _)) by lia.
      cbn [negb andb bind].
      rewrite (IH _ (S idx) (code rl) m (acc ++ [message rl])); try done; try lia.
      by rewrite <- app_assoc.
Qed.

Lemma parseReply_consistent this c x :
  consistent_reply c x ->
  parseReply this (InLines x)
  = Ok (mkReply (Some c) (hd_error (map message x)) (Some (map message x))).
Proof.
  intros [Hcode Hlast]. destruct x as [|rl l]; [done|].
  inversion Hcode as [|? ? Hc Hcode']; subst.
  unfold parseReply. cbn [bind reduce]. unfold reduce_step.
  cbn [reply_code reply_message reply_lines Nat.eqb].
  destruct l as [|rl' l].
  - cbn [only_last_isLast] in Hlast. rewrite Hlast. simpl. done.
  - destruct Hlast as [Hfalse Hlast]. rewrite Hfalse. cbn [length].
    rewrite (proj2 (Z.eqb_neq _ _)) by lia.
    cbn [negb andb bind].
    rewrite (reduce_tail (rl' :: l) _ 1 (code rl) (message rl) [message rl]);
      try done; lia.
Qed.

Lemma render_lines_wire this c : forall msgs len idx memo,
  len = (idx + length msgs)%nat ->
  Forall (line_fits this c) msgs ->
  render_lines this c len idx memo msgs
  = Ok (memo ++ wire_lines (Number_toString c) msgs).
Proof.
  induction msgs as [|m msgs IH]; intros len idx memo Hlen Hfit.
  - simpl. by rewrite app_nil_r.
  - inversion Hfit as [|? ? Hm Hfit']; subst. cbn [render_lines]. unfold render_line.
    unfold line_fits in Hm.
    match goal with |- context [Z.of_nat (length ?l) >? _] =>
      assert (Hl : Z.of_nat (length l) <= maxLineLength this)
    end.
    { rewrite !length_app. change (length CRLF) with 2%nat.
      destruct (Z.of_nat idx =? _);
        [change (length (str " ")) with 1%nat | change (length (str "-")) with 1%nat]; lia. }
    destruct (Z.gtb_spec (Z.of_nat (length
      (Number_toString c ++
         (if Z.of_nat idx =? Z.of_nat (idx + length (m :: msgs)) - 1 then str " " else str "-")
         ++ trim m ++ CRLF))) (maxLineLength this)); [lia|].
    cbn [bind]. destruct msgs as [|m' msgs].
    + cbn [length] in *.
      rewrite (proj2 (Z.eqb_eq _ _)) by lia.
      simpl. done.
    + rewrite (IH _ (S idx)); [|cbn [length]; lia|done]. cbn [length].
      rewrite (proj2 (Z.eqb_neq _ _)) by lia.
      cbn [wire_lines]. by rewrite <- !app_assoc.
Qed.

End Replies.

Section C7.
Import JS SMTPReplyParser.

(** C7 (amended): for a sequence of reply lines that forms one consistent
    multi-line reply, [parseReply] succeeds with the common code, the message
    of the first line and the messages of all lines in order (so as many
    [lines] as input lines); and, provided every line of the wire form is
    within maxLineLength, [serializeReply] of that reply is the wire form of
    the same lines with their messages trimmed: a hyphen after the code on
    all lines but the last, a space on the last. *)
Theorem C7_parseReply_serializeReply this c x :
  consistent_reply c x ->
  c <> 0 ->
  exists reply,
    parseReply this (InLines x) = Ok reply
    /\ reply_code reply = Some c
    /\ reply_message reply = hd_error (map message x)
    /\ reply_lines reply = Some (map message x)
    /\ length (map message x) = length x
    /\ (Forall (line_fits this c) (map message x) ->
        serializeReply this (Some reply)
        = (Ok (wire_lines (Number_toString c) (map message x)), Some reply)).
Proof.
  intros Hcons Hc. eexists. split; [by apply parseReply_consistent|].
  cbn [reply_code reply_message reply_lines].
  split; [done|]. split; [done|]. split; [done|]. split; [by rewrite length_map|].
  intros Hfit. unfold serializeReply. cbn [reply_code reply_message reply_lines].
  cbn [truthy_number]. rewrite (proj2 (Z.eqb_neq _ _)) by done. cbn [negb].
  destruct Hcons as [_ Hlast]. destruct x as [|rl x]; [done|].
  cbn [map hd_error truthy_string andb].
  assert (Hrender :
    render_lines this c (length (message rl :: map message x)) 0 []
      (message rl :: map message x)
    = Ok (wire_lines (Number_toString c) (message rl :: map message x))).
  { by rewrite (render_lines_wire this c _ _ 0 []). }
  destruct (message rl) as [|a m] eqn:Em.
  - cbn [reply_code reply_lines]. by rewrite Hrender.
  - cbn [reply_code reply_lines set_first]. by rewrite Hrender.
Qed.

Lemma C7_witness :
  let x := [mkReplyLine 250 false (str "BEGIN"); mkReplyLine 250 true (str " END")] in
  exists reply,
    parseReply new_parser (InLines x) = Ok reply
    /\ reply_lines reply = Some [str "BEGIN"; str " END"]
    /\ serializeReply new_parser (Some reply)
       = (Ok (str "250-BEGIN" ++ CRLF ++ str "250 END" ++ CRLF), Some reply).
Proof.
  intros x.
  assert (Hcons : consistent_reply 250 x).
  { split; [repeat constructor | simpl; split; reflexivity]. }
  assert (Hcode : 250 <> 0) by discriminate.
  destruct (C7_parseReply_serializeReply new_parser 250 x Hcons Hcode)
    as (reply & Hparse & _ & _ & Hlines & _ & Hserialize).
  exists reply. split; [exact Hparse|]. split; [exact Hlines|].
  apply Hserialize. repeat constructor; vm_compute; discriminate.
Defined.

(** C7 as stated fails: the reply of one consistent line parses, and
    [serializeReply] throws because the rendered line has 514 characters. *)
Lemma C7_counterexample :
  consistent_reply 250 [long_reply_line]
  /\ exists reply,
       parseReply new_parser (InLines [long_reply_line]) = Ok reply
       /\ serializeReply new_parser (Some reply) = (Throw ReplyLineLimit, Some reply).
Proof.
  split.
  - split; [repeat constructor | reflexivity].
  - eexists. split; vm_compute; reflexivity.
Qed.

End C7.

Section C9.
Import JS SMTPReplyParser.

(** C9: [serializeReply] writes to the object it is given.  For a reply with
    a code and a non-empty message, whether the call returns or throws, the
    object afterwards has a [lines] array (created when it was absent) whose
    first element is the message, followed by the elements that came after
    the first before the call; code and message are as before; so the
    object has changed unless its first line was the message already. *)
Theorem C9_serializeReply_mutates this reply m :
  truthy_number (reply_code reply) = true ->
  reply_message reply = Some m ->
  m <> [] ->
  let before := match reply_lines reply with Some ls => ls | None => [] end in
  (serializeReply this (Some reply)).2
  = Some {| reply_code := reply_code reply;
            reply_message := Some m;
            reply_lines := Some (m :: tl before) |}
  /\ (reply_lines reply <> Some (m :: tl before) ->
      (serializeReply this (Some reply)).2 <> Some reply).
Proof.
  intros Hcode Hmsg Hm before.
  assert (Hafter : (serializeReply this (Some reply)).2
                   = Some {| reply_code := reply_code reply;
                             reply_message := Some m;
                             reply_lines := Some (m :: tl before) |}).
  { unfold serializeReply. rewrite Hcode, Hmsg. cbn [negb truthy_string].
    destruct m as [|a m]; [done|]. rewrite andb_false_r. cbn [snd].
    subst before. by destruct (reply_lines reply) as [[|l ls]|]. }
  split; [done|]. rewrite Hafter. intros Hne [= Heq]. apply Hne.
  rewrite <- Heq. done.
Qed.

Lemma C9_witness :
  (serializeReply new_parser
     (Some (mkReply (Some 250) (Some (str "BEGIN")) (Some [str "ERROR"; str "END"])))).2
  = Some (mkReply (Some 250) (Some (str "BEGIN")) (Some [str "BEGIN"; str "END"]))
  /\ (serializeReply new_parser (Some (mkReply (Some 250) (Some (str "OK")) None))).2
     = Some (mkReply (Some 250) (Some (str "OK")) (Some [str "OK"])).
Proof.
  split.
  - apply (C9_serializeReply_mutates new_parser
             (mkReply (Some 250) (Some (str "BEGIN")) (Some [str "ERROR"; str "END"]))
             (str "BEGIN")); [reflexivity | reflexivity | discriminate].
  - apply (C9_serializeReply_mutates new_parser
             (mkReply (Some 250) (Some (str "OK")) None) (str "OK"));
      [reflexivity | reflexivity | discriminate].
Defined.

(** C9 as stated fails: for a reply with a message and without a code,
    [serializeReply] throws before it writes, and the object is as it
    was. *)
Lemma C9_counterexample :
  serializeReply new_parser (Some (mkReply None (Some (str "OK")) None))
  = (Throw SerializeReplyNeedsCode, Some (mkReply None (Some (str "OK")) None)).
Proof. reflexivity. Qed.

End C9.

Section C4.
Import JS SMTPReplyParser.

Lemma parseReplyLine_not_overhead this input :
  parseReplyLine this input <> Throw ReplyOverhead.
Proof.
  unfold parseReplyLine. destruct input; [done|].
  repeat match goal with
         | |- context [if ?b then _ else _] => destruct b; try done
         end.
  destruct (exec_reply_line _) as [[[? ?] ?]|]; done.
Qed.

Lemma reduce_not_overhead l : forall len idx memo,
  reduce len idx memo l <> Throw ReplyOverhead.
Proof.
  induction l as [|rl l IH]; intros len idx memo; [done|]. cbn [reduce].
  destruct (reduce_step len idx memo rl) as [memo'|e] eqn:E; [apply IH|].
  unfold reduce_step in E. cbn [bind].
  repeat match type of E with
         | context [if ?b then _ else _] => destruct b; try done
         end; by injection E as <-.
Qed.

Lemma parseReply_lines_not_overhead this l :
  parseReply this (InLines l) <> Throw ReplyOverhead.
Proof. unfold parseReply. destruct l; [done|]. apply reduce_not_overhead. Qed.

Lemma cleanup_not_overhead st r :
  promise st <> Rejected ReplyOverhead -> r <> Throw ReplyOverhead ->
  promise (cleanup st r) <> Rejected ReplyOverhead.
Proof.
  intros Hst Hr. unfold cleanup. cbn [promise].
  destruct (promise st); [|done|done]. destruct r as [|e]; [done|]. congruence.
Qed.

Ltac apply_IH IH :=
  match goal with
  | |- context [onData_loop _ ?s _] =>
      let H1 := fresh in let H2 := fresh in
      destruct (IH s) as [H1 H2]; split; [exact H1 | exact H2]
  end.

(** An exception that leaves the ['data'] listener is the overhead error,
    and it leaves the promise and the listeners as they were; and no call of
    the listener rejects the promise with that error. *)
Lemma onData_loop_overhead this rest : forall st,
  (forall st' e, onData_loop this st rest = (st', Some e) ->
     e = ReplyOverhead /\ promise st' = promise st /\ listening st' = listening st)
  /\ (promise st <> Rejected ReplyOverhead ->
      promise (onData_loop this st rest).1 <> Rejected ReplyOverhead).
Proof.
  induction rest as [|currChar rest IH]; intros st; cbn [onData_loop].
  - split; [by intros st' e [= <- ?]|done].
  - destruct (Z.of_nat (lineLength st) >=? maxLineLength this).
    { split; [done|]. intros H. by apply cleanup_not_overhead. }
    destruct (currChar =? 10); [|apply_IH IH].
    cbn [currentLine lineLength replyLines promise listening timer_set].
    destruct (parseReplyLine this _) as [replyLine|e] eqn:Eline.
    + destruct (isLast replyLine).
      * destruct rest as [|b rest].
        -- split; [done|]. intros H. apply cleanup_not_overhead; [done|].
           apply parseReply_lines_not_overhead.
        -- split; [|done]. by intros st' e [= <- <-].
      * apply_IH IH.
    + split; [done|]. intros H. apply cleanup_not_overhead; [done|].
      intros [= ->]. by apply (parseReplyLine_not_overhead this) in Eline.
Qed.

(** C4 (the code at the failing input and in general): when a chunk holds
    bytes after the final reply line, the ['data'] listener throws the
    overhead error; the promise of [parse] stays pending, the listeners stay
    registered, and nothing ever rejects the promise with that error. *)
Theorem C4_overhead_thrown_promise_pending :
  (exists st, onData new_parser (parse new_parser) reply_with_overhead = (st, Some ReplyOverhead)
              /\ promise st = Pending /\ listening st = true)
  /\ (forall this st chunk st' e,
        onData this st chunk = (st', Some e) ->
        e = ReplyOverhead /\ promise st' = promise st /\ listening st' = listening st)
  /\ (forall this chunks,
        promise (fold_left (fun st chunk => (onData this st chunk).1) chunks (parse this))
        <> Rejected ReplyOverhead).
Proof.
  split; [|split].
  - eexists. split; [vm_compute; reflexivity|]. split; reflexivity.
  - intros this st chunk st' e. unfold onData.
    destruct (listening st) eqn:El; [|done]. rewrite <- El.
    apply (proj1 (onData_loop_overhead this chunk st)).
  - intros this chunks.
    assert (H : promise (parse this) <> Rejected ReplyOverhead) by done.
    revert H. generalize (parse this).
    induction chunks as [|chunk chunks IH]; intros st Hst; [done|].
    cbn [fold_left]. apply IH. unfold onData. destruct (listening st); [|done].
    by apply (proj2 (onData_loop_overhead this chunk st)).
Qed.

Lemma C4_witness :
  exists st, onData new_parser (parse new_parser) reply_with_overhead = (st, Some ReplyOverhead)
             /\ promise st = promise (parse new_parser).
Proof.
  destruct C4_overhead_thrown_promise_pending as ((st & Hst & _) & Hgeneral & _).
  exists st. split; [exact Hst|].
  apply (Hgeneral new_parser (parse new_parser) reply_with_overhead st ReplyOverhead Hst).
Defined.

End C4.

(** ** The session *)

Section SessionRuns.
Import SMTPClientSession.

Lemma called_listeners_app e1 e2 :
  called_listeners (e1 ++ e2) = called_listeners e1 ++ called_listeners e2.
Proof.
  induction e1 as [|[] e1 IH]; simpl; [done| |done|done|done]. by rewrite IH.
Qed.

Lemma ready_count_app e1 e2 :
  ready_count (e1 ++ e2) = (ready_count e1 + ready_count e2)%nat.
Proof. induction e1 as [|[] e1 IH]; simpl; try done. by rewrite IH. Qed.

Lemma successes_app e1 e2 : successes (e1 ++ e2) = (successes e1 + successes e2)%nat.
Proof. induction e1 as [|ev e1 IH]; simpl; [done|]. rewrite IH. lia. Qed.

Lemma try_close_effects scope this b :
  forall this' effects, try_close scope this b = (this', effects) ->
  ended (state this') = ended (state this) /\ called_listeners effects = []
  /\ ready_count effects = 0%nat.
Proof.
  intros this' effects. unfold try_close.
  destruct (resolve scope "self"); intros [= <- <-]; done.
Qed.

(** [abort] and [end]: the session is ended afterwards; no listener of a
    checkpoint is called and [onReady] is not called. *)
Lemma abort_effects this err :
  ended (state (abort this err).1) = true
  /\ called_listeners (abort this err).2 = []
  /\ ready_count (abort this err).2 = 0%nat.
Proof.
  unfold abort. destruct (ended (state this)) eqn:E; [done|].
  destruct (connected (state (set_ended this (Some err)))); [|done].
  unfold try_close. by destruct (resolve module_scope "self").
Qed.

Lemma end_effects this :
  ended (state (end_ this).1) = true
  /\ called_listeners (end_ this).2 = []
  /\ ready_count (end_ this).2 = 0%nat.
Proof.
  unfold end_. destruct (ended (state this)) eqn:E; [done|].
  destruct (connected (state (set_ended this (error (state this))))); [|done].
  unfold try_close. by destruct (resolve module_scope "self").
Qed.

Ltac use_abort_effects :=
  match goal with
  | |- context [abort ?this ?e] =>
      let H1 := fresh in let H2 := fresh in let H3 := fresh in
      pose proof (abort_effects this e) as (H1 & H2 & H3);
      destruct (abort this e) as [? ?]; cbn [fst snd] in H1, H2, H3;
      rewrite H2, H3
  end.

(** What one event does to a waiting checkpoint. *)
Lemma step_facts this cp ev :
  let '(this', effects, cp') := step this cp ev in
  called_listeners effects ++ queue cp' = queue cp
  /\ (length (called_listeners effects) <= (if is_success ev then 1 else 0))%nat
  /\ (ready_count effects <= (if timer cp then 1 else 0))%nat
  /\ (ready_count effects = 1%nat -> timer cp' = false /\ queue cp = [] /\ is_success ev = true)
  /\ (timer cp' = true -> timer cp = true)
  /\ (ended (state this) = true -> ended (state this') = true /\ ready_count effects = 0%nat)
  /\ ((timer cp = false -> ended (state this) = true) ->
      ready_count effects = 0%nat ->
      (timer cp' = false -> ended (state this') = true))
  /\ (is_success ev = false -> (timer cp = false -> ended (state this) = true) ->
      ev <> TimerFired -> ev <> EndCalled -> ended (state this') = true).
Proof.
  destruct ev as [[err|]| |]; cbn [step]; unfold callback, on_timeout.
  - destruct (timer cp) eqn:Et; cbn [negb];
      [destruct (ended (state this)) eqn:Ee; [|use_abort_effects]|];
      cbn [queue timer scheduled eventName called_listeners ready_count app length is_success];
      repeat split; intros; try done; try lia; try congruence; auto.
  - destruct (timer cp) eqn:Et; cbn [negb];
      [destruct (ended (state this)) eqn:Ee; [|destruct (queue cp) as [|o rest] eqn:Eq]|];
      cbn [queue timer scheduled eventName called_listeners ready_count app length is_success];
      repeat split; intros; try done; try lia; try congruence; auto.
  - destruct (scheduled cp); [use_abort_effects|];
      cbn [queue timer scheduled eventName called_listeners ready_count app length is_success];
      repeat split; intros; try done; try lia; try congruence; auto.
  - pose proof (end_effects this) as (H1 & H2 & H3).
    destruct (end_ this) as [this' effects]. cbn [fst snd] in H1, H2, H3. rewrite H2, H3.
    cbn [queue timer scheduled eventName called_listeners ready_count app length is_success];
      repeat split; intros; try done; try lia; try congruence; auto.
Qed.

End SessionRuns.

Section Checkpoints.
Import SMTPClientSession.

Lemma steps_facts evs : forall this cp,
  let '(this', effects, cp') := steps this cp evs in
  called_listeners effects ++ queue cp' = queue cp
  /\ (length (called_listeners effects) <= successes evs)%nat
  /\ (ready_count effects <= (if timer cp then 1 else 0))%nat
  /\ (ended (state this) = true -> ended (state this') = true /\ ready_count effects = 0%nat)
  /\ ((timer cp = false -> ended (state this) = true) ->
      (successes evs <= length (queue cp))%nat ->
      ready_count effects = 0%nat /\ (timer cp' = false -> ended (state this') = true)).
Proof.
  induction evs as [|ev evs IH]; intros this cp; cbn [steps successes].
  - cbn [called_listeners ready_count app length]. repeat split; try done; try lia.
    all: by destruct (timer cp).
  - pose proof (step_facts this cp ev) as Hstep.
    destruct (step this cp ev) as [[this1 e1] cp1].
    destruct Hstep as (Hq & Hlen & Hready & Hdone & Htimer & Hended & Hinv & _).
    specialize (IH this1 cp1). destruct (steps this1 cp1 evs) as [[this2 e2] cp2].
    destruct IH as (IHq & IHlen & IHready & IHended & IHinv).
    rewrite called_listeners_app, ready_count_app, length_app.
    split; [by rewrite <- Hq, <- IHq, app_assoc|]. split; [lia|]. split; [|split].
    + destruct (timer cp) eqn:Et.
      * destruct (ready_count e1) as [|[|n]] eqn:Er; [| |lia].
        -- destruct (timer cp1); lia.
        -- destruct (Hdone eq_refl) as (Hoff & _). rewrite Hoff in IHready. lia.
      * assert (Hoff : timer cp1 = false).
        { destruct (timer cp1); [|done]. specialize (Htimer eq_refl). congruence. }
        rewrite Hoff in IHready. lia.
    + intros He. destruct (Hended He) as [He1 Hr1]. destruct (IHended He1) as [He2 Hr2].
      split; [done | lia].
    + intros Hpre Hsucc. rewrite <- Hq, length_app in Hsucc.
      assert (Hr1 : ready_count e1 = 0%nat).
      { destruct (ready_count e1) as [|[|n]] eqn:Er; [done| |destruct (timer cp); lia].
        destruct (Hdone eq_refl) as (_ & Hnil & Hsuccess).
        rewrite Hnil in Hq. apply app_eq_nil in Hq as [Hc Hq1].
        rewrite Hc, Hq1, Hsuccess in Hsucc. cbn [length] in Hsucc. lia. }
      destruct (IHinv (Hinv Hpre Hr1) ltac:(lia)) as [Hr2 Hinv2].
      split; [lia | done].
Qed.

(** After the timer variable was cleared, callbacks do nothing. *)
Lemma steps_callbacks_ignored k this cp :
  timer cp = false ->
  steps this cp (replicate k (CallbackInvoked None)) = (this, [], cp).
Proof.
  intros Hoff. induction k as [|k IH]; [done|]. cbn [replicate steps step].
  unfold callback. rewrite Hoff. cbn [negb]. by rewrite IH.
Qed.

(** Successful callbacks on a session that has not ended walk through the
    queue and end with [onReady]. *)
Lemma steps_all_succeed name q : forall k this cp,
  ended (state this) = false -> timer cp = true -> queue cp = q -> eventName cp = name ->
  (length q < k)%nat ->
  exists cp', steps this cp (replicate k (CallbackInvoked None))
              = (this, map (fun o => Called o name) q ++ [OnReady], cp').
Proof.
  induction q as [|o q IH]; intros k this cp He Ht Hq Hn Hk.
  - destruct k as [|k]; [cbn [length] in Hk; lia|]. cbn [replicate steps step].
    unfold callback. rewrite Ht, He, Hq. cbn [negb].
    rewrite steps_callbacks_ignored by done. eauto.
  - destruct k as [|k]; [cbn [length] in Hk; lia|]. cbn [replicate steps step].
    unfold callback. rewrite Ht, He, Hq, Hn. cbn [negb].
    edestruct (IH k this) as [cp' Hsteps]; [done | | | | | rewrite Hsteps; eauto];
      cbn [timer queue eventName length] in *; try done; lia.
Qed.

(** On an ended session whose timer was cleared nothing happens any more. *)
Lemma steps_after_end evs : forall this cp,
  ended (state this) = true -> scheduled cp = false ->
  exists cp', steps this cp evs = (this, [], cp') /\ scheduled cp' = false.
Proof.
  induction evs as [|ev evs IH]; intros this cp He Hs; [by exists cp|].
  cbn [steps]. destruct ev as [err| |]; cbn [step].
  - unfold callback. destruct (timer cp); cbn [negb]; rewrite ?He.
    + destruct (IH this {| eventName := eventName cp; queue := queue cp;
                           timer := false; scheduled := false |} He eq_refl)
        as (cp' & -> & Hs'). by exists cp'.
    + destruct (IH this cp He Hs) as (cp' & -> & Hs'). by exists cp'.
  - unfold on_timeout. rewrite Hs.
    destruct (IH this cp He Hs) as (cp' & -> & Hs'). by exists cp'.
  - unfold end_. rewrite He.
    destruct (IH this cp He Hs) as (cp' & -> & Hs'). by exists cp'.
Qed.

Lemma abort_not_ended this err :
  ended (state this) = false ->
  abort this err = (set_ended this (Some err), [Emitted "error"]).
Proof.
  intros He. unfold abort. rewrite He.
  by destruct (connected (state (set_ended this (Some err)))).
Qed.

(** [k] callbacks without error, fewer than there are listeners, and then a
    callback with an error: the listeners up to the one that raised the veto
    were called, the session was aborted with the veto and 'error' was
    emitted. *)
Lemma steps_veto name q : forall k this cp err post,
  ended (state this) = false -> timer cp = true -> queue cp = q -> eventName cp = name ->
  (k <= length q)%nat ->
  exists cp',
    steps this cp (replicate k (CallbackInvoked None) ++ CallbackInvoked (Some err) :: post)
    = (set_ended this (Some (VetoRaised name err)),
       map (fun o => Called o name) (take k q) ++ [Emitted "error"], cp').
Proof.
  assert (Hveto : forall this cp err post,
            ended (state this) = false -> timer cp = true -> eventName cp = name ->
            exists cp', steps this cp (CallbackInvoked (Some err) :: post)
                        = (set_ended this (Some (VetoRaised name err)), [Emitted "error"], cp')).
  { intros this cp err post He Ht Hn. cbn [steps step]. unfold callback.
    rewrite Ht, He. cbn [negb eventName]. rewrite Hn, (abort_not_ended _ _ He).
    edestruct (steps_after_end post (set_ended this (Some (VetoRaised name err))))
      as (cp' & -> & _); [done | | by exists cp']. done. }
  induction q as [|o q IH]; intros k this cp err post He Ht Hq Hn Hk.
  - assert (k = 0%nat) as -> by (cbn [length] in Hk; lia).
    cbn [replicate app take map]. by apply Hveto.
  - destruct k as [|k].
    + cbn [replicate app take map]. by apply Hveto.
    + cbn [replicate app steps step take map]. unfold callback at 1.
      rewrite Ht, He, Hq, Hn. cbn [negb].
      edestruct (IH k this) as [cp' ->]; [done | | | | | by exists cp'];
        cbn [timer queue eventName length] in *; try done; lia.
Qed.

End Checkpoints.

Section C2.
Import SMTPClientSession.

(** C2 (amended): at a 'connect', 'command' or 'reply' checkpoint,
    - without listeners [onReady] is called at once;
    - the listeners are called in the order of their registration, one for
      the emit and one more for each callback without error at most, and
      [onReady] is called at most once;
    - when the session has not ended and the callbacks arrive without error,
      before the timer fires and before anything ends the session, all the
      listeners are called in order and then [onReady], exactly once;
    - when a listener calls back with an error before the chain is complete,
      the session is ended and [onReady] is never called. *)
Theorem C2_checkpoint_protocol this name evs :
  is_checkpoint name = true ->
  let ls := listeners this name in
  let run := checkpoint_run this name evs in
  (ls = [] -> run = (this, [OnReady]))
  /\ (called_listeners run.2 `prefix_of` ls
      /\ (length (called_listeners run.2) <= 1 + successes evs)%nat
      /\ (ready_count run.2 <= 1)%nat)
  /\ (ended (state this) = false ->
      (exists k, evs = replicate k (CallbackInvoked None) /\ (length ls <= k)%nat) ->
      run = (this, map (fun o => Called o name) ls ++ [OnReady]))
  /\ (forall pre err post,
        ls <> [] ->
        evs = pre ++ CallbackInvoked (Some err) :: post ->
        (successes pre < length ls)%nat ->
        ended (state run.1) = true /\ ready_count run.2 = 0%nat)
  /\ (forall k err post,
        ended (state this) = false ->
        evs = replicate k (CallbackInvoked None) ++ CallbackInvoked (Some err) :: post ->
        (k < length ls)%nat ->
        run = (set_ended this (Some (VetoRaised name err)),
               map (fun o => Called o name) (take (S k) ls) ++ [Emitted "error"])).
Proof.
  intros Hcp ls run. subst run ls. unfold checkpoint_run, emit. rewrite Hcp.
  destruct (listeners this name) as [|first rest] eqn:Els.
  - split; [done|]. split; [|split; [|split]].
    + cbn. split; [by exists []|lia].
    + intros _ _. done.
    + intros pre err post Hne. done.
    + intros k err post _ _ Hk. cbn [length] in Hk. lia.
  - set (cp := {| eventName := name; queue := rest; timer := true; scheduled := true |}).
    split; [done|]. split; [|split; [|split]].
    + pose proof (steps_facts evs this cp) as Hf.
      destruct (steps this cp evs) as [[this' effects] cp'].
      destruct Hf as (Hq & Hlen & Hready & _). cbn [snd called_listeners ready_count app].
      split; [|split].
      * exists (queue cp'). cbn [queue cp] in Hq. by rewrite <- Hq.
      * cbn [length]. lia.
      * cbn [timer cp] in Hready. lia.
    + intros He (k & -> & Hk). cbn [length] in Hk.
      destruct (steps_all_succeed name rest k this cp He eq_refl eq_refl eq_refl ltac:(lia))
        as [cp' ->]. done.
    + intros pre err post _ -> Hpre. cbn [length] in Hpre.
      pose proof (steps_facts pre this cp) as Hf1.
      assert (Happ : forall e1 e2 s c,
                steps s c (e1 ++ e2) =
                let '(s1, x1, c1) := steps s c e1 in
                let '(s2, x2, c2) := steps s1 c1 e2 in (s2, x1 ++ x2, c2)).
      { induction e1 as [|ev e1 IH]; intros e2 s c; cbn [steps app].
        - by destruct (steps s c e2) as [[? ?] ?].
        - destruct (step s c ev) as [[s1 x1] c1]. rewrite IH.
          destruct (steps s1 c1 e1) as [[s2 x2] c2].
          destruct (steps s2 c2 e2) as [[s3 x3] c3]. by rewrite app_assoc. }
      rewrite Happ. destruct (steps this cp pre) as [[this1 e1] cp1].
      destruct Hf1 as (_ & _ & _ & _ & Hinv).
      destruct (Hinv ltac:(done) ltac:(cbn [queue cp]; lia)) as [Hr1 Hinv1].
      cbn [steps].
      pose proof (step_facts this1 cp1 (CallbackInvoked (Some err)))
        as Hstep.
      destruct (step this1 cp1 (CallbackInvoked (Some err))) as [[this2 e2] cp2].
      destruct Hstep as (_ & _ & Hr2 & Hdone & _ & _ & _ & Hveto).
      assert (He2 : ended (state this2) = true) by (by apply Hveto).
      assert (Hr2' : ready_count e2 = 0%nat).
      { destruct (ready_count e2) as [|[|n]] eqn:Er; [done| |destruct (timer cp1); lia].
        by destruct (Hdone eq_refl) as (_ & _ & ?). }
      pose proof (steps_facts post this2 cp2) as Hf3.
      destruct (steps this2 cp2 post) as [[this3 e3] cp3].
      destruct Hf3 as (_ & _ & _ & Hended & _). destruct (Hended He2) as [He3 Hr3].
      cbn [fst snd]. split; [done|].
      rewrite !ready_count_app. cbn [ready_count]. lia.
    + intros k err post He -> Hk. cbn [length] in Hk.
      destruct (steps_veto name rest k this cp err post He eq_refl eq_refl eq_refl ltac:(lia))
        as [cp' ->]. done.
Qed.

End C2.

Section SessionExamples.
Import SMTPClientSession.

Lemma C2_witness :
  checkpoint_run (three_listeners true false) "command" (replicate 3 (CallbackInvoked None))
    = (three_listeners true false,
       [Called 1 "command"; Called 2 "command"; Called 3 "command"; OnReady])
  /\ checkpoint_run (three_listeners true false) "command"
       [CallbackInvoked None; CallbackInvoked (Some (ListenerError 0));
        CallbackInvoked None; CallbackInvoked None]
     = (set_ended (three_listeners true false)
          (Some (VetoRaised "command" (ListenerError 0))),
        [Called 1 "command"; Called 2 "command"; Emitted "error"]).
Proof.
  split.
  - destruct (C2_checkpoint_protocol (three_listeners true false) "command"
                (replicate 3 (CallbackInvoked None)) eq_refl) as (_ & _ & Hall & _).
    apply Hall.
    + reflexivity.
    + exists 3%nat. split; [reflexivity | vm_compute; lia].
  - destruct (C2_checkpoint_protocol (three_listeners true false) "command"
                [CallbackInvoked None; CallbackInvoked (Some (ListenerError 0));
                 CallbackInvoked None; CallbackInvoked None] eq_refl)
      as (_ & _ & _ & _ & Hveto).
    apply (Hveto 1%nat (ListenerError 0) [CallbackInvoked None; CallbackInvoked None]).
    + reflexivity.
    + reflexivity.
    + vm_compute. lia.
Defined.

(** C2 as stated fails: on a session that has ended, and on a session whose
    checkpoint timer fired first, the only listener calls back without an
    error and [onReady] is never called. *)
Lemma C2_counterexample :
  checkpoint_run (one_listener true) "command" [CallbackInvoked None]
    = (one_listener true, [Called 7 "command"])
  /\ (checkpoint_run (one_listener false) "command" [TimerFired; CallbackInvoked None]).2
     = [Called 7 "command"; Emitted "error"].
Proof. split; vm_compute; reflexivity. Qed.

End SessionExamples.

Section C3.
Import SMTPClientSession.

(** C3 (what [end] does): a call on an ended session changes nothing and
    emits nothing; otherwise the session is marked as ended and 'end' is
    emitted; but the client is never closed and [connected] stays as it
    was, because the block that closes the client stops at the identifier
    [self], which the function does not bind. *)
Theorem C3_end_never_closes_client this :
  (ended (state this) = true -> end_ this = (this, []))
  /\ (ended (state this) = false ->
      end_ this = (set_ended this (error (state this)), [Emitted "end"]))
  /\ (ClientClosed ∉ snd (end_ this))
  /\ connected (state (fst (end_ this))) = connected (state this).
Proof.
  unfold end_. destruct (ended (state this)) eqn:E.
  - repeat split; try done. apply not_elem_of_nil.
  - assert (Hclose : forall s b, try_close module_scope s b = (s, [])) by done.
    destruct (connected (state (set_ended this (error (state this))))) eqn:Ec;
      rewrite ?Hclose; cbn [emit is_checkpoint app fst snd];
      (split; [done|]); (split; [done|]); (split; [|done]);
      intros Hin; apply list_elem_of_singleton in Hin; discriminate Hin.
Qed.

Lemma C3_witness :
  end_ (three_listeners true false)
  = ({| state := {| stage := ""; connected := true; ended := true; error := None |};
        listeners := listeners (three_listeners true false) |},
     [Emitted "end"])
  /\ end_ (three_listeners true true) = (three_listeners true true, []).
Proof.
  destruct (C3_end_never_closes_client (three_listeners true false)) as (_ & H & _).
  destruct (C3_end_never_closes_client (three_listeners true true)) as (H' & _).
  split; [apply H | apply H']; reflexivity.
Defined.

End C3.

(** ** The DATA codec *)

Section EncoderStream.
Import Bytes DotEncoder.

Lemma enc_stream_app lc a b :
  enc_stream lc (a ++ b) = enc_stream lc a ++ enc_stream (last_char lc a) b.
Proof.
  revert lc. induction a as [|c a IH]; intros lc; simpl; [done|].
  by rewrite IH, app_assoc.
Qed.

Lemma last_char_app lc a b : last_char lc (a ++ b) = last_char (last_char lc a) b.
Proof. revert lc. induction a as [|c a IH]; intros lc; simpl; [done|]. apply IH. Qed.

Lemma write2Buffer_emitted this c :
  enc_inv this ->
  exists this', write2Buffer this c = Ok this'
    /\ enc_inv this' /\ emitted this' = emitted this ++ [c] /\ lastChar this' = c.
Proof.
  intros [Hlen Hsize]. unfold write2Buffer, writeUInt8.
  rewrite Hlen. destruct (Z.leb_spec 0 (bufferSize this)); [|lia].
  destruct (Z.ltb_spec (bufferSize this) (Z.of_nat 1024)); [|lia]. cbn [andb bind].
  cbn [buffer bufferSize lastChar pushed]. rewrite length_insert, Hlen.
  set (n := Z.to_nat (bufferSize this)).
  assert (Hn : (n < length (buffer this))%nat) by lia.
  assert (Htake : take (S n) (<[n:=c]> (buffer this)) = take n (buffer this) ++ [c]).
  { rewrite (take_S_r _ _ c) by (by apply list_lookup_insert_eq).
    by rewrite take_insert_ge. }
  destruct (Z.eqb_spec (bufferSize this + 1) (Z.of_nat 1024)) as [Hfull|Hroom].
  - eexists. split; [done|]. unfold enc_inv, emitted, push.
    cbn [buffer bufferSize lastChar pushed]. rewrite length_insert.
    split; [split; [done | lia]|]. split; [|done].
    rewrite concat_app. cbn [concat take Z.to_nat]. rewrite !app_nil_r, <- app_assoc.
    f_equal. fold n. rewrite <- Htake. rewrite take_ge; [done|]. rewrite length_insert. lia.
  - eexists. split; [done|]. unfold enc_inv, emitted.
    cbn [buffer bufferSize lastChar pushed]. rewrite length_insert.
    split; [split; [done | lia]|]. split; [|done].
    replace (Z.to_nat (bufferSize this + 1)) with (S n) by lia.
    fold n. by rewrite Htake, app_assoc.
Qed.

(** One pass through the loop body: either the byte is done, or an LF was
    written after a bare CR and the next pass at the same byte is done. *)
Lemma loop_body_emitted this c :
  enc_inv this ->
  exists this' adv, loop_body this c = Ok (this', adv)
    /\ enc_inv this'
    /\ (if adv
        then emitted this' = emitted this ++ enc_step (lastChar this) c /\ lastChar this' = c
        else emitted this' = emitted this ++ [LF] /\ lastChar this' = LF
             /\ enc_step (lastChar this) c = LF :: enc_step LF c
             /\ (c =? LF) = false).
Proof.
  intros Hinv. unfold loop_body, enc_step.
  destruct (((lastChar this =? 0) || (lastChar this =? LF)) && (c =? DOT)) eqn:Hstuff.
  - apply andb_prop in Hstuff as [Hlc Hc]. rewrite Hlc, Hc. cbn [bind].
    destruct (write2Buffer_emitted this DOT Hinv) as (t1 & -> & Hi1 & He1 & Hl1). cbn [bind].
    rewrite Hl1. apply Z.eqb_eq in Hc as ->.
    change (negb (DOT =? LF) && (DOT =? CR)) with false.
    change ((DOT =? LF) && negb (DOT =? CR)) with false. cbn iota. cbn [bind].
    destruct (write2Buffer_emitted t1 DOT Hi1) as (t2 & -> & Hi2 & He2 & Hl2). cbn [bind].
    exists t2, true. split; [done|]. split; [done|]. split; [|done].
    by rewrite He2, He1, <- app_assoc.
  - assert (Hpre : (if (lastChar this =? 0) || (lastChar this =? LF)
                    then if c =? DOT then write2Buffer this DOT else Ok this
                    else Ok this) = Ok this).
    { destruct ((lastChar this =? 0) || (lastChar this =? LF)); [|done].
      cbn [andb] in Hstuff. by rewrite Hstuff. }
    rewrite Hpre. cbn [bind].
    destruct (negb (c =? LF) && (lastChar this =? CR)) eqn:Hbare.
    + apply andb_prop in Hbare as [Hc Hlc]. apply negb_true_iff in Hc.
      destruct (write2Buffer_emitted this LF Hinv) as (t1 & -> & Hi1 & He1 & Hl1).
      cbn [bind]. exists t1, false. split; [done|]. split; [done|].
      split; [done|]. split; [done|]. split; [|done].
      change ((LF =? 0) || (LF =? LF)) with true. cbn [andb]. rewrite Hc.
      change (LF =? CR) with false. cbn [negb andb]. by destruct (c =? DOT).
    + destruct ((c =? LF) && negb (lastChar this =? CR)) eqn:Hlf.
      * destruct (write2Buffer_emitted this CR Hinv) as (t1 & -> & Hi1 & He1 & Hl1).
        cbn [bind].
        destruct (write2Buffer_emitted t1 c Hi1) as (t2 & -> & Hi2 & He2 & Hl2).
        cbn [bind]. exists t2, true. split; [done|]. split; [done|]. split; [|done].
        apply andb_prop in Hlf as [Hc _]. apply Z.eqb_eq in Hc as ->.
        by rewrite He2, He1, <- app_assoc.
      * cbn [bind].
        destruct (write2Buffer_emitted this c Hinv) as (t1 & -> & Hi1 & He1 & Hl1).
        cbn [bind]. exists t1, true. done.
Qed.

Lemma enc_loop_cons fuel this c rest :
  loop (S fuel) this (c :: rest)
  = match loop_body this c with
    | Throw e => Some (Throw e)
    | Ok (this, true) => loop fuel this rest
    | Ok (this, false) => loop fuel this (c :: rest)
    end.
Proof. reflexivity. Qed.

(** Two passes per byte are enough fuel, and the loop writes the stream. *)
Lemma loop_emitted rest : forall fuel this,
  enc_inv this -> (2 * length rest <= fuel)%nat ->
  exists this', loop fuel this rest = Some (Ok this')
    /\ enc_inv this'
    /\ emitted this' = emitted this ++ enc_stream (lastChar this) rest
    /\ lastChar this' = last_char (lastChar this) rest.
Proof.
  induction rest as [|c rest IH]; intros fuel this Hinv Hfuel.
  - exists this. destruct fuel; cbn [loop enc_stream last_char]; by rewrite app_nil_r.
  - cbn [length] in Hfuel. destruct fuel as [|[|fuel]]; [lia | lia |].
    rewrite enc_loop_cons. cbn [enc_stream last_char].
    destruct (loop_body_emitted this c Hinv) as (t1 & adv & -> & Hi1 & Hadv).
    destruct adv.
    + destruct Hadv as [He1 Hl1].
      destruct (IH (S fuel) t1 Hi1 ltac:(lia)) as (t2 & -> & Hi2 & He2 & Hl2).
      exists t2. split; [done|]. split; [done|]. rewrite He2, He1, Hl2, Hl1.
      by rewrite <- app_assoc.
    + destruct Hadv as (He1 & Hl1 & Hstep & Hc).
      destruct (loop_body_emitted t1 c Hi1) as (t2 & adv & Hbody & Hi2 & Hadv).
      rewrite enc_loop_cons, Hbody. destruct adv.
      * destruct Hadv as [He2 Hl2].
        destruct (IH fuel t2 Hi2 ltac:(lia)) as (t3 & -> & Hi3 & He3 & Hl3).
        exists t3. split; [done|]. split; [done|].
        rewrite He3, He2, He1, Hl3, Hl2, Hl1, Hstep.
        by rewrite <- !app_assoc.
      * destruct Hadv as (_ & _ & Hstep2 & _). rewrite Hl1 in Hstep2.
        unfold enc_step in Hstep2. rewrite Hc in Hstep2.
        change ((LF =? 0) || (LF =? LF)) with true in Hstep2.
        change (LF =? CR) with false in Hstep2. cbn [negb andb] in Hstep2.
        destruct (c =? DOT); discriminate Hstep2.
Qed.

(** The encoder never fails, and its output does not depend on the chunk
    boundaries of its input. *)
Lemma encode_stream chunks :
  encode chunks
  = Some (Ok (enc_stream 0 (concat chunks)
              ++ line_end (last_char 0 (concat chunks)) ++ [DOT; CR; LF])).
Proof.
  assert (Hall : forall chunks this, enc_inv this ->
            exists this', write_all this chunks = Some (Ok this')
              /\ enc_inv this'
              /\ emitted this' = emitted this ++ enc_stream (lastChar this) (concat chunks)
              /\ lastChar this' = last_char (lastChar this) (concat chunks)).
  { clear chunks. induction chunks as [|chunk chunks IH]; intros this Hinv.
    - exists this. cbn. by rewrite app_nil_r.
    - cbn [write_all concat]. unfold _transform.
      destruct (loop_emitted chunk _ this Hinv (Nat.le_refl _)) as (t1 & -> & Hi1 & He1 & Hl1).
      destruct (IH t1 Hi1) as (t2 & -> & Hi2 & He2 & Hl2).
      exists t2. split; [done|]. split; [done|].
      rewrite He2, He1, Hl2, Hl1, enc_stream_app, last_char_app. by rewrite <- app_assoc. }
  destruct (Hall chunks new) as (this & Hw & _ & He & Hl); [by split|].
  unfold encode. rewrite Hw. do 2 f_equal.
  change (emitted new) with (@nil Z) in He. change (lastChar new) with 0 in He, Hl.
  cbn [app] in He. rewrite <- He, <- Hl. unfold _flush, emitted, line_end, push, slice.
  cbn [buffer bufferSize lastChar pushed]. rewrite Z.sub_0_r. cbn [Z.to_nat drop].
  rewrite drop_0.
  destruct (lastChar this =? CR); [|destruct (lastChar this =? LF)];
    cbn [negb pushed]; rewrite !concat_app; cbn [concat]; by rewrite ?app_nil_r, <- ?app_assoc.
Qed.

End EncoderStream.

Section DecoderLines.
Import Bytes DotDecoder.

Lemma dec_loop_cons this lc b rest :
  loop this lc (b :: rest)
  = if bufferSize this >? maxLineLength this then Throw DataLineTooLong
    else
      buf <- writeUInt8 (buffer this) b (bufferSize this) ;;
      let this := set_buffer this buf (bufferSize this + 1) in
      if (lc =? CR) && (b =? LF) then
        first <- (if bufferSize this >? 0 then readUInt8 (buffer this) 0 else Ok 0) ;;
        if (bufferSize this >? 0) && (first =? DOT) then
          if bufferSize this =? 3 then Ok (finish this)
          else
            let this := push this (slice (buffer this) 1 (bufferSize this)) in
            loop (set_buffer this (buffer this) 0) b rest
        else
          let this := push this (slice (buffer this) 0 (bufferSize this)) in
          loop (set_buffer this (buffer this) 0) b rest
      else loop this b rest.
Proof. reflexivity. Qed.

(** Writing one byte behind the line. *)
Lemma write_line this line b :
  dec_rel this line -> (length line < 1000)%nat ->
  (bufferSize this >? maxLineLength this) = false
  /\ exists buf, writeUInt8 (buffer this) b (bufferSize this) = Ok buf
       /\ length buf = 1000%nat
       /\ take (S (length line)) buf = line ++ [b].
Proof.
  intros (Hmax & Hlen & Hsize & Htake & _) Hfit. split; [lia|].
  unfold writeUInt8. rewrite Hlen, Hsize.
  destruct (Z.leb_spec 0 (Z.of_nat (length line))); [|lia].
  destruct (Z.ltb_spec (Z.of_nat (length line)) (Z.of_nat 1000)); [|lia]. cbn [andb].
  rewrite Nat2Z.id. eexists. split; [done|]. rewrite length_insert. split; [done|].
  rewrite (take_S_r _ _ b) by (apply list_lookup_insert_eq; lia).
  by rewrite take_insert_ge, Htake.
Qed.

(** The loop of [_transform] follows [dec_lines] as long as the lines fit. *)
Lemma loop_dec_lines s : forall this line lc,
  dec_rel this line -> lines_fit (length line) lc s ->
  exists this', loop this lc s = Ok this'
    /\ concat (pushed this') = concat (pushed this) ++ (dec_lines line lc s).1
    /\ ended this' = (dec_lines line lc s).2
    /\ stalled this' = (dec_lines line lc s).2.
Proof.
  induction s as [|b s IH]; intros this line lc Hrel Hfit.
  - exists this. destruct Hrel as (_ & _ & _ & _ & Hs & He).
    cbn [loop dec_lines fst snd]. by rewrite app_nil_r.
  - destruct Hfit as [Hn Hfit]. rewrite dec_loop_cons.
    destruct (write_line this line b Hrel Hn) as (-> & buf & -> & Hlen & Htake).
    cbn [bind]. cbn [dec_lines].
    destruct Hrel as (Hmax & _ & Hsize & _ & Hs & He).
    destruct ((lc =? CR) && (b =? LF)) eqn:Hcrlf.
    + cbn [set_buffer bufferSize buffer]. rewrite Hsize.
      destruct (Z.gtb_spec (Z.of_nat (length line) + 1) 0); [|lia].
      assert (Hfull : exists d rest, line ++ [b] = d :: rest) by (destruct line; eauto).
      destruct Hfull as (d & rest & Hfull). rewrite Hfull in Htake |- *.
      assert (Hfirst : readUInt8 buf 0 = Ok d).
      { change (readUInt8 buf 0)
          with (match buf !! 0%nat with Some v => Ok v | None => Throw BufferRangeError end).
        assert (Hd : buf !! 0%nat = Some d).
        { rewrite <- (lookup_take_lt buf (S (length line)) 0) by lia. by rewrite Htake. }
        by rewrite Hd. }
      rewrite Hfirst. cbn [bind andb].
      assert (Hl : length (d :: rest) = S (length line)).
      { rewrite <- Hfull, length_app. cbn [length]. lia. }
      rewrite Hl.
      replace (Z.of_nat (length line) + 1) with (Z.of_nat (S (length line))) by lia.
      destruct (d =? DOT).
      * destruct (Z.of_nat (S (length line)) =? 3).
        -- eexists. split; [done|]. cbn [finish pushed ended stalled fst snd].
           by rewrite app_nil_r.
        -- match goal with |- context [loop ?t b s] =>
             edestruct (IH t [] b) as (this' & -> & Hout & Hend & Hst)
           end.
           { by repeat split. }
           { exact Hfit. }
           exists this'. split; [done|]. destruct (dec_lines [] b s) as [out e].
           cbn [fst snd] in *. split; [|done]. rewrite Hout.
           cbn [set_buffer push pushed]. rewrite concat_app. cbn [concat].
           rewrite app_nil_r, <- app_assoc. do 2 f_equal. unfold slice.
           replace (Z.to_nat (Z.of_nat (S (length line)) - 1)) with (length line) by lia.
           change (Z.to_nat 1) with 1%nat.
           rewrite take_drop_commute.
           replace (1 + length line)%nat with (S (length line)) by lia.
           by rewrite Htake.
      * match goal with |- context [loop ?t b s] =>
          edestruct (IH t [] b) as (this' & -> & Hout & Hend & Hst)
        end.
        { by repeat split. }
        { exact Hfit. }
        exists this'. split; [done|]. destruct (dec_lines [] b s) as [out e].
        cbn [fst snd] in *. split; [|done]. rewrite Hout.
        cbn [set_buffer push pushed]. rewrite concat_app. cbn [concat].
        rewrite app_nil_r, <- app_assoc. do 2 f_equal. unfold slice.
        rewrite Z.sub_0_r, Nat2Z.id. change (Z.to_nat 0) with 0%nat.
        by rewrite drop_0, Htake.
    + match goal with |- context [loop ?t b s] =>
        edestruct (IH t (line ++ [b]) b) as (this' & -> & Hout & Hend & Hst)
      end.
      { unfold dec_rel. rewrite length_app.
        cbn [length set_buffer maxLineLength buffer bufferSize stalled ended].
        replace (length line + 1)%nat with (S (length line)) by lia.
        repeat split; try done. lia. }
      { rewrite length_app. cbn [length].
        by replace (length line + 1)%nat with (S (length line)) by lia. }
      exists this'. done.
Qed.

End DecoderLines.

Section Normalization.
Import Bytes.

Lemma dec_lines_plain line lc b s :
  (lc =? CR) && (b =? LF) = false ->
  dec_lines line lc (b :: s) = dec_lines (line ++ [b]) b s.
Proof. intros H. cbn [dec_lines]. by rewrite H. Qed.

Lemma unstuff_snoc line b :
  line <> [] \/ b <> DOT -> unstuff (line ++ [b]) = unstuff line ++ [b].
Proof.
  intros H. destruct line as [|d r]; cbn [app unstuff].
  - destruct H as [|H]; [done|]. by destruct (Z.eqb_spec b DOT).
  - by destruct (d =? DOT).
Qed.

Lemma unstuff_app line t :
  (line = [] -> unstuff t = t) -> unstuff (line ++ t) = unstuff line ++ t.
Proof.
  intros H. destruct line as [|d r]; cbn [app unstuff]; [by apply H|].
  by destruct (d =? DOT).
Qed.

Lemma dec_lines_crlf line s :
  (forall b, line <> [DOT; b]) ->
  dec_lines line CR (LF :: s)
  = (unstuff (line ++ [LF]) ++ (dec_lines [] LF s).1, (dec_lines [] LF s).2).
Proof.
  intros Hmark. cbn [dec_lines]. change ((CR =? CR) && (LF =? LF)) with true. cbn iota.
  destruct (dec_lines [] LF s) as [out e]. cbn [fst snd].
  destruct line as [|d r]; cbn [app unstuff]; [done|].
  destruct (Z.eqb_spec d DOT) as [->|]; [|done].
  destruct (Z.eqb_spec (Z.of_nat (length (DOT :: r ++ [LF]))) 3) as [Hl|]; [|done].
  exfalso. cbn [length] in Hl. rewrite length_app in Hl. cbn [length] in Hl.
  destruct r as [|b [|b' r]]; cbn [length] in Hl; try lia. by apply (Hmark b).
Qed.

Lemma dec_lines_marker lc s : dec_lines [] lc (DOT :: CR :: LF :: s) = ([], true).
Proof.
  cbn [dec_lines]. change (DOT =? LF) with false. rewrite andb_false_r.
  by change ((DOT =? CR) && (CR =? LF)) with false.
Qed.

Lemma line_state_not_marker prev line b :
  line_state prev line -> line = [DOT; b] -> b = DOT /\ prev = Some DOT.
Proof.
  intros [Hlast Hdot] ->. destruct (Hdot [b] eq_refl) as (r' & Hr).
  injection Hr as Hb _. subst b. split; [done|]. destruct prev as [p|]; [|done].
  destruct (p =? LF); [done|]. cbn in Hlast. by injection Hlast as <-.
Qed.

Lemma line_state_snoc_not_marker prev line a :
  line_state prev line -> forall b, line ++ [a] <> [DOT; b].
Proof.
  intros [_ Hdot] b Hb. destruct line as [|d [|d' l]].
  - done.
  - injection Hb as -> _. by destruct (Hdot [] eq_refl).
  - by destruct l.
Qed.

Lemma line_state_nil_lc prev :
  line_state prev [] -> prev = None \/ prev = Some LF.
Proof.
  intros [Hlast _]. destruct prev as [p|]; [|by left]. right.
  destruct (Z.eqb_spec p LF) as [Hp|Hp]; [by rewrite Hp | done].
Qed.

Lemma line_state_snoc prev line c :
  line_state prev line -> c <> LF ->
  (line = [] -> c <> DOT) ->
  line_state (Some c) (line ++ [c]).
Proof.
  intros [_ Hdot] Hc Hfirst. split.
  - destruct (Z.eqb_spec c LF); [done|]. by rewrite last_snoc.
  - intros r Hr. destruct line as [|d l].
    + injection Hr as -> _. by destruct Hfirst.
    + injection Hr as -> <-. destruct (Hdot l eq_refl) as (r' & ->). by exists (r' ++ [c]).
Qed.

Lemma line_state_stuffed : line_state (Some DOT) [DOT; DOT].
Proof. split; [done|]. intros r [= <-]. by exists []. Qed.

Lemma line_state_line_end : line_state (Some LF) [].
Proof. split; [done|]. by intros r [=]. Qed.

Ltac use_encoded IH prev line Hstate Hfree :=
  let H := fresh in
  pose proof (IH prev line Hstate Hfree) as H; cbn [lc_of] in H;
  cbn [app] in H |- *; rewrite H.

(** The decoder run on the encoded form of [x], final dot line included,
    gives the rest of the current line and [x] with normalized line
    endings, and ends. *)
Lemma dec_lines_encoded x : forall prev line,
  line_state prev line -> nul_dot_free prev x ->
  dec_lines line (lc_of prev)
    (enc_stream (lc_of prev) x ++ line_end (last_char (lc_of prev) x) ++ [DOT; CR; LF])
  = (unstuff line ++ norm (lc_of prev) x, true).
Proof.
  induction x as [|c x IH]; intros prev line Hstate Hfree.
  - cbn [enc_stream last_char norm app]. unfold line_end.
    destruct (Z.eqb_spec (lc_of prev) CR) as [Hcr|Hcr].
    + rewrite Hcr. cbn [app]. rewrite dec_lines_crlf, dec_lines_marker.
      * cbn [fst snd]. rewrite app_nil_r, unstuff_snoc; [done | by right].
      * intros b Hb. destruct (line_state_not_marker _ _ _ Hstate Hb) as [_ ->]. done.
    + destruct (Z.eqb_spec (lc_of prev) LF) as [Hlf|Hlf]; cbn [negb app].
      * assert (line = []) as ->.
        { destruct Hstate as [Hl _]. destruct prev as [p|]; [|done].
          cbn [lc_of] in Hlf. subst p. done. }
        by rewrite dec_lines_marker.
      * rewrite dec_lines_plain by (by change (CR =? LF) with false; rewrite andb_false_r).
        rewrite dec_lines_crlf, dec_lines_marker.
        -- cbn [fst snd]. rewrite app_nil_r, <- app_assoc. cbn [app].
           by rewrite unstuff_app.
        -- by apply (line_state_snoc_not_marker prev).
  - destruct Hfree as [Hnul Hfree]. cbn [enc_stream last_char norm].
    rewrite <- !app_assoc. unfold enc_step, norm_step.
    set (lc := lc_of prev) in *.
    destruct (((lc =? 0) || (lc =? LF)) && (c =? DOT)) eqn:Hstuff.
    + (* a dot at the start of a line *)
      apply andb_prop in Hstuff as [Hlc Hc]. apply Z.eqb_eq in Hc as ->.
      assert (line = []) as ->.
      { destruct Hstate as [Hl _]. destruct prev as [p|]; [|done]. cbn [lc_of] in lc.
        subst lc. destruct (Z.eqb_spec p LF); [done|].
        destruct (Z.eqb_spec p 0) as [->|]; [|done]. by destruct Hnul. }
      assert (Hcr : (lc =? CR) = false).
      { apply orb_prop in Hlc as [H|H]; apply Z.eqb_eq in H; rewrite H; done. }
      rewrite Hcr. cbn [app negb andb].
      rewrite dec_lines_plain by (by rewrite Hcr).
      rewrite dec_lines_plain by done.
      use_encoded IH (Some DOT) [DOT; DOT] line_state_stuffed Hfree. done.
    + destruct (negb (c =? LF) && (lc =? CR)) eqn:Hbare.
      * (* a bare CR before [c] *)
        apply andb_prop in Hbare as [Hc Hlc]. apply negb_true_iff in Hc.
        apply Z.eqb_eq in Hlc. rewrite Hlc. cbn [app].
        rewrite dec_lines_crlf.
        2:{ intros b Hb. destruct (line_state_not_marker _ _ _ Hstate Hb) as [_ Hp].
            subst prev. cbn [lc_of] in lc. subst lc. done. }
        rewrite (unstuff_snoc line LF) by (by right).
        destruct (Z.eqb_spec c DOT) as [->|Hdot].
        -- cbn [app]. rewrite dec_lines_plain by done. rewrite dec_lines_plain by done.
           use_encoded IH (Some DOT) [DOT; DOT] line_state_stuffed Hfree.
           cbn [fst snd unstuff]. by rewrite <- !app_assoc.
        -- cbn [app]. rewrite dec_lines_plain by (by rewrite Hc).
           assert (Hs : line_state (Some c) [c]).
           { apply (line_state_snoc (Some LF) [] c line_state_line_end);
               [by apply Z.eqb_neq | done]. }
           use_encoded IH (Some c) [c] Hs Hfree.
           cbn [fst snd unstuff app]. apply Z.eqb_neq in Hdot. rewrite Hdot.
           by rewrite <- !app_assoc.
      * destruct ((c =? LF) && negb (lc =? CR)) eqn:Hlf.
        -- (* a bare LF *)
           apply andb_prop in Hlf as [Hc Hlc]. apply Z.eqb_eq in Hc as ->.
           apply negb_true_iff in Hlc. cbn [app].
           rewrite dec_lines_plain by (by change (CR =? LF) with false; rewrite andb_false_r).
           rewrite dec_lines_crlf.
           2:{ by apply (line_state_snoc_not_marker prev). }
           use_encoded IH (Some LF) (@nil Z) line_state_line_end Hfree.
           cbn [fst snd unstuff app]. rewrite <- (app_assoc line). cbn [app].
           rewrite (unstuff_app line [CR; LF]) by done.
           by rewrite <- !app_assoc.
        -- destruct (Z.eqb_spec c LF) as [->|Hnlf].
           ++ (* the LF of a CRLF *)
              cbn [negb andb] in Hbare, Hlf.
              assert (Hlc : lc = CR).
              { destruct (Z.eqb_spec lc CR); [done|]. done. }
              rewrite Hlc. cbn [app]. rewrite dec_lines_crlf.
              2:{ intros b Hb. destruct (line_state_not_marker _ _ _ Hstate Hb) as [_ Hp].
                  subst prev. cbn [lc_of] in lc. subst lc. done. }
              use_encoded IH (Some LF) (@nil Z) line_state_line_end Hfree.
              cbn [fst snd unstuff app]. rewrite (unstuff_snoc line LF) by (by right).
              by rewrite <- !app_assoc.
           ++ (* any other byte *)
              cbn [app]. apply Z.eqb_neq in Hnlf.
              rewrite dec_lines_plain by (by rewrite Hnlf, andb_false_r).
              assert (Hfirst : line = [] -> c <> DOT).
              { intros -> ->. destruct (line_state_nil_lc _ Hstate) as [->| ->];
                  cbn [lc_of] in lc; subst lc; done. }
              assert (Hs : line_state (Some c) (line ++ [c])).
              { apply (line_state_snoc prev); [done | by apply Z.eqb_neq | done]. }
              pose proof (IH (Some c) (line ++ [c]) Hs Hfree) as Henc.
              cbn [lc_of] in Henc. rewrite Henc.
              rewrite unstuff_snoc; [by rewrite <- app_assoc|].
              destruct line; [right; by apply Hfirst | by left].
Qed.

End Normalization.

Section DecoderChunks.
Import Bytes DotDecoder.

Lemma writeUInt8_inv buffer v off buf :
  writeUInt8 buffer v off = Ok buf ->
  0 <= off < Z.of_nat (length buffer) /\ buf = <[Z.to_nat off := v]> buffer.
Proof.
  unfold writeUInt8. destruct (Z.leb_spec 0 off); [|done].
  destruct (Z.ltb_spec off (Z.of_nat (length buffer))); [|done].
  intros [= <-]. split; [lia | done].
Qed.

Lemma loop_app a : forall this lc b,
  stalled this = false ->
  loop this lc (a ++ b)
  = (this1 <- loop this lc a ;;
     if stalled this1 then Ok this1 else loop this1 (last_char lc a) b).
Proof.
  induction a as [|c a IH]; intros this lc b Hst.
  - cbn [app loop bind last_char]. by rewrite Hst.
  - cbn [app last_char]. rewrite !dec_loop_cons.
    destruct (bufferSize this >? maxLineLength this); [done|].
    destruct (writeUInt8 (buffer this) c (bufferSize this)) as [buf|]; [|done].
    cbn [bind].
    destruct ((lc =? CR) && (c =? LF)); [|by apply IH].
    destruct (if bufferSize (set_buffer this buf (bufferSize this + 1)) >? 0
              then readUInt8 (buffer (set_buffer this buf (bufferSize this + 1))) 0
              else Ok 0) as [first|]; [|done].
    cbn [bind].
    destruct ((bufferSize (set_buffer this buf (bufferSize this + 1)) >? 0) && (first =? DOT)).
    + destruct (bufferSize (set_buffer this buf (bufferSize this + 1)) =? 3);
        [done | by apply IH].
    + by apply IH.
Qed.

Lemma loop_good s : forall this lc this',
  good this -> loop this lc s = Ok this' -> stalled this' = false -> good this'.
Proof.
  induction s as [|c s IH]; intros this lc this' [Hlen Hcr]; [by intros [= <-]|].
  rewrite dec_loop_cons.
  destruct (bufferSize this >? maxLineLength this); [done|].
  destruct (writeUInt8 (buffer this) c (bufferSize this)) as [buf|] eqn:Hw; [|done].
  apply writeUInt8_inv in Hw as [Hoff ->]. rewrite Hlen in Hoff. cbn [bind].
  assert (Hold : buffer this !! 999%nat <> Some CR).
  { intros H. specialize (Hcr H). lia. }
  set (buf := <[Z.to_nat (bufferSize this):=c]> (buffer this)).
  assert (Hbuf : length buf = 1000%nat) by (unfold buf; by rewrite length_insert).
  assert (Hlast : buf !! 999%nat = Some CR -> c = CR /\ bufferSize this + 1 = 1000).
  { unfold buf. intros H. destruct (decide (Z.to_nat (bufferSize this) = 999%nat)) as [He|Hne].
    - rewrite He, list_lookup_insert_eq in H by lia. injection H as ->. split; [done | lia].
    - by rewrite list_lookup_insert_ne in H. }
  destruct ((lc =? CR) && (c =? LF)) eqn:Hcrlf.
  - apply andb_prop in Hcrlf as [_ Hc]. apply Z.eqb_eq in Hc as ->.
    assert (Hreset : forall this0, buffer this0 = buf -> good this0).
    { intros this0 Hb. split; [by rewrite Hb|]. rewrite Hb. intros H.
      by destruct (Hlast H). }
    destruct (if bufferSize (set_buffer this buf (bufferSize this + 1)) >? 0
              then readUInt8 (buffer (set_buffer this buf (bufferSize this + 1))) 0
              else Ok 0) as [first|]; [|done].
    cbn [bind].
    destruct ((bufferSize (set_buffer this buf (bufferSize this + 1)) >? 0) && (first =? DOT)).
    + destruct (bufferSize (set_buffer this buf (bufferSize this + 1)) =? 3).
      * by intros [= <-].
      * apply IH. by apply Hreset.
    + apply IH. by apply Hreset.
  - apply IH. split; [done|]. cbn [set_buffer buffer bufferSize]. intros H.
    by destruct (Hlast H).
Qed.

(** Within a chunk the start value of [lastChar] matters for a first byte
    LF only. *)
Lemma transform_as_loop this prev chunk :
  good this ->
  ~ (prev = CR /\ hd_error chunk = Some LF) ->
  _transform this chunk = loop this prev chunk.
Proof.
  intros [Hlen Hcr] Hsplit. unfold _transform. rewrite Hlen.
  change (negb (Z.of_nat 1000 =? 0)) with true. cbn iota.
  change (Z.of_nat 1000 - 1) with 999. unfold readUInt8.
  change (0 <=? 999) with true. cbn iota. change (Z.to_nat 999) with 999%nat.
  destruct (buffer this !! 999%nat) as [v|] eqn:Hv.
  2:{ apply lookup_ge_None in Hv. lia. }
  cbn [bind]. destruct chunk as [|b rest]; [done|]. rewrite !dec_loop_cons.
  destruct (bufferSize this >? maxLineLength this); [done|].
  destruct (writeUInt8 (buffer this) b (bufferSize this)) as [buf|] eqn:Hw; [|done].
  apply writeUInt8_inv in Hw as [Hoff _]. rewrite Hlen in Hoff.
  assert (Hsame : (v =? CR) && (b =? LF) = (prev =? CR) && (b =? LF)).
  { destruct (Z.eqb_spec b LF) as [->|]; [|by rewrite !andb_false_r].
    rewrite !andb_true_r.
    destruct (Z.eqb_spec v CR) as [->|], (Z.eqb_spec prev CR) as [->|]; try done.
    - specialize (Hcr eq_refl). lia.
    - by destruct Hsplit. }
  by rewrite Hsame.
Qed.

(** Chunk boundaries that keep every CRLF together do not change what the
    decoder does. *)
Lemma write_all_concat chunks : forall this prev,
  good this -> stalled this = false -> keeps_crlf prev chunks ->
  write_all this chunks = loop this prev (concat chunks).
Proof.
  induction chunks as [|chunk chunks IH]; intros this prev Hgood Hst Hkeeps; [done|].
  destruct Hkeeps as [Hsplit Hkeeps]. cbn [write_all concat].
  rewrite Hst, (transform_as_loop this prev chunk Hgood Hsplit), loop_app by done.
  destruct (loop this prev chunk) as [this1|] eqn:Hloop; [|done]. cbn [bind].
  destruct (stalled this1) eqn:Hst1.
  - destruct chunks; cbn [write_all]; [done | by rewrite Hst1].
  - apply IH; [by apply (loop_good _ _ _ _ Hgood Hloop) | done | done].
Qed.

(** The decoder never throws its own line length error: the write behind a
    full buffer throws first. *)
Lemma loop_never_DataLineTooLong s : forall this lc,
  dec_bounds this ->
  loop this lc s <> Throw DataLineTooLong
  /\ (forall this', loop this lc s = Ok this' -> dec_bounds this').
Proof.
  induction s as [|c s IH]; intros this lc (Hmax & Hlen & Hsize).
  - split; [done|]. by intros this' [= <-].
  - rewrite dec_loop_cons. rewrite Hmax.
    destruct (Z.gtb_spec (bufferSize this) 1000); [lia|].
    destruct (writeUInt8 (buffer this) c (bufferSize this)) as [buf|e] eqn:Hw.
    2:{ cbn [bind]. split; [|done]. intros [= ->]. unfold writeUInt8 in Hw.
        by destruct ((0 <=? bufferSize this)
                     && (bufferSize this <? Z.of_nat (length (buffer this)))). }
    apply writeUInt8_inv in Hw as [Hoff ->]. rewrite Hlen in Hoff. cbn [bind].
    set (buf := <[Z.to_nat (bufferSize this):=c]> (buffer this)).
    assert (Hbuf : length buf = 1000%nat) by (unfold buf; by rewrite length_insert).
    destruct ((lc =? CR) && (c =? LF)).
    + destruct (if bufferSize (set_buffer this buf (bufferSize this + 1)) >? 0
                then readUInt8 (buffer (set_buffer this buf (bufferSize this + 1))) 0
                else Ok 0) as [first|e] eqn:Hfirst.
      2:{ cbn [bind]. split; [|done]. intros [= ->].
          destruct (bufferSize (set_buffer this buf (bufferSize this + 1)) >? 0); [|done].
          unfold readUInt8 in Hfirst. cbn in Hfirst.
          by destruct (buf !! Z.to_nat 0). }
      cbn [bind].
      destruct ((bufferSize (set_buffer this buf (bufferSize this + 1)) >? 0) && (first =? DOT)).
      * destruct (bufferSize (set_buffer this buf (bufferSize this + 1)) =? 3).
        -- split; [done|]. intros this' [= <-]. by repeat split.
        -- apply IH. by repeat split.
      * apply IH. by repeat split.
    + apply IH. repeat split; try done. cbn [set_buffer bufferSize]. lia.
Qed.

Lemma good_new : good new.
Proof. split; [done|]. by intros [=]. Qed.

Lemma transform_never_DataLineTooLong this chunk :
  dec_bounds this ->
  _transform this chunk <> Throw DataLineTooLong
  /\ (forall this', _transform this chunk = Ok this' -> dec_bounds this').
Proof.
  intros Hb. unfold _transform.
  destruct (if negb (Z.of_nat (length (buffer this)) =? 0)
            then readUInt8 (buffer this) (Z.of_nat (length (buffer this)) - 1)
            else Ok 0) as [v|e] eqn:Hv.
  - cbn [bind]. by apply loop_never_DataLineTooLong.
  - cbn [bind]. split; [|done]. intros [= ->].
    destruct (negb (Z.of_nat (length (buffer this)) =? 0)); [|done].
    unfold readUInt8 in Hv.
    destruct (0 <=? Z.of_nat (length (buffer this)) - 1); [|done].
    by destruct (buffer this !! _).
Qed.

End DecoderChunks.

Section C1.
Import Bytes.

Lemma norm_crlf_only x : forall lc, crlf_only lc x -> norm lc x = x.
Proof.
  induction x as [|c x IH]; intros lc.
  - cbn. intros ->. done.
  - intros (Hcr & Hlf & Hrest). cbn [norm]. rewrite (IH c Hrest). unfold norm_step.
    destruct (Z.eqb_spec c LF) as [Hc|Hc], (Z.eqb_spec lc CR) as [Hl|Hl];
      cbn [negb andb]; try done.
    + by destruct Hl; apply Hlf.
    + by destruct Hc; apply Hcr.
Qed.

(** C1 (amended): the encoder never fails, whatever the chunks of its
    input.  When its output is fed to the decoder in chunks that keep every
    CRLF together, no NUL byte stands directly before a dot in the input,
    and no line of the encoded stream is longer than the 1000 bytes of the
    decoder's buffer, the decoder ends on the final dot line and its output
    is the input with normalized line endings: every bare CR and bare LF a
    CRLF, and a CRLF after a last line that has none.  For an input made of
    CRLF-terminated lines that is the input itself. *)
Theorem C1_decode_encode_normalizes chunks_in :
  exists out,
    DotEncoder.encode chunks_in = Some (Ok out)
    /\ forall chunks_out,
         concat chunks_out = out ->
         keeps_crlf 0 chunks_out ->
         nul_dot_free None (concat chunks_in) ->
         lines_fit 0 0 out ->
         DotDecoder.decode chunks_out = Ok (crlf_normalize (concat chunks_in), true)
         /\ (crlf_only 0 (concat chunks_in) ->
             DotDecoder.decode chunks_out = Ok (concat chunks_in, true)).
Proof.
  eexists. split; [apply encode_stream|].
  intros chunks_out Hout Hkeeps Hfree Hfit.
  assert (Hdecode : DotDecoder.decode chunks_out
                    = Ok (crlf_normalize (concat chunks_in), true)).
  { unfold DotDecoder.decode.
    rewrite (write_all_concat chunks_out DotDecoder.new 0 good_new eq_refl Hkeeps), Hout.
    destruct (loop_dec_lines _ DotDecoder.new [] 0 ltac:(by repeat split) Hfit)
      as (this' & -> & Hpushed & Hended & _).
    pose proof (dec_lines_encoded (concat chunks_in) None []
                  ltac:(split; [done | by intros r [=]]) Hfree) as Hlines.
    cbn [lc_of] in Hlines. rewrite Hlines in Hpushed, Hended.
    cbn [bind fst snd unstuff app] in *. by rewrite Hpushed, Hended. }
  split; [done|]. intros Hcrlf. rewrite Hdecode. unfold crlf_normalize.
  by rewrite (norm_crlf_only _ _ Hcrlf).
Qed.

Lemma C1_witness :
  exists out,
    DotEncoder.encode sample_chunks = Some (Ok out)
    /\ DotDecoder.decode [firstn 3 out; skipn 3 out] = Ok (concat sample_chunks, true).
Proof.
  destruct (C1_decode_encode_normalizes sample_chunks) as (out & Hencode & Hdecode).
  exists out. split; [exact Hencode|].
  assert (Hout : out = [97; 13; 10; 46; 46; 98; 13; 10; 46; 13; 10]).
  { vm_compute in Hencode. by injection Hencode as <-. }
  subst out.
  apply (Hdecode [[97; 13; 10]; [46; 46; 98; 13; 10; 46; 13; 10]]).
  - reflexivity.
  - cbn. repeat split; intros [H1 H2]; discriminate.
  - cbn. repeat split; intros [H1 H2]; discriminate.
  - cbn. repeat split; lia.
  - cbn. repeat split; intros; try done; discriminate.
Defined.

(** C1 as stated fails: the input "a" holds no end marker, and the decoder
    returns "a" followed by CRLF for what the encoder made of it. *)
Lemma C1_counterexample :
  DotEncoder.encode [[97]] = Some (Ok [97; 13; 10; 46; 13; 10])
  /\ DotDecoder.decode [[97; 13; 10; 46; 13; 10]] = Ok ([97; 13; 10], true)
  /\ [97; 13; 10] <> [97].
Proof. split; [|split]; [vm_compute; reflexivity | vm_compute; reflexivity | discriminate]. Qed.

(** The other two ways in which the claim fails: a chunk boundary between the
    CR and the LF of a line end hides the line end from the decoder, which
    then neither removes the final dot line nor ends; and a dot after a NUL
    byte is doubled by the encoder and not undone by the decoder. *)
Example decoder_split_crlf :
  DotDecoder.decode [[97; 13]; [10; 46; 13; 10]] = Ok ([97; 13; 10; 46; 13; 10], false).
Proof. vm_compute. reflexivity. Qed.

Example encoder_nul_dot :
  DotEncoder.encode [[0; 46; 13; 10]] = Some (Ok [0; 46; 46; 13; 10; 46; 13; 10])
  /\ DotDecoder.decode [[0; 46; 46; 13; 10; 46; 13; 10]] = Ok ([0; 46; 46; 13; 10], true).
Proof. split; vm_compute; reflexivity. Qed.

End C1.

Section C8.
Import Bytes DotDecoder.

(** C8 (the code at the failing input and in general): 1001 bytes without a
    CRLF make the decoder fail with the RangeError of the buffer write, not
    with its own line length error; that error is never thrown, whatever the
    chunks; and a decoder that holds a line of 1000 bytes fails with the
    RangeError on the next byte. *)
Theorem C8_oversize_is_RangeError :
  decode [replicate 1001 97] = Throw BufferRangeError
  /\ (forall chunks, decode chunks <> Throw DataLineTooLong)
  /\ (forall this line lc b rest,
        dec_rel this line -> length line = 1000%nat ->
        loop this lc (b :: rest) = Throw BufferRangeError).
Proof.
  split; [vm_compute; reflexivity|]. split.
  - intros chunks. unfold decode.
    assert (Hall : forall chunks this, dec_bounds this ->
              write_all this chunks <> Throw DataLineTooLong).
    { clear chunks. induction chunks as [|chunk chunks IH]; intros this Hb; [done|].
      cbn [write_all]. destruct (stalled this); [done|].
      destruct (transform_never_DataLineTooLong this chunk Hb) as [Hne Hok].
      destruct (_transform this chunk) as [this1|e]; cbn [bind]; [|done].
      apply IH. by apply Hok. }
    specialize (Hall chunks new ltac:(by repeat split)).
    destruct (write_all new chunks) as [this|e]; cbn [bind]; [done|]. congruence.
  - intros this line lc b rest (Hmax & Hlen & Hsize & _) Hfull.
    rewrite dec_loop_cons, Hmax, Hsize, Hfull.
    change (Z.of_nat 1000 >? 1000) with false. cbn iota.
    unfold writeUInt8. rewrite Hlen.
    change (Z.of_nat 1000 <? Z.of_nat 1000) with false. by rewrite andb_false_r.
Qed.

Lemma C8_witness :
  loop (set_buffer new (replicate 1000 97) 1000) 97 [13; 10] = Throw BufferRangeError.
Proof.
  destruct C8_oversize_is_RangeError as (_ & _ & Hfull).
  apply (Hfull (set_buffer new (replicate 1000 97) 1000) (replicate 1000 97)).
  - repeat split; vm_compute; reflexivity.
  - vm_compute. reflexivity.
Defined.

End C8.

(** * Further properties of the code *)

Section CommandLineExtras.
Import JS SMTPCmdLineParser.

Lemma trim_trim s : trim (trim s) = trim s.
Proof. apply trim_id; [apply trim_no_leading_ws | apply trim_no_trailing_ws]. Qed.

Lemma join_length_cons x l :
  length (join (str " ") (x :: l))
  = (length x + length (concat (map (fun t => str " " ++ t) l)))%nat.
Proof. by rewrite join_cons, length_app. Qed.

(** Joining the pieces of a split by single spaces never gives a longer
    string than the one that was split. *)
Lemma split_go_join_length s : forall b cur,
  (length (join (str " ") (split_go b cur s)) <= length cur + length s)%nat.
Proof.
  induction s as [|c s IH]; intros b cur; cbn [split_go].
  - simpl. lia.
  - destruct (is_ws c).
    + destruct b.
      * specialize (IH true cur). cbn [length]. lia.
      * specialize (IH true []).
        destruct (split_go true [] s) as [|y l] eqn:E; [by apply split_go_not_nil in E|].
        change (join (str " ") (cur :: y :: l)) with (cur ++ str " " ++ join (str " ") (y :: l)).
        rewrite !length_app. cbn [length str list_ascii_of_string] in *. lia.
    + specialize (IH false (cur ++ [c])). rewrite length_app in IH. cbn [length] in *. lia.
Qed.

Lemma trim_nonempty_tokens line :
  trim line <> [] ->
  exists v parts, split_ws (trim line) = v :: parts /\ Forall is_token (v :: parts).
Proof.
  intros Hne.
  destruct (split_ws (trim line)) as [|v parts] eqn:Hsplit;
    [by apply split_go_not_nil in Hsplit|].
  exists v, parts. split; [done|]. apply (split_trim_tokens line); [done|].
  intros ->. pose proof (trim_no_leading_ws line) as Hlead.
  destruct (trim line) as [|c s] eqn:E; [done|]. cbn [no_leading_ws] in Hlead.
  unfold split_ws in Hsplit. cbn [split_go] in Hsplit. rewrite Hlead in Hsplit.
  cbn [app] in Hsplit. clear -Hsplit.
  assert (H : forall s cur, cur <> [] -> hd_error (split_go false cur s) <> Some []).
  { clear. induction s as [|d s IH]; intros cur Hcur; cbn [split_go].
    - simpl. congruence.
    - destruct (is_ws d); [simpl; congruence|]. apply IH. by destruct cur. }
  specialize (H s [c] ltac:(done)). rewrite Hsplit in H. by apply H.
Qed.

(** A line of tokens separated by single spaces passes the checks when it
    is short enough, and splits into its tokens. *)
Lemma joined_line_checks this t toks :
  Forall is_token (t :: toks) ->
  Z.of_nat (length (join (str " ") (t :: toks))) <= maxLineLength this - 2 ->
  passes_line_checks this (join (str " ") (t :: toks))
  /\ split_ws (trim (join (str " ") (t :: toks))) = t :: toks.
Proof.
  intros Htoks Hlen. destruct (join_ws_free_parts _ _ Htoks) as (Hlead & Htrail & Hbreak).
  unfold passes_line_checks. rewrite (trim_id _ Hlead Htrail).
  split; [|by apply split_ws_join]. split; [|split; [done|done]].
  rewrite join_cons. inversion Htoks as [|? ? [Hne _] _]; subst. by destruct t.
Qed.

(** X1: [parseCommandLine] looks at a line only through the white-space
    separated tokens of the trimmed line: a line that has a character other
    than white space and passes the checks on the whole line (no line break
    inside, short enough) gives the same result, command or error, as its
    tokens joined by single spaces. *)
Theorem parseCommandLine_single_spaces this line :
  passes_line_checks this line ->
  trim line <> [] ->
  parseCommandLine this line
  = parseCommandLine this (join (str " ") (split_ws (trim line))).
Proof.
  intros Hchecks Hne.
  destruct (trim_nonempty_tokens line Hne) as (v & parts & Hsplit & Htoks).
  rewrite Hsplit.
  assert (Hlen : Z.of_nat (length (join (str " ") (v :: parts))) <= maxLineLength this - 2).
  { destruct Hchecks as (_ & Hlen & _).
    pose proof (split_go_join_length (trim line) false []) as H.
    fold (split_ws (trim line)) in H. rewrite Hsplit in H. simpl length in H at 2. lia. }
  destruct (joined_line_checks this v parts Htoks Hlen) as [Hchecks' Hsplit'].
  rewrite (parseCommandLine_tokens _ _ _ _ Hchecks Hsplit).
  by rewrite (parseCommandLine_tokens _ _ _ _ Hchecks' Hsplit').
Qed.

Lemma parseCommandLine_single_spaces_witness :
  parseCommandLine new_parser (str "  MAIL   FROM:<a@b>  SIZE=1 ")
  = parseCommandLine new_parser (str "MAIL FROM:<a@b> SIZE=1").
Proof.
  apply (parseCommandLine_single_spaces new_parser (str "  MAIL   FROM:<a@b>  SIZE=1 ")).
  - repeat split; vm_compute; congruence.
  - vm_compute. discriminate.
Defined.


(** X2: A line that is not empty and holds white space only is accepted
    (for a line limit of 2 or more): the result is a command whose verb is
    the empty string, without argument and params, although
    [parseCommandLine] has an error for empty input.  [serializeCommand]
    refuses that command because it has no verb. *)
Theorem blank_line_has_empty_verb this line :
  line <> [] ->
  Forall (fun c => is_ws c = true) line ->
  2 <= maxLineLength this ->
  parseCommandLine this line = Ok (mkCommand [] None None None [])
  /\ serializeCommand this (Some (mkCommand [] None None None []))
     = Throw SerializeNeedsVerb.
Proof.
  intros Hne Hws Hmax. split; [|reflexivity].
  unfold parseCommandLine. destruct line as [|c line]; [done|].
  assert (Htrim : trim (c :: line) = []).
  { unfold trim, trimLeft. by rewrite (drop_while_all _ _ Hws). }
  rewrite Htrim. cbn [length].
  destruct (Z.gtb_spec (Z.of_nat 0) (maxLineLength this - 2)); [lia|]. reflexivity.
Qed.

Lemma blank_line_has_empty_verb_witness :
  parseCommandLine new_parser (str "   ") = Ok (mkCommand [] None None None []).
Proof.
  apply (blank_line_has_empty_verb new_parser (str "   ")).
  - discriminate.
  - repeat constructor.
  - vm_compute. discriminate.
Defined.

(** X3: A param token is cut at its first equals sign: for a key without
    equals sign (and other than __proto__), [key=value] is the param [key]
    with the string [value], also when [value] holds further equals signs;
    a token without equals sign is the flag [key: true]; and [key=] with
    nothing behind the equals sign is a flag whose name keeps the equals
    sign. *)
Theorem param_key_and_value key value :
  Forall (fun c => c <> "="%char) key ->
  key <> str "__proto__" ->
  (is_token value ->
   parse_param (key ++ str "=" ++ value) = ParamObj [(key, PStr value)])
  /\ parse_param key = ParamObj [(key, PTrue)]
  /\ parse_param (key ++ str "=") = ParamObj [(key ++ str "=", PTrue)].
Proof.
  intros Hkey Hproto. apply key_chars in Hkey. split; [|split].
  - intros [Hne Hval]. unfold parse_param, exec_key_value.
    change (str "=" ++ value) with ("="%char :: value).
    destruct (take_while_app_stop _ key "="%char value Hkey eq_refl) as [-> ->].
    rewrite (take_while_all _ _ (ws_free_not_break _ Hval)).
    destruct value as [|c v]; [done|]. unfold new_param.
    by rewrite bool_decide_eq_false_2.
  - unfold parse_param, exec_key_value.
    rewrite (drop_while_all _ _ Hkey). unfold new_param.
    by rewrite bool_decide_eq_false_2.
  - unfold parse_param, exec_key_value.
    change (str "=") with ["="%char].
    destruct (take_while_app_stop _ key "="%char [] Hkey eq_refl) as [-> ->].
    cbn [take_while]. unfold new_param. rewrite bool_decide_eq_false_2; [done|].
    intros Heq. apply (f_equal (@rev ascii)) in Heq. rewrite rev_app_distr in Heq.
    simpl in Heq. discriminate Heq.
Qed.

Lemma param_key_and_value_witness :
  parse_param (str "BODY=8BIT=MIME") = ParamObj [(str "BODY", PStr (str "8BIT=MIME"))].
Proof.
  destruct (param_key_and_value (str "BODY") (str "8BIT=MIME")) as (H & _).
  - repeat constructor; discriminate.
  - discriminate.
  - apply H. split; [discriminate | repeat constructor].
Defined.


Lemma literal_token s :
  s <> [] -> forallb (fun c => negb (is_ws c)) s = true -> is_token s.
Proof.
  intros Hne H. split; [done|]. apply Forall_forall. intros c Hc.
  rewrite forallb_forall in H. apply negb_true_iff, H. by apply list_elem_of_In.
Qed.




Lemma exec_prefix_nonspace_skip f p pre s :
  Forall (fun c => c <> f) pre ->
  exec_prefix_nonspace (f :: p) (pre ++ s) = exec_prefix_nonspace (f :: p) s.
Proof.
  induction 1 as [|c pre Hc _ IH]; [done|]. cbn [app].
  rewrite exec_prefix_nonspace_unfold. cbn [strip_prefix].
  by rewrite (proj2 (Ascii.eqb_neq _ _) (not_eq_sym Hc)).
Qed.

(** X5: The argument of MAIL and RCPT is searched for [FROM:] and [TO:],
    not matched from its start: characters before the keyword in the same
    token (here: none of them F or T) are accepted and ignored. *)
Theorem path_prefix_is_ignored this pre p rest :
  ws_free pre ->
  Forall (fun c => c <> "F"%char /\ c <> "T"%char) pre ->
  is_token p ->
  Forall is_token rest ->
  Z.of_nat (length (join (str " ") (str "MAIL" :: (pre ++ str "FROM:<" ++ p ++ str ">") :: rest)))
    <= maxLineLength this - 2 ->
  parseCommandLine this (join (str " ") (str "MAIL" :: (pre ++ str "FROM:<" ++ p ++ str ">") :: rest))
  = Ok (mkCommand (str "MAIL") None (Some p) None (map parse_param rest))
  /\ parseCommandLine this (join (str " ") (str "RCPT" :: (pre ++ str "TO:<" ++ p ++ str ">") :: rest))
     = Ok (mkCommand (str "RCPT") None None (Some p) (map parse_param rest)).
Proof.
  intros Hpre Hskip Hp Hrest Hlen.
  assert (Hbrp : is_token (str "<" ++ p ++ str ">")).
  { apply (bracketed_token [] p); [constructor | apply Hp]. }
  assert (Htok : forall lit, ws_free lit -> is_token (pre ++ lit ++ str "<" ++ p ++ str ">")).
  { intros lit Hlit. rewrite app_assoc. apply bracketed_token; [|apply Hp].
    by apply ws_free_app. }
  assert (Hgo : forall v tok, is_token v -> is_token tok ->
    Z.of_nat (length (join (str " ") (v :: tok :: rest))) <= maxLineLength this - 2 ->
    parseCommandLine this (join (str " ") (v :: tok :: rest))
    = (r <- parse_verb_argument v (tok :: rest) ;;
       let '(d, rp, fp, parts) := r in
       Ok (mkCommand v d rp fp (map parse_param parts)))).
  { intros v tok Hv Ht Hl.
    destruct (joined_line_checks this v (tok :: rest)) as [Hc Hs];
      [by constructor; [|constructor] | done |].
    by apply parseCommandLine_tokens. }
  split.
  - change (str "FROM:<" ++ p ++ str ">") with (str "FROM:" ++ str "<" ++ p ++ str ">").
    rewrite Hgo; [| by apply literal_token | by apply Htok, literal_token | done].
    unfold parse_verb_argument.
    rewrite bool_decide_eq_false_2 by discriminate.
    rewrite bool_decide_eq_true_2 by reflexivity.
    change (str "FROM:") with ("F"%char :: str "ROM:") at 1.
    rewrite exec_prefix_nonspace_skip.
    2:{ eapply Forall_impl; [exact Hskip|]. by intros c [? _]. }
    change ("F"%char :: str "ROM:") with (str "FROM:").
    rewrite (exec_prefix_nonspace_here _ _ Hbrp), unbracket_bracketed. reflexivity.
  - change (str "TO:<" ++ p ++ str ">") with (str "TO:" ++ str "<" ++ p ++ str ">").
    rewrite Hgo; [| by apply literal_token | by apply Htok, literal_token |].
    2:{ rewrite !join_cons in *. cbn [map concat] in *. rewrite !length_app in *.
        cbn [length str list_ascii_of_string] in *. rewrite ?length_app in *.
        cbn [length] in *. lia. }
    unfold parse_verb_argument.
    rewrite !bool_decide_eq_false_2 by discriminate.
    rewrite bool_decide_eq_true_2 by reflexivity.
    change (str "TO:") with ("T"%char :: str "O:") at 1.
    rewrite exec_prefix_nonspace_skip.
    2:{ eapply Forall_impl; [exact Hskip|]. by intros c [_ ?]. }
    change ("T"%char :: str "O:") with (str "TO:").
    rewrite (exec_prefix_nonspace_here _ _ Hbrp), unbracket_bracketed.
    cbn [bind]. destruct Hp as [Hne _]. by destruct p.
Qed.

Lemma path_prefix_is_ignored_witness :
  parseCommandLine new_parser (str "MAIL xyzFROM:<a@b>")
  = Ok (mkCommand (str "MAIL") None (Some (str "a@b")) None []).
Proof.
  destruct (path_prefix_is_ignored new_parser (str "xyz") (str "a@b") []) as [H _].
  - repeat constructor.
  - repeat constructor; discriminate.
  - by apply literal_token.
  - constructor.
  - vm_compute. discriminate.
  - exact H.
Defined.

End CommandLineExtras.

Section CommandInput.
Import JS SMTPCmdLineParser SMTPCmdLineInput.

Lemma byteLength_ascii s : ascii_only s -> byteLength s = Z.of_nat (length s).
Proof.
  induction 1 as [|c s Hc _ IH]; [done|]. cbn [byteLength fold_right length].
  fold (byteLength s). rewrite IH.
  destruct (Nat.ltb_spec (nat_of_ascii c) 128); lia.
Qed.

Lemma ascii_only_trim s : ascii_only s -> ascii_only (trim s).
Proof.
  intros H. unfold trim, trimRight, trimLeft.
  assert (Hd : forall t, ascii_only t -> ascii_only (drop_while is_ws t)).
  { intros t Ht. rewrite <- (take_drop_while is_ws t) in Ht. by apply Forall_app in Ht as [_ ?]. }
  apply Forall_rev, Hd, Forall_rev, Hd, H.
Qed.

(** X6: [assertCommandLine] on a string of code units below 0x80, without
    options: it returns the trimmed line with CRLF for every line that
    passes the line checks of [parseCommandLine]; whatever it returns is the
    trimmed line with CRLF, and a line it accepts passes those checks unless
    it is the empty string, which [assertCommandLine] accepts and
    [parseCommandLine] rejects. *)
Theorem assertCommandLine_accepts_what_parser_checks this input :
  ascii_only input ->
  (passes_line_checks this input ->
   assertCommandLine this input None = Returned (trim input ++ CRLF))
  /\ (forall out, assertCommandLine this input None = Returned out ->
        out = trim input ++ CRLF /\ (input <> [] -> passes_line_checks this input))
  /\ (2 <= maxLineLength this ->
      assertCommandLine this [] None = Returned CRLF
      /\ parseCommandLine this [] = Throw CommandLineEmpty).
Proof.
  intros Hascii.
  assert (Hlen : byteLength (trim input ++ CRLF) = Z.of_nat (length (trim input)) + 2).
  { rewrite byteLength_ascii.
    - rewrite length_app. simpl length. lia.
    - apply Forall_app_2; [by apply ascii_only_trim|]. repeat constructor. }
  split; [|split].
  - intros (_ & Hsize & Hbreak). unfold assertCommandLine. rewrite Hbreak, Hlen.
    destruct (Z.gtb_spec (Z.of_nat (length (trim input)) + 2) (maxLineLength this)); [lia|done].
  - intros out. unfold assertCommandLine.
    destruct (has_cr_or_lf (trim input)) eqn:Hbreak; [done|]. rewrite Hlen.
    destruct (Z.gtb_spec (Z.of_nat (length (trim input)) + 2) (maxLineLength this)); [done|].
    intros [= <-]. split; [done|]. intros Hne. repeat split; [done | lia | done].
  - intros Hmax. split; [|done]. unfold assertCommandLine.
    change (has_cr_or_lf (trim [])) with false. cbn iota.
    change (byteLength (trim [] ++ CRLF)) with 2.
    destruct (Z.gtb_spec 2 (maxLineLength this)); [lia|done].
Qed.

Lemma assertCommandLine_accepts_what_parser_checks_witness :
  assertCommandLine new_parser (str " NOOP ") None = Returned (str "NOOP" ++ CRLF).
Proof.
  destruct (assertCommandLine_accepts_what_parser_checks new_parser (str " NOOP ")) as (H & _).
  - repeat constructor.
  - apply H. repeat split; vm_compute; congruence.
Defined.

(** *** The streaming parse *)

Lemma deliver_deaf this chunks : forall st,
  data_listener st = false -> deliver this st chunks = (st, None).
Proof.
  induction chunks as [|c chunks IH]; intros st Hst; [done|].
  cbn [deliver]. unfold onData. rewrite Hst. cbn [negb]. by apply IH.
Qed.

Lemma deliver_empty_chunk this st chunks :
  deliver this st ([] :: chunks) = deliver this st chunks.
Proof. cbn [deliver]. unfold onData. by destruct (data_listener st). Qed.

Lemma cleanup_deaf st r : data_listener (cleanup st r) = false.
Proof. done. Qed.

Lemma readUInt8_last buf p :
  p <> [] -> take (length p) buf = p ->
  Bytes.readUInt8 buf (Z.of_nat (length p) - 1) = Ok (last_char 0 p).
Proof.
  intros Hne Htake. unfold Bytes.readUInt8.
  destruct (Z.leb_spec 0 (Z.of_nat (length p) - 1)); [|destruct p; [done|simpl length in *; lia]].
  replace (Z.to_nat (Z.of_nat (length p) - 1)) with (length p - 1)%nat by lia.
  assert (Hl : buf !! (length p - 1)%nat = p !! (length p - 1)%nat).
  { assert (Hi : (length p - 1 < length p)%nat) by (destruct p; [done|simpl; lia]).
    revert Hi Htake. generalize (length p). intros n Hi <-. by rewrite lookup_take_lt. }
  rewrite Hl. clear -Hne. generalize 0. induction p as [|a p IH]; [done|]. intros d.
  destruct p as [|b p]; [done|]. specialize (IH ltac:(done) a).
  cbn [length] in *. replace (S (S (length p)) - 1)%nat with (S (length p)) by lia.
  replace (S (length p) - 1)%nat with (length p) in IH by lia. exact IH.
Qed.

(** The bytes of a chunk that fits are copied behind the bytes held. *)
Lemma copy_fits chunk buf p :
  take (length p) buf = p ->
  (length p + length chunk <= length buf)%nat ->
  exists buf', copy chunk buf (length p) = (buf', length chunk)
    /\ length buf' = length buf
    /\ take (length (p ++ chunk)) buf' = p ++ chunk.
Proof.
  intros Htake Hfit. unfold copy.
  replace (length chunk `min` (length buf - length p))%nat with (length chunk) by lia.
  eexists. split; [reflexivity|]. rewrite Htake, firstn_all. split.
  - rewrite !length_app, length_drop. lia.
  - rewrite app_assoc, length_app. apply take_app_length'. by rewrite length_app.
Qed.

Lemma line_rest_body body lc :
  Forall (fun b => b <> 13 /\ b <> 10) body -> lc <> 13 ->
  line_rest lc (body ++ [13; 10]).
Proof.
  intros Hbody. revert lc. induction Hbody as [|b body [Hb1 Hb2] _ IH]; intros lc Hlc.
  - simpl. repeat split; try done; try lia. 
  - cbn [app line_rest]. split; [done|]. intros _. split; [done|]. by apply IH.
Qed.

Lemma scan_line_rest c : forall lc rem,
  c <> [] -> line_rest lc (c ++ rem) ->
  (rem = [] /\ scan lc c = LineBreak [])
  \/ (rem <> [] /\ scan lc c = NoLineBreak /\ line_rest (last_char lc c) rem).
Proof.
  induction c as [|b c IH]; intros lc rem Hne Hrest; [done|].
  cbn [app line_rest] in Hrest. destruct Hrest as [H13 Hn13]. cbn [scan last_char].
  destruct (Z.eqb_spec lc 13) as [Hlc|Hlc].
  - destruct (H13 Hlc) as [-> Hnil]. apply app_eq_nil in Hnil as [-> ->].
    left. done.
  - destruct (Hn13 Hlc) as [Hb Hrest]. rewrite (proj2 (Z.eqb_neq _ _) Hb). cbn [negb andb orb].
    destruct c as [|b' c].
    + right. cbn [app] in Hrest. split; [by destruct rem|]. done.
    + apply (IH b rem); done.
Qed.

Lemma holds_parse this : 0 <= maxLineLength this -> holds this (parse this) [].
Proof. intros H. repeat split. cbn. by rewrite length_replicate. Qed.

Lemma to_string_body (buf body : list Z) tail :
  take (length (body ++ tail)) buf = body ++ tail -> length tail = 2%nat ->
  take (Z.to_nat (Z.of_nat (length (body ++ tail)) - 2)) buf = body.
Proof.
  intros Htake Htail. rewrite length_app, Htail.
  replace (Z.to_nat (Z.of_nat (length body + 2) - 2)) with (length body) by lia.
  rewrite <- (take_app_length body tail) at 2. rewrite <- Htake.
  rewrite take_take. f_equal. rewrite length_app. lia.
Qed.

(** One line in any chunks. *)
Lemma deliver_line this line : forall chunks st p,
  holds this st p ->
  p ++ concat chunks = line ++ [13; 10] ->
  line_rest (last_char 0 p) (concat chunks) ->
  Z.of_nat (length line) + 2 <= maxLineLength this ->
  exists st', deliver this st chunks = (st', None)
    /\ promise st' = settled_with (parseCommandLine this (SMTPReplyParser.Buffer_toString line))
    /\ data_listener st' = false /\ timer_set st' = false.
Proof.
  induction chunks as [|c chunks IH]; intros st p Hst Hall Hrest Hfit; [done|].
  destruct c as [|b c]; [rewrite deliver_empty_chunk; apply (IH st p); done|].
  set (chunk := b :: c) in *. cbn [concat] in Hall, Hrest.
  destruct Hst as (Hlen & Hsize & Htake & Hpending & Hlistening).
  assert (Hroom : (length p + length chunk <= length (buffer st))%nat).
  { apply (f_equal (@length Z)) in Hall. rewrite !length_app in Hall.
    cbn [length] in Hall. lia. }
  cbn [deliver]. unfold onData. rewrite Hlistening. cbn [negb].
  fold chunk. change (match chunk with [] => (st, None) | _ :: _ => ?x end) with x.
  rewrite Hsize.
  destruct (Z.gtb_spec (Z.of_nat (length p + length chunk)) (maxLineLength this)); [lia|].
  assert (Hlast : (if (length p =? 0)%nat then Ok 0
                   else Bytes.readUInt8 (buffer st) (Z.of_nat (length p) - 1))
                  = Ok (last_char 0 p)).
  { destruct p as [|a p]; [done|]. by apply readUInt8_last. }
  rewrite Hlast.
  destruct (copy_fits chunk (buffer st) p Htake Hroom) as (buf' & -> & Hlen' & Htake').
  destruct (scan_line_rest chunk (last_char 0 p) (concat chunks) ltac:(done) Hrest)
    as [[Hnil ->]|(Hmore & -> & Hrest')].
  - cbn [buffer bufferSize].
    rewrite Hnil, app_nil_r in Hall. rewrite <- length_app, Hall in *.
    rewrite (to_string_body buf' line [13; 10] Htake' eq_refl).
    destruct (parseCommandLine this (SMTPReplyParser.Buffer_toString line)) as [command|e] eqn:E.
    + rewrite deliver_deaf by done. eexists. split; [reflexivity|].
      cbn [promise cleanup]. rewrite Hpending. done.
    + rewrite deliver_deaf by done. eexists. split; [reflexivity|].
      cbn [promise cleanup]. rewrite Hpending. done.
  - apply (IH _ (p ++ chunk)).
    + repeat split; cbn [buffer bufferSize promise data_listener]; try done.
      * congruence.
      * by rewrite length_app.
    + by rewrite <- app_assoc.
    + by rewrite last_char_app.
    + done.
Qed.

(** X7: The streaming [parse] of the command parser does not depend on
    how the stream is cut into chunks: when the chunks together are one line
    (bytes below 0x80, no CR or LF) and its CRLF, within the line limit, no
    exception leaves the listener, the promise is settled with what
    [parseCommandLine] gives for that line, and the ['data'] listener and
    the timer are removed. *)
Theorem parse_resolves_line_in_any_chunks this line chunks :
  Forall line_byte line ->
  Z.of_nat (length line) + 2 <= maxLineLength this ->
  concat chunks = line ++ [13; 10] ->
  exists st, deliver this (parse this) chunks = (st, None)
    /\ promise st = settled_with (parseCommandLine this (SMTPReplyParser.Buffer_toString line))
    /\ data_listener st = false /\ timer_set st = false.
Proof.
  intros Hline Hfit Hall.
  apply (deliver_line this line chunks (parse this) []); try done.
  - apply holds_parse. lia.
  - rewrite Hall. apply line_rest_body; [|done].
    eapply Forall_impl; [exact Hline|]. by intros b (_ & ? & ?).
Qed.

Lemma parse_resolves_line_in_any_chunks_witness :
  exists st, deliver new_parser (parse new_parser) [[78; 79]; []; [79; 80; 13]; [10]] = (st, None)
    /\ promise st = Resolved (mkCommand (str "NOOP") None None None []).
Proof.
  destruct (parse_resolves_line_in_any_chunks new_parser [78; 79; 79; 80]
              [[78; 79]; []; [79; 80; 13]; [10]]) as (st & H1 & H2 & _).
  - repeat constructor; lia.
  - vm_compute. discriminate.
  - reflexivity.
  - exists st. split; [exact H1 | exact H2].
Defined.


Lemma last_char_cases d xs : last_char d xs = d \/ last_char d xs ∈ xs.
Proof.
  revert d. induction xs as [|x xs IH]; intros d; [by left|]. right. cbn [last_char].
  destruct (IH x) as [-> | H]; [by left | by right].
Qed.

Lemma open_line_last p :
  open_line p -> last_char 0 p = 13 -> exists body,
    Forall (fun b => b <> 13 /\ b <> 10) body /\ p = body ++ [13].
Proof.
  intros (body & Hbody & [-> | ->]) Hlast; [|by exists body].
  destruct (last_char_cases 0 body) as [H0 | Hin]; [lia|].
  rewrite Forall_forall in Hbody. destruct (Hbody _ Hin) as [H13 _]. done.
Qed.

Lemma open_line_not_last p :
  open_line p -> last_char 0 p <> 13 -> Forall (fun b => b <> 13 /\ b <> 10) p.
Proof.
  intros (body & Hbody & [-> | ->]) Hlast; [done|].
  rewrite last_char_app in Hlast. done.
Qed.

(** What the scan of a chunk says about the bytes held and the chunk. *)
Lemma scan_open c : forall p,
  open_line p ->
  match scan (last_char 0 p) c with
  | NoLineBreak => open_line (p ++ c)
  | LineBreak rest =>
      exists line, Forall (fun b => b <> 13 /\ b <> 10) line
                   /\ p ++ c = line ++ [13; 10] ++ rest
  | BadLineBreak => True
  end.
Proof.
  induction c as [|b c IH]; intros p Hp; cbn [scan].
  - by rewrite app_nil_r.
  - destruct (Z.eqb_spec (last_char 0 p) 13) as [Hlc|Hlc].
    + destruct (Z.eqb_spec b 10) as [->|Hb]; [|done]. cbn [negb andb orb].
      destruct (open_line_last p Hp Hlc) as (body & Hbody & ->).
      exists body. split; [done|]. by rewrite <- app_assoc.
    + destruct (Z.eqb_spec b 10) as [->|Hb]; [done|]. cbn [negb andb orb].
      pose proof (open_line_not_last p Hp Hlc) as Hclean.
      assert (Hp' : open_line (p ++ [b])).
      { destruct (Z.eq_dec b 13) as [->|Hb'].
        - exists p. split; [done | by right].
        - exists (p ++ [b]). split; [|by left]. apply Forall_app_2; [done|].
          by repeat constructor. }
      specialize (IH (p ++ [b]) Hp'). rewrite last_char_app in IH. cbn [last_char] in IH.
      rewrite <- !app_assoc in IH. exact IH.
Qed.

Lemma holds_room this st p : holds this st p -> (length p <= length (buffer st))%nat.
Proof.
  intros (_ & _ & Htake & _). apply (f_equal (@length Z)) in Htake.
  rewrite length_take in Htake. lia.
Qed.

Lemma deliver_sound this chunks : forall st p,
  0 <= maxLineLength this ->
  holds this st p -> open_line p ->
  (deliver this st chunks).2 = None
  /\ forall command, promise (deliver this st chunks).1 = Resolved command ->
       exists k line,
         p ++ concat (take k chunks) = line ++ [13; 10]
         /\ Forall (fun b => b <> 13 /\ b <> 10) line
         /\ parseCommandLine this (SMTPReplyParser.Buffer_toString line) = Ok command.
Proof.
  induction chunks as [|c chunks IH]; intros st p Hmax Hst Hp.
  { split; [done|]. intros command. cbn. destruct Hst as (_ & _ & _ & -> & _). done. }
  destruct c as [|b c].
  { rewrite deliver_empty_chunk. destruct (IH st p Hmax Hst Hp) as [H1 H2].
    split; [done|]. intros command Hc. destruct (H2 command Hc) as (k & line & Hk & Hl).
    by exists (S k), line. }
  set (chunk := b :: c) in *.
  pose proof (holds_room _ _ _ Hst) as Hroom.
  destruct Hst as (Hlen & Hsize & Htake & Hpending & Hlistening).
  cbn [deliver]. unfold onData. rewrite Hlistening. cbn [negb].
  fold chunk. change (match chunk with [] => (st, None) | _ :: _ => ?x end) with x.
  rewrite Hsize.
  destruct (Z.gtb_spec (Z.of_nat (length p + length chunk)) (maxLineLength this)).
  { rewrite deliver_deaf by done. cbn [fst snd promise cleanup]. rewrite Hpending.
    by split. }
  assert (Hlast : (if (length p =? 0)%nat then Ok 0
                   else Bytes.readUInt8 (buffer st) (Z.of_nat (length p) - 1))
                  = Ok (last_char 0 p)).
  { destruct p as [|a p]; [done|]. by apply readUInt8_last. }
  rewrite Hlast.
  destruct (copy_fits chunk (buffer st) p Htake ltac:(lia)) as (buf' & -> & Hlen' & Htake').
  pose proof (scan_open chunk p Hp) as Hscan.
  destruct (scan (last_char 0 p) chunk) as [| |rest].
  - destruct (IH {| buffer := buf'; bufferSize := length p + length chunk;
                    promise := promise st; data_listener := true;
                    error_listener := error_listener st; end_listener := end_listener st;
                    timer_set := timer_set st |} (p ++ chunk) Hmax) as [H1 H2].
    + repeat split; cbn [buffer bufferSize promise data_listener]; try done.
      * congruence.
      * by rewrite length_app.
    + done.
    + split; [done|]. intros command Hc.
      destruct (H2 command Hc) as (k & line & Hk & Hl). exists (S k), line.
      split; [|done]. cbn [take concat]. by rewrite app_assoc.
  - rewrite deliver_deaf by done. cbn [fst snd promise cleanup]. rewrite Hpending. by split.
  - destruct rest as [|x rest].
    + destruct Hscan as (line & Hline & Hall). cbn [app] in Hall. cbn [buffer bufferSize].
      rewrite <- length_app, Hall in *.
      rewrite (to_string_body buf' line [13; 10] Htake' eq_refl).
      destruct (parseCommandLine this (SMTPReplyParser.Buffer_toString line))
        as [command'|e] eqn:E.
      * rewrite deliver_deaf by done. cbn [fst snd promise cleanup]. rewrite Hpending.
        split; [done|]. intros command [= <-]. exists 1%nat, line.
        split; [|done]. cbn [take concat]. by rewrite take_0, app_nil_r.
      * rewrite deliver_deaf by done. cbn [fst snd promise cleanup]. rewrite Hpending.
        by split.
    + rewrite deliver_deaf by done. cbn [fst snd promise cleanup]. rewrite Hpending.
      by split.
Qed.

(** X8: For chunks of bytes below 0x80 no exception leaves the ['data']
    listener of the command parser, and its promise is resolved only with a
    complete line: some first chunks together are exactly a line without CR
    and LF followed by CRLF, and the command is what [parseCommandLine]
    returns for that line. *)
Theorem parse_resolves_only_complete_lines this chunks :
  0 <= maxLineLength this ->
  Forall (fun b => 0 <= b < 128) (concat chunks) ->
  (deliver this (parse this) chunks).2 = None
  /\ forall command, promise (deliver this (parse this) chunks).1 = Resolved command ->
       exists k line,
         concat (take k chunks) = line ++ [13; 10]
         /\ Forall line_byte line
         /\ parseCommandLine this (SMTPReplyParser.Buffer_toString line) = Ok command.
Proof.
  intros Hmax Hascii.
  destruct (deliver_sound this chunks (parse this) [] Hmax (holds_parse this Hmax))
    as [H1 H2].
  { exists []. split; [constructor | by left]. }
  split; [done|]. intros command Hc.
  destruct (H2 command Hc) as (k & line & Hk & Hline & Hparse). cbn [app] in Hk.
  exists k, line. split; [done|]. split; [|done].
  rewrite <- (take_drop k chunks), concat_app, Hk in Hascii.
  apply Forall_app in Hascii as [Hascii _]. apply Forall_app in Hascii as [Hascii _].
  apply Forall_forall. intros b Hb. rewrite Forall_forall in Hascii, Hline.
  destruct (Hline b Hb). split; [by apply Hascii | done].
Qed.

Lemma parse_resolves_only_complete_lines_witness :
  (deliver new_parser (parse new_parser) [[78; 79; 79; 80; 13; 10; 88]]).2 = None
  /\ promise (deliver new_parser (parse new_parser) [[78; 79; 79; 80; 13; 10; 88]]).1
     = Rejected OctetsAfterLineBreak.
Proof.
  split; [|vm_compute; reflexivity].
  apply (parse_resolves_only_complete_lines new_parser [[78; 79; 79; 80; 13; 10; 88]]).
  - vm_compute. discriminate.
  - repeat constructor; lia.
Defined.

End CommandInput.

Section ReplyLines.
Import JS SMTPReplyParser.




Lemma no_break_chars s :
  has_cr_or_lf s = false -> Forall (fun c => negb (is_cr_or_lf c) = true) s.
Proof.
  induction s as [|c s IH]; [constructor|]. cbn [has_cr_or_lf existsb].
  intros H. apply orb_false_iff in H as [Hc Hs]. constructor; [by rewrite Hc | by apply IH].
Qed.

Lemma no_break_chars_inv s :
  Forall (fun c => negb (is_cr_or_lf c) = true) s -> has_cr_or_lf s = false.
Proof.
  induction 1 as [|c s Hc _ IH]; [done|]. cbn [has_cr_or_lf existsb].
  apply negb_true_iff in Hc. rewrite Hc. exact IH.
Qed.





Lemma drop_while_snoc_cases p l h :
  drop_while p (l ++ [h])
  = match drop_while p l with
    | [] => if p h then [] else [h]
    | d => d ++ [h]
    end.
Proof.
  induction l as [|a l IH]; simpl; [done|]. destruct (p a); [exact IH | done].
Qed.

Lemma trimRight_cons h s :
  is_ws h = false -> trimRight (h :: s) = h :: trimRight s.
Proof.
  intros Hh. unfold trimRight. cbn [rev]. rewrite drop_while_snoc_cases, Hh.
  destruct (drop_while is_ws (rev s)) as [|d l]; [done|].
  by rewrite rev_app_distr.
Qed.

Lemma trimRight_head h s :
  trimRight (h :: s) = [] \/ exists t, trimRight (h :: s) = h :: t.
Proof.
  unfold trimRight. cbn [rev]. rewrite drop_while_snoc_cases.
  destruct (drop_while is_ws (rev s)) as [|d l].
  - destruct (is_ws h); [by left | right; by exists []].
  - right. rewrite rev_app_distr. by eexists.
Qed.

Lemma digit_not_ws c : is_digit c = true -> is_ws c = false.
Proof. destruct c as [[] [] [] [] [] [] [] []]; vm_compute; congruence. Qed.

Lemma is_2345_digit c : is_2345 c = true -> is_digit c = true.
Proof. destruct c as [[] [] [] [] [] [] [] []]; vm_compute; congruence. Qed.

(** X10: [parseReplyLine] reads three digits and an optional separator:
    when the character after the code is neither a hyphen nor a space, the
    rest of the line is dropped and the result is a last line with the code
    and an empty message, so that [2500 queued] is read as code 250. *)
Theorem parseReplyLine_drops_text_after_code this a b c x rest :
  is_2345 a && is_digit b && is_digit c = true ->
  x <> "-"%char -> x <> " "%char ->
  Z.of_nat (length (a :: b :: c :: x :: rest)) <= maxLineLength this ->
  has_cr_or_lf (trimRight (a :: b :: c :: x :: rest)) = false ->
  parseReplyLine this (a :: b :: c :: x :: rest)
  = Ok {| code := parseInt3 [a; b; c]; isLast := true; message := [] |}.
Proof.
  intros Hdigits Hx1 Hx2 Hlen Hbr. unfold parseReplyLine.
  destruct (Z.gtb_spec (Z.of_nat (length (a :: b :: c :: x :: rest))) (maxLineLength this));
    [lia|].
  assert (Hcr : has_crlf (trimRight (a :: b :: c :: x :: rest)) = false).
  { revert Hbr. generalize (trimRight (a :: b :: c :: x :: rest)). intros l.
    induction l as [|u l IH]; [done|]. cbn [has_cr_or_lf existsb]. intros Hul.
    apply orb_false_iff in Hul as [Hu Hl]. cbn [has_crlf]. destruct l as [|v l]; [done|].
    rewrite (IH Hl), orb_false_r.
    destruct (Ascii.eqb_spec u "013"%char) as [->|]; [done|]. done. }
  rewrite Hcr, Hbr.
  pose proof Hdigits as Hd. apply andb_true_iff in Hd as [Hd Hc].
  apply andb_true_iff in Hd as [Ha Hb]. apply is_2345_digit in Ha as Ha'.
  rewrite !trimRight_cons by (by apply digit_not_ws).
  unfold exec_reply_line. rewrite Hdigits.
  destruct (trimRight_head x rest) as [-> | [t ->]]; [done|].
  rewrite (proj2 (Ascii.eqb_neq _ _) Hx1), (proj2 (Ascii.eqb_neq _ _) Hx2). done.
Qed.

Lemma parseReplyLine_drops_text_after_code_witness :
  parseReplyLine new_parser (str "2500 queued" ++ CRLF)
  = Ok {| code := 250; isLast := true; message := [] |}.
Proof.
  apply (parseReplyLine_drops_text_after_code new_parser "2" "5" "0" "0"
           (str " queued" ++ CRLF)).
  - reflexivity.
  - discriminate.
  - discriminate.
  - vm_compute. discriminate.
  - vm_compute. reflexivity.
Defined.


(** *** [parseReply] on reply lines *)

Lemma last_cons_cons {A} (a b : A) l : last (a :: b :: l) = last (b :: l).
Proof. done. Qed.

Lemma reduce_tail_any : forall l len idx c m acc,
  (0 < idx)%nat -> len = (idx + length l)%nat ->
  (l <> [] -> only_last_isLast l) ->
  reduce len idx (mkReply (Some c) (Some m) (Some acc)) l
  = Ok (mkReply (Some (from_option code c (last l))) (Some m) (Some (acc ++ map message l))).
Proof.
  induction l as [|rl l IH]; intros len idx c m acc Hidx Hlen Hlast.
  - simpl. by rewrite app_nil_r.
  - specialize (Hlast ltac:(done)).
    cbn [reduce]. unfold reduce_step. cbn [reply_code reply_message reply_lines].
    destruct (Nat.eqb_spec idx 0) as [->|_]; [lia|].
    cbn [reply_code reply_message reply_lines].
    destruct l as [|rl' l].
    + cbn [only_last_isLast] in Hlast. rewrite Hlast. cbn [length] in *.
      rewrite (proj2 (Z.eqb_eq _ _)) by lia.
      simpl. done.
    + destruct Hlast as [Hfalse Hlast]. rewrite Hfalse. cbn [length] in *.
      rewrite (proj2 (Z.eqb_neq _ _)) by lia.
      cbn [negb andb bind].
      rewrite (IH _ (S idx) (code rl) m (acc ++ [message rl])); try done; try lia.
      rewrite last_cons_cons. cbn [map]. rewrite <- app_assoc.
      destruct (last (rl' :: l)) eqn:E; [done|]. by apply last_None in E.
Qed.

Lemma reduce_premature : forall l len idx memo,
  len = (idx + length l)%nat ->
  Exists (fun rl => isLast rl = true) (removelast l) ->
  reduce len idx memo l = Throw ReplyPrematureEnd.
Proof.
  induction l as [|rl l IH]; intros len idx memo Hlen Hex; [by inversion Hex|].
  destruct l as [|rl' l]; [by inversion Hex|].
  cbn [reduce]. unfold reduce_step. cbn [length] in Hlen.
  rewrite (proj2 (Z.eqb_neq _ _)) by lia.
  destruct (isLast rl) eqn:Hrl; [done|]. cbn [negb andb bind].
  apply IH; [cbn [length]; lia|].
  change (removelast (rl :: rl' :: l)) with (rl :: removelast (rl' :: l)) in Hex.
  inversion Hex as [? ? H|? ? H]; subst; [congruence | done].
Qed.

Lemma reduce_unterminated : forall l len idx memo,
  len = (idx + length l)%nat -> l <> [] ->
  Forall (fun rl => isLast rl = false) l ->
  reduce len idx memo l = Throw ReplyUnterminated.
Proof.
  induction l as [|rl l IH]; intros len idx memo Hlen Hne Hall; [done|].
  inversion Hall as [|? ? Hrl Hall']; subst.
  cbn [reduce]. unfold reduce_step. rewrite Hrl. cbn [negb andb length] in *.
  destruct l as [|rl' l].
  - cbn [length]. rewrite (proj2 (Z.eqb_eq _ _)) by (cbn [length]; lia). done.
  - rewrite (proj2 (Z.eqb_neq _ _)) by (cbn [length]; lia). cbn [bind].
    apply IH; [cbn [length] in *; lia | done | done].
Qed.

(** X11: [parseReply] on reply lines looks at the last-line marks only:
    when the final line and no other is marked as last, it succeeds with
    the code of the FINAL line (the codes of the lines are not compared),
    the first message and all messages in order; a mark on an earlier line
    is the premature-end error, no mark at all the unterminated-reply
    error, and no line the error for an empty reply. *)
Theorem parseReply_outcome this x :
  (only_last_isLast x ->
   parseReply this (InLines x)
   = Ok (mkReply (code <$> last x) (hd_error (map message x)) (Some (map message x))))
  /\ (Exists (fun rl => isLast rl = true) (removelast x) ->
      parseReply this (InLines x) = Throw ReplyPrematureEnd)
  /\ (x <> [] -> Forall (fun rl => isLast rl = false) x ->
      parseReply this (InLines x) = Throw ReplyUnterminated)
  /\ parseReply this (InLines []) = Throw ReplyNoLines.
Proof.
  split; [|split; [|split]]; [| | |done].
  - intros Hlast. destruct x as [|rl l]; [done|].
    unfold parseReply. cbn [bind reduce]. unfold reduce_step.
    cbn [reply_code reply_message reply_lines Nat.eqb].
    destruct l as [|rl' l].
    + cbn [only_last_isLast] in Hlast. rewrite Hlast. simpl. done.
    + destruct Hlast as [Hfalse Hlast]. rewrite Hfalse. cbn [length].
      rewrite (proj2 (Z.eqb_neq _ _)) by lia.
      cbn [negb andb bind].
      rewrite (reduce_tail_any (rl' :: l) _ 1 (code rl) (message rl) [message rl]);
        try done; try lia.
      rewrite last_cons_cons.
      destruct (last (rl' :: l)) eqn:E; [done|].
      by apply last_None in E.
  - intros Hex. destruct x as [|rl l]; [by inversion Hex|].
    unfold parseReply. cbn [bind]. by apply reduce_premature.
  - intros Hne Hall. destruct x as [|rl l]; [done|].
    unfold parseReply. cbn [bind]. by apply reduce_unterminated.
Qed.

(** *** [parseReply] on a string *)

Lemma split_crlf_terminated n : forall s cur,
  (length s <= n)%nat -> exists l, split_crlf cur (s ++ CRLF) = l ++ [[]].
Proof.
  induction n as [|n IH]; intros s cur Hn.
  - destruct s; [|simpl in Hn; lia]. exists [cur]. done.
  - destruct s as [|c s]; [exists [cur]; done|].
    cbn [app split_crlf].
    destruct (s ++ CRLF) as [|d s''] eqn:E; [by destruct s|].
    destruct (Ascii.eqb c "013" && Ascii.eqb d "010") eqn:Hcd.
    + destruct s as [|d' s'].
      * cbn in E. injection E as <- <-. apply andb_true_iff in Hcd as [_ Hd]. done.
      * cbn [app] in E. injection E as <- <-.
        destruct (IH s' [] ltac:(cbn [length] in Hn; lia)) as [l ->].
        by exists (cur :: l).
    + rewrite <- E. apply IH. cbn [length] in Hn. lia.
Qed.

Lemma map_parseReplyLine_empty_last this l :
  exists e, map_parseReplyLine this (l ++ [[]]) = Throw e.
Proof.
  induction l as [|a l [e IH]]; cbn [app map_parseReplyLine].
  - by exists ReplyLineEmpty.
  - destruct (parseReplyLine this a) as [rl|e']; [|by exists e'].
    cbn [bind]. rewrite IH. by exists e.
Qed.

Lemma render_lines_terminated this c : forall lines len idx memo out,
  render_lines this c len idx memo lines = Ok out ->
  (lines = [] /\ out = memo) \/ exists s, out = s ++ CRLF.
Proof.
  induction lines as [|line lines IH]; intros len idx memo out; cbn [render_lines].
  - intros [= <-]. by left.
  - unfold render_line at 1.
    destruct (Z.of_nat (length _) >? maxLineLength this); [done|]. cbn [bind].
    intros H. right. destruct (IH _ _ _ _ H) as [[-> ->]|[s ->]]; [|by exists s].
    rewrite !app_assoc. by eexists.
Qed.

(** X12: [parseReply] on a string splits at CRLF and parses every part,
    also the empty part behind a final CRLF: every string that ends with
    CRLF is rejected, and so is every string that [serializeReply]
    returns. *)
Theorem parseReply_rejects_terminated_text this :
  (forall s, exists e, parseReply this (InString (s ++ CRLF)) = Throw e)
  /\ (forall reply out, (serializeReply this reply).1 = Ok out ->
        exists e, parseReply this (InString out) = Throw e).
Proof.
  assert (H : forall s, exists e, parseReply this (InString (s ++ CRLF)) = Throw e).
  { intros s. unfold parseReply.
    destruct (split_crlf_terminated (length s) s [] ltac:(done)) as [l ->].
    destruct (map_parseReplyLine_empty_last this l) as [e ->]. by exists e. }
  split; [exact H|]. intros reply out. unfold serializeReply.
  destruct reply as [reply|]; [|done].
  destruct (negb (truthy_number (reply_code reply))); [done|].
  destruct (_ && _); [done|]. cbn [fst]. intros Hout.
  destruct (render_lines_terminated _ _ _ _ _ _ _ Hout) as [[_ ->]|[s ->]]; [|apply H].
  by exists ReplyLineEmpty.
Qed.

End ReplyLines.

Section ReplyStream.
Import JS SMTPReplyParser.
Import SMTPClient (Buffer_from).

Lemma deliver_reply_deaf this chunks : forall st,
  listening st = false -> deliver_reply this st chunks = (st, None).
Proof.
  induction chunks as [|c chunks IH]; intros st Hst; [done|].
  cbn [deliver_reply]. unfold onData. rewrite Hst. by apply IH.
Qed.

Lemma scan_reply_app this a : forall cur lines b,
  scan_reply this cur lines (a ++ b)
  = match scan_reply this cur lines a with
    | Running cur' lines' => scan_reply this cur' lines' b
    | Failed e => Failed e
    | Final lines' rest => Final lines' (rest ++ b)
    end.
Proof.
  induction a as [|x a IH]; intros cur lines b; [done|]. cbn [app scan_reply].
  destruct (Z.of_nat (length cur) >=? maxLineLength this); [done|].
  destruct (x =? 10); [|apply IH].
  destruct (parseReplyLine this _) as [rl|e]; [|done].
  destruct (isLast rl); [done | apply IH].
Qed.

Lemma take_written (buf : list Z) n b cur :
  take n buf = cur -> (n < length buf)%nat ->
  take (S n) (<[n := b]> buf) = cur ++ [b].
Proof.
  intros <- Hn. rewrite (take_S_r _ _ b) by (by apply list_lookup_insert_eq).
  by rewrite take_insert_ge.
Qed.

(** The loop of the ['data'] listener follows the scan. *)
Lemma onData_loop_scan this s : forall st cur lines,
  0 <= maxLineLength this ->
  reading this st cur lines ->
  match scan_reply this cur lines s with
  | Running cur' lines' =>
      exists st', onData_loop this st s = (st', None) /\ reading this st' cur' lines'
  | Failed e =>
      exists st', onData_loop this st s = (st', None)
                  /\ promise st' = Rejected e /\ listening st' = false
  | Final lines' [] =>
      exists st', onData_loop this st s = (st', None)
                  /\ promise st' = settled_reply (parseReply this (InLines lines'))
                  /\ listening st' = false
  | Final lines' (_ :: _) =>
      exists st', onData_loop this st s = (st', Some ReplyOverhead)
  end.
Proof.
  induction s as [|b s IH]; intros st cur lines Hmax Hst; cbn [scan_reply onData_loop].
  { by exists st. }
  destruct Hst as (Hlen & Hsize & Htake & Hlines & Hpending & Hlistening).
  rewrite Hsize.
  destruct (Z.geb_spec (Z.of_nat (length cur)) (maxLineLength this)) as [|Hroom].
  { eexists. split; [reflexivity|]. cbn [promise listening cleanup]. by rewrite Hpending. }
  cbn [currentLine lineLength replyLines promise listening timer_set].
  assert (Hwritten : take (S (length cur)) (<[length cur := b]> (currentLine st)) = cur ++ [b]).
  { apply take_written; [done | lia]. }
  destruct (Z.eqb_spec b 10) as [->|Hb].
  - rewrite Hwritten.
    destruct (parseReplyLine this (Buffer_toString (cur ++ [10]))) as [rl|e].
    + destruct (isLast rl).
      * destruct s as [|x s].
        -- eexists. split; [reflexivity|]. cbn [promise listening cleanup replyLines].
           by rewrite Hpending, Hlines.
        -- by eexists.
      * rewrite Hlines. apply IH; [done|]. repeat split; try done.
        cbn [currentLine]. by rewrite length_insert.
    + eexists. split; [reflexivity|]. cbn [promise listening cleanup]. by rewrite Hpending.
  - apply IH; [done|]. repeat split; cbn [currentLine lineLength replyLines]; try done.
    + by rewrite length_insert.
    + rewrite length_app. cbn [length]. lia.
    + rewrite length_app. cbn [length]. replace (length cur + 1)%nat with (S (length cur)) by lia.
      done.
Qed.

Lemma reading_parse this : 0 <= maxLineLength this -> reading this (parse this) [] [].
Proof. intros H. repeat split. cbn. by rewrite length_replicate. Qed.

(** The delivery of chunks follows the scan of their concatenation. *)
Lemma deliver_reply_scan this chunks : forall st cur lines,
  0 <= maxLineLength this ->
  reading this st cur lines ->
  match scan_reply this cur lines (concat chunks) with
  | Running cur' lines' =>
      exists st', deliver_reply this st chunks = (st', None) /\ reading this st' cur' lines'
  | Failed e =>
      exists st', deliver_reply this st chunks = (st', None)
                  /\ promise st' = Rejected e /\ listening st' = false
  | Final lines' [] =>
      exists st', deliver_reply this st chunks = (st', None)
                  /\ promise st' = settled_reply (parseReply this (InLines lines'))
                  /\ listening st' = false
  | Final _ (_ :: _) => True
  end.
Proof.
  induction chunks as [|c chunks IH]; intros st cur lines Hmax Hst.
  { by exists st. }
  cbn [concat deliver_reply]. rewrite scan_reply_app.
  pose proof (onData_loop_scan this c st cur lines Hmax Hst) as Hc.
  unfold onData. destruct Hst as (_ & _ & _ & _ & _ & Hlistening). rewrite Hlistening.
  destruct (scan_reply this cur lines c) as [cur' lines'|e|lines' rest].
  - destruct Hc as (st' & -> & Hst'). by apply IH.
  - destruct Hc as (st' & -> & Hp & Hl). exists st'. by rewrite deliver_reply_deaf.
  - destruct rest as [|x rest]; [|done]. cbn [app].
    destruct (concat chunks); [|done].
    destruct Hc as (st' & -> & Hp & Hl). exists st'. by rewrite deliver_reply_deaf.
Qed.

Lemma scan_reply_plain this bs : forall cur lines rest,
  Forall (fun b => b <> 10) bs ->
  Z.of_nat (length cur + length bs) <= maxLineLength this ->
  scan_reply this cur lines (bs ++ rest) = scan_reply this (cur ++ bs) lines rest.
Proof.
  induction bs as [|b bs IH]; intros cur lines rest Hbs Hfit.
  - by rewrite app_nil_r.
  - inversion Hbs as [|? ? Hb Hbs']; subst. cbn [app scan_reply].
    destruct (Z.geb_spec (Z.of_nat (length cur)) (maxLineLength this)) as [|_];
      [cbn [length] in Hfit; lia|].
    rewrite (proj2 (Z.eqb_neq _ _) Hb).
    rewrite (IH (cur ++ [b]) lines rest Hbs').
    + by rewrite <- app_assoc.
    + rewrite length_app. cbn [length] in *. lia.
Qed.

(** X13: The streaming reply parser bounds a line: when the stream holds
    more bytes than the line limit and no LF among them, then, in whatever
    chunks the bytes arrive, the promise is rejected with the line-limit
    error, no exception leaves the listener and the listeners are
    removed. *)
Theorem parse_rejects_long_reply_line this chunks :
  0 <= maxLineLength this ->
  Forall (fun b => b <> 10) (concat chunks) ->
  maxLineLength this < Z.of_nat (length (concat chunks)) ->
  exists st, deliver_reply this (parse this) chunks = (st, None)
    /\ promise st = Rejected ReplyLineLimit /\ listening st = false.
Proof.
  intros Hmax Hplain Hlong.
  pose proof (deliver_reply_scan this chunks (parse this) [] [] Hmax (reading_parse this Hmax))
    as H.
  assert (Hscan : forall s, Forall (fun b => b <> 10) s ->
            maxLineLength this < Z.of_nat (length s) ->
            scan_reply this [] [] s = Failed ReplyLineLimit).
  { intros s Hs Hl. set (n := Z.to_nat (maxLineLength this)).
    assert (Ha : length (take n s) = n) by (rewrite length_take; lia).
    assert (Hb : drop n s <> []).
    { intros Hd. apply (f_equal (@length Z)) in Hd. rewrite length_drop in Hd.
      cbn [length] in Hd. lia. }
    rewrite <- (take_drop n s) in Hs |- *. apply Forall_app in Hs as [Hpa _].
    rewrite (scan_reply_plain this (take n s) [] [] (drop n s) Hpa) by (cbn [length]; lia).
    destruct (drop n s) as [|x b]; [done|]. cbn [app scan_reply].
    destruct (Z.geb_spec (Z.of_nat (length (take n s))) (maxLineLength this)); [done|lia]. }
  rewrite (Hscan _ Hplain Hlong) in H. exact H.
Qed.

Lemma parse_rejects_long_reply_line_witness :
  exists st, deliver_reply new_parser (parse new_parser)
               [replicate 300 97; replicate 213 97] = (st, None)
    /\ promise st = Rejected ReplyLineLimit /\ listening st = false.
Proof.
  apply (parse_rejects_long_reply_line new_parser [replicate 300 97; replicate 213 97]).
  - vm_compute. discriminate.
  - cbn [concat]. rewrite app_nil_r. apply Forall_app_2; apply Forall_replicate; lia.
  - vm_compute. reflexivity.
Defined.


(** *** A serialized reply on the stream *)

Lemma Forall_trim (P : ascii -> Prop) s : Forall P s -> Forall P (trim s).
Proof.
  intros H. unfold trim, trimRight, trimLeft.
  assert (Hd : forall t, Forall P t -> Forall P (drop_while is_ws t)).
  { intros t Ht. rewrite <- (take_drop_while is_ws t) in Ht. by apply Forall_app in Ht as [_ ?]. }
  apply Forall_rev, Hd, Forall_rev, Hd, H.
Qed.

Lemma Buffer_toString_from s : Buffer_toString (Buffer_from s) = s.
Proof.
  unfold Buffer_toString, Buffer_from. rewrite map_map. rewrite <- (map_id s) at 2.
  apply map_ext. intros c. by rewrite Nat2Z.id, ascii_nat_embedding.
Qed.

Lemma Buffer_from_no_LF s :
  has_cr_or_lf s = false -> Forall (fun b => b <> 10) (Buffer_from s).
Proof.
  intros H. apply no_break_chars in H. unfold Buffer_from. apply Forall_map.
  eapply Forall_impl; [exact H|]. intros c Hc Heq. cbn in Heq.
  assert (c = "010"%char) as ->; [|done].
  assert (Hn : nat_of_ascii c = 10%nat) by lia.
  rewrite <- (ascii_nat_embedding c), Hn. reflexivity.
Qed.

Lemma no_break_no_crlf s : has_cr_or_lf s = false -> has_crlf s = false.
Proof.
  induction s as [|u l IH]; [done|]. cbn [has_cr_or_lf existsb]. intros Hul.
  apply orb_false_iff in Hul as [Hu Hl]. cbn [has_crlf]. destruct l as [|v l]; [done|].
  rewrite (IH Hl), orb_false_r.
  destruct (Ascii.eqb_spec u "013"%char) as [->|]; [done|]. done.
Qed.

(** The decimal form of a reply code has three digits, the first of 2..5,
    and is read back as the code. *)
Lemma code_string c :
  200 <= c <= 599 ->
  exists a b d, Number_toString c = [a; b; d]
    /\ is_2345 a && is_digit b && is_digit d = true
    /\ parseInt3 [a; b; d] = c.
Proof.
  intros Hc.
  assert (Hall : forallb (fun c =>
            match Number_toString c with
            | [a; b; d] => is_2345 a && is_digit b && is_digit d && (parseInt3 [a; b; d] =? c)
            | _ => false
            end) (map (fun k => 200 + Z.of_nat k) (seq 0 400)) = true)
    by (vm_compute; reflexivity).
  rewrite forallb_forall in Hall. specialize (Hall c).
  destruct (Number_toString c) as [|a [|b [|d [|]]]];
    try (discriminate Hall; apply in_map_iff; exists (Z.to_nat (c - 200));
         split; [lia | apply in_seq; lia]).
  exists a, b, d. split; [done|].
  assert (Hin : In c (map (fun k => 200 + Z.of_nat k) (seq 0 400))).
  { apply in_map_iff. exists (Z.to_nat (c - 200)). split; [lia | apply in_seq; lia]. }
  specialize (Hall Hin). apply andb_true_iff in Hall as [H1 H2].
  split; [done|]. by apply Z.eqb_eq.
Qed.

Lemma parseReplyLine_nonempty this input :
  input <> [] ->
  parseReplyLine this input
  = if Z.of_nat (length input) >? maxLineLength this then Throw ReplyInputTooLong
    else if has_crlf (trimRight input) then Throw ReplyLineHasCRLF
    else if has_cr_or_lf (trimRight input) then Throw ReplyLineHasBareBreak
    else match exec_reply_line (trimRight input) with
         | None => Throw ReplyLineInvalid
         | Some (digits, sep, msg) =>
             Ok {| code := parseInt3 digits;
                   isLast := match sep with
                             | Some c => negb (Ascii.eqb c "-"%char)
                             | None => true
                             end;
                   message := match msg with Some m => m | None => [] end |}
         end.
Proof. by destruct input. Qed.

Lemma parseReplyLine_wire this c (final : bool) m eol :
  200 <= c <= 599 -> has_cr_or_lf m = false ->
  Forall (fun x => is_ws x = true) eol ->
  Z.of_nat (length (Number_toString c) + 1 + length (trim m) + length eol)
    <= maxLineLength this ->
  parseReplyLine this
    (Number_toString c ++ (if final then str " " else str "-") ++ trim m ++ eol)
  = Ok (mkReplyLine c final (trim m)).
Proof.
  intros Hc Hbr Heol Hfit.
  destruct (code_string c Hc) as (a & b & d & Hs & Hdigits & Hint). rewrite Hs in *.
  assert (Ht : has_cr_or_lf (trim m) = false).
  { apply no_break_chars_inv, Forall_trim. by apply no_break_chars. }
  pose proof (trim_no_trailing_ws m) as Htrail.
  set (t := trim m) in *. clearbody t.
  pose proof Hdigits as Hd. apply andb_true_iff in Hd as [Hd Hd3].
  apply andb_true_iff in Hd as [Hd1 Hd2]. apply is_2345_digit in Hd1.
  assert (Hstrip : trimRight ([a; b; d] ++ (if final then str " " else str "-") ++ t ++ eol)
                   = a :: b :: d :: (if final then match t with [] => [] | _ => " "%char :: t end
                                     else "-"%char :: t)).
  { cbn [app]. rewrite !trimRight_cons by (by apply digit_not_ws). do 3 f_equal.
    destruct final.
    - change (str " " ++ t ++ eol) with ((" "%char :: t) ++ eol).
      rewrite trimRight_app_ws by done.
      destruct t as [|x t]; [done|]. apply trimRight_id.
      change (no_trailing_ws ([" "%char] ++ x :: t)). by apply no_trailing_ws_app.
    - change (str "-" ++ t ++ eol) with ("-"%char :: t ++ eol).
      rewrite trimRight_cons by done. f_equal.
      rewrite trimRight_app_ws by done. by apply trimRight_id. }
  rewrite parseReplyLine_nonempty by done.
  match goal with |- context [Z.of_nat (length ?l) >? _] =>
    assert (Hl : Z.of_nat (length l) <= maxLineLength this)
  end.
  { rewrite !length_app.
    destruct final; cbn [length str list_ascii_of_string] in *; lia. }
  destruct (Z.gtb_spec (Z.of_nat (length
     ([a; b; d] ++ (if final then str " " else str "-") ++ t ++ eol))) (maxLineLength this));
    [lia|].
  rewrite Hstrip.
  assert (Hdb : forall x, is_digit x = true -> is_cr_or_lf x = false).
  { intros x Hx. by apply not_ws_not_break, digit_not_ws. }
  assert (Hnb : has_cr_or_lf
            (a :: b :: d :: (if final then match t with [] => [] | _ => " "%char :: t end
                             else "-"%char :: t)) = false).
  { cbn [has_cr_or_lf existsb]. rewrite !Hdb by done. cbn [orb].
    destruct final.
    - destruct t as [|x t']; [done|].
      change (is_cr_or_lf " " || has_cr_or_lf (x :: t') = false). by rewrite Ht.
    - change (is_cr_or_lf "-" || has_cr_or_lf t = false). by rewrite Ht. }
  rewrite (no_break_no_crlf _ Hnb), Hnb.
  unfold exec_reply_line. rewrite Hdigits.
  destruct final.
  - destruct t as [|x t'] eqn:Et; [by rewrite Hint|].
    change (Ascii.eqb " " "-" || Ascii.eqb " " " ") with true.
    cbn iota. rewrite (take_while_all _ _ (no_break_chars _ Ht)). by rewrite Hint.
  - change (Ascii.eqb "-" "-" || Ascii.eqb "-" " ") with true. cbn iota.
    rewrite (take_while_all _ _ (no_break_chars _ Ht)). by rewrite Hint.
Qed.

Lemma wire_reply_lines_consistent c msgs :
  msgs <> [] ->
  consistent_reply c (wire_reply_lines c msgs)
  /\ map message (wire_reply_lines c msgs) = map trim msgs.
Proof.
  intros Hne. split; [split|].
  - clear Hne. induction msgs as [|m msgs IH]; constructor; done.
  - induction msgs as [|m msgs IH]; [done|]. cbn [wire_reply_lines only_last_isLast].
    destruct msgs as [|m' msgs]; [done|]. split; [done|]. by apply IH.
  - clear Hne. induction msgs as [|m msgs IH]; [done|]. cbn [wire_reply_lines map].
    by rewrite IH.
Qed.

Lemma scan_reply_wire this c : forall msgs lines,
  200 <= c <= 599 ->
  msgs <> [] ->
  Forall (fun m => has_cr_or_lf m = false) msgs ->
  Forall (line_fits this c) msgs ->
  scan_reply this [] lines (Buffer_from (wire_lines (Number_toString c) msgs))
  = Final (lines ++ wire_reply_lines c msgs) [].
Proof.
  induction msgs as [|m msgs IH]; intros lines Hc Hne Hbr Hfit; [done|].
  inversion Hbr as [|? ? Hm Hbr']; subst. inversion Hfit as [|? ? Hf Hfit']; subst.
  set (final := match msgs with [] => true | _ => false end).
  set (text := Number_toString c ++ (if final then str " " else str "-") ++ trim m).
  assert (Hwire : Buffer_from (wire_lines (Number_toString c) (m :: msgs))
                  = Buffer_from text ++ [13] ++ 10 :: Buffer_from (wire_lines (Number_toString c) msgs)).
  { unfold text, final, Buffer_from. cbn [wire_lines]. destruct msgs as [|m' msgs].
    - rewrite !map_app. cbn. by rewrite <- !app_assoc.
    - rewrite !map_app. cbn [map CRLF app]. by rewrite <- !app_assoc. }
  rewrite Hwire.
  assert (Hparse : parseReplyLine this (text ++ CRLF) = Ok (mkReplyLine c final (trim m))).
  { unfold text. rewrite <- !app_assoc.
    apply parseReplyLine_wire; [done | done | repeat constructor | exact Hf]. }
  assert (Hlen : Z.of_nat (length text) + 2 <= maxLineLength this).
  { unfold line_fits in Hf. unfold text. rewrite !length_app.
    destruct final; cbn [length str list_ascii_of_string]; lia. }
  assert (Hplain : Forall (fun b => b <> 10) (Buffer_from text ++ [13])).
  { apply Forall_app_2; [|by repeat constructor]. apply Buffer_from_no_LF.
    destruct (code_string c Hc) as (a & b & d & Hs & Hdigits & _).
    unfold text. rewrite Hs. apply andb_true_iff in Hdigits as [Hd Hd3].
    apply andb_true_iff in Hd as [Hd1 Hd2]. apply is_2345_digit in Hd1.
    assert (Hdb : forall x, is_digit x = true -> is_cr_or_lf x = false).
    { intros x Hx. by apply not_ws_not_break, digit_not_ws. }
    assert (Ht : has_cr_or_lf (trim m) = false).
    { apply no_break_chars_inv, Forall_trim. by apply no_break_chars. }
    cbn [app has_cr_or_lf existsb]. rewrite !Hdb by done. cbn [orb].
    unfold has_cr_or_lf in *. rewrite existsb_app, Ht. by destruct final. }
  rewrite app_assoc, scan_reply_plain; [|done|].
  2:{ rewrite length_app. unfold Buffer_from. rewrite length_map. cbn [length]. lia. }
  cbn [app scan_reply].
  destruct (Z.geb_spec (Z.of_nat (length (Buffer_from text ++ [13]))) (maxLineLength this)) as [Hge|_].
  { rewrite length_app in Hge. unfold Buffer_from in Hge. rewrite length_map in Hge.
    cbn [length] in Hge. lia. }
  change (10 =? 10) with true. cbn iota.
  replace ((Buffer_from text ++ [13]) ++ [10]) with (Buffer_from (text ++ CRLF)).
  2:{ unfold Buffer_from. rewrite map_app, <- app_assoc. done. }
  rewrite Buffer_toString_from, Hparse. cbn [isLast wire_reply_lines].
  fold final. destruct msgs as [|m' msgs].
  - done.
  - subst final. cbn iota.
    rewrite (IH (lines ++ [mkReplyLine c false (trim m)])); try done.
    by rewrite <- app_assoc.
Qed.

(** X14: What [serializeReply] writes, the streaming reply parser reads:
    for a reply with a code from 200 to 599 and messages (code units below
    0x80, no CR or LF) whose lines fit the line limit, [serializeReply]
    succeeds, and its bytes, delivered in any chunks, resolve the promise
    of [parse] with the same code and the trimmed messages as message and
    lines. *)
Theorem parse_resolves_serialized_reply this c msgs :
  200 <= c <= 599 ->
  msgs <> [] ->
  Forall (fun m => ascii_only m /\ has_cr_or_lf m = false) msgs ->
  Forall (line_fits this c) msgs ->
  exists out,
    (serializeReply this (Some (mkReply (Some c) None (Some msgs)))).1 = Ok out
    /\ forall chunks,
         concat chunks = Buffer_from out ->
         exists st, deliver_reply this (parse this) chunks = (st, None)
           /\ promise st
              = Resolved (mkReply (Some c) (hd_error (map trim msgs)) (Some (map trim msgs)))
           /\ listening st = false.
Proof.
  intros Hc Hne Hmsgs Hfit.
  exists (wire_lines (Number_toString c) msgs). split.
  - unfold serializeReply. cbn [reply_code reply_message reply_lines truthy_number].
    rewrite (proj2 (Z.eqb_neq _ _)) by lia. cbn [negb].
    destruct msgs as [|m msgs]; [done|]. cbn [andb truthy_string fst].
    by rewrite (render_lines_wire this c _ _ 0 []).
  - intros chunks Hchunks.
    assert (Hmax : 0 <= maxLineLength this).
    { destruct msgs as [|m msgs]; [done|]. inversion Hfit as [|? ? Hf _]; subst.
      unfold line_fits in Hf. lia. }
    pose proof (deliver_reply_scan this chunks (parse this) [] [] Hmax
                  (reading_parse this Hmax)) as H.
    rewrite Hchunks, scan_reply_wire in H; try done.
    2:{ eapply Forall_impl; [exact Hmsgs|]. by intros m [_ ?]. }
    cbn [app] in H. destruct H as (st & Hst & Hp & Hl). exists st.
    split; [done|]. split; [|done]. rewrite Hp.
    destruct (wire_reply_lines_consistent c msgs Hne) as [Hcons Hmap].
    rewrite (parseReply_consistent this c _ Hcons), Hmap. done.
Qed.

Lemma parse_resolves_serialized_reply_witness :
  exists st,
    deliver_reply new_parser (parse new_parser)
      [Buffer_from (str "250-BEG"); Buffer_from (str "IN" ++ CRLF ++ str "250 END" ++ CRLF)]
    = (st, None)
    /\ promise st = Resolved (mkReply (Some 250) (Some (str "BEGIN"))
                                (Some [str "BEGIN"; str "END"])).
Proof.
  destruct (parse_resolves_serialized_reply new_parser 250 [str "BEGIN"; str " END"])
    as (out & Hout & Hparse).
  - lia.
  - discriminate.
  - repeat constructor.
  - repeat constructor; vm_compute; discriminate.
  - assert (Hwire : out = str "250-BEGIN" ++ CRLF ++ str "250 END" ++ CRLF).
    { vm_compute in Hout. by injection Hout as <-. }
    subst out.
    destruct (Hparse [Buffer_from (str "250-BEG");
                      Buffer_from (str "IN" ++ CRLF ++ str "250 END" ++ CRLF)])
      as (st & H1 & H2 & _); [reflexivity|].
    exists st. split; [exact H1 | exact H2].
Defined.




End ReplyStream.

Section ClientCommands.
Import JS SMTPCmdLineParser SMTPClient.

(** The command parsed from a line is serialized as its canonical line,
    which has no line break and parses to the same command. *)
Lemma parsed_command_canonical this line c :
  parseCommandLine this line = Ok c ->
  verb c <> [] ->
  Forall (fun p => p <> ParamObj []) (params c) ->
  Z.of_nat (length (canonical_line c)) + 2 <= maxLineLength this ->
  serializeCommand this (Some c) = Ok (canonical_line c ++ CRLF)
  /\ parseCommandLine this (canonical_line c) = Ok c
  /\ has_cr_or_lf (canonical_line c) = false.
Proof.
  intros Hparse Hverb Hproto Hfits.
  destruct (parseCommandLine_inv _ _ _ Hparse)
    as (v & parts & d & rp & fp & parts' & Hchecks & Hsplit & Harg & ->).
  cbn [verb params] in Hverb, Hproto.
  pose proof (split_trim_tokens _ _ _ Hsplit Hverb) as Htoks.
  destruct (parse_verb_argument_canonical _ _ _ _ _ _ (map parse_param parts') Htoks Harg)
    as (Hargs & Hparts' & Hreparse & Hrender).
  set (c := mkCommand v d rp fp (map parse_param parts')) in *.
  assert (Hcanon : canonical_line c = join (str " ") (v :: argument_tokens c ++ parts')).
  { unfold canonical_line. cbn [verb params c].
    by rewrite (proj1 (render_params [] parts' Hparts' Hproto)). }
  assert (Hall : Forall is_token (v :: argument_tokens c ++ parts')).
  { inversion Htoks; subst. constructor; [done|]. by apply Forall_app_2. }
  destruct (join_ws_free_parts _ _ Hall) as (Hlead & Htrail & Hbreak).
  assert (Hne : canonical_line c <> []).
  { rewrite Hcanon, join_cons. by destruct v. }
  rewrite <- Hcanon in Hlead, Htrail, Hbreak.
  split; [|split; [|done]].
  - unfold serializeCommand. destruct (verb c) eqn:Ev; [done|]. cbn [is_empty].
    rewrite Hrender. cbn [bind]. cbn [params c].
    rewrite (proj2 (render_params _ parts' Hparts' Hproto)).
    rewrite join_cons, <- app_assoc, <- concat_app, <- map_app, <- join_cons, <- Hcanon.
    rewrite (trim_id _ Hlead Htrail).
    destruct (Z.gtb_spec (Z.of_nat (length (canonical_line c ++ CRLF))) (maxLineLength this));
      [|done].
    rewrite length_app in *. simpl length in *. lia.
  - rewrite (parseCommandLine_tokens this _ v (argument_tokens c ++ parts')).
    + rewrite Hreparse. done.
    + unfold passes_line_checks. rewrite (trim_id _ Hlead Htrail).
      split; [done|]. split; [lia | done].
    + rewrite (trim_id _ Hlead Htrail), Hcanon. by apply split_ws_join.
Qed.

(** X16: [command] of a connected client, called with a string of code
    units below 0x80: an error of [parseCommandLine], or of
    [serializeCommand] on the parsed command (as for a blank line or a
    canonical line above the limit), rejects the promise, and then no reply
    parser is started and nothing is written.  For a line that is parsed to
    a command with a verb that is not empty and without __proto__ param, and
    whose canonical line with CRLF is within the command line limit, a reply
    parser with the client's (or the options') limits is started on the
    socket and the bytes handed to [_write] are the canonical form of the
    line (single spaces, angle brackets added) with CRLF, not the string as
    given; [_write] refuses them when the client is sending or waits for a
    drain.  A missing command object sends NOOP. *)
Theorem client_command_writes_canonical_line this line options :
  socket this = true ->
  ascii_only line ->
  let cmdParser :=
    {| maxLineLength := or_else (options_maxCommandLineLength options) (maxCommandLineLength this);
       SMTPCmdLineParser.timeout := 300000 |} in
  let replyParser :=
    {| SMTPReplyParser.timeout := or_else (options_timeout options) (timeout this);
       SMTPReplyParser.maxLineLength :=
         or_else (options_maxReplyLineLength options) (maxReplyLineLength this) |} in
  (forall e, parseCommandLine cmdParser line = Throw e ->
     command this (CommandString line) options = CommandRejected (ParserError e))
  /\ (forall c,
        parseCommandLine cmdParser line = Ok c ->
        verb c <> [] ->
        Forall (fun p => p <> ParamObj []) (params c) ->
        Z.of_nat (length (canonical_line c)) + 2 <= maxLineLength cmdParser ->
        command this (CommandString line) options
        = CommandIssued replyParser (SMTPReplyParser.parse replyParser)
            (if needsDrain this || sending this then WriteRejected NotInSendingState
             else WriteScheduled (Buffer_from (canonical_line c ++ CRLF))))
  /\ (forall c e,
        parseCommandLine cmdParser line = Ok c ->
        serializeCommand cmdParser (Some c) = Throw e ->
        command this (CommandString line) options = CommandRejected (ParserError e))
  /\ command this (CommandObject None) options
     = CommandIssued replyParser (SMTPReplyParser.parse replyParser)
         (if needsDrain this || sending this then WriteRejected NotInSendingState
          else WriteScheduled (Buffer_from (str "NOOP" ++ CRLF))).
Proof.
  intros Hsocket _ cmdParser replyParser. unfold command. rewrite Hsocket. cbn [negb].
  change (SMTPCmdLineParser.timeout new_parser) with 300000.
  fold cmdParser. fold replyParser. split; [|split; [|split]].
  - intros e ->. done.
  - intros c Hparse Hverb Hproto Hfits. rewrite Hparse.
    rewrite (proj1 (parsed_command_canonical cmdParser line c Hparse Hverb Hproto Hfits)).
    unfold _write. rewrite Hsocket. done.
  - intros c e Hparse Hser. rewrite Hparse, Hser. done.
  - cbn [serializeCommand]. unfold _write. rewrite Hsocket. done.
Qed.

Lemma client_command_writes_canonical_line_witness :
  command {| timeout := 300000; maxReplyLineLength := 512; maxCommandLineLength := 512;
             maxDataLineLength := 1000; sending := false; needsDrain := false;
             secure := false; socket := true |}
          (CommandString (str " MAIL  FROM:a@b ")) no_options
  = CommandIssued SMTPReplyParser.new_parser (SMTPReplyParser.parse SMTPReplyParser.new_parser)
      (WriteScheduled (Buffer_from (str "MAIL FROM:<a@b>" ++ CRLF))).
Proof.
  destruct (client_command_writes_canonical_line
              {| timeout := 300000; maxReplyLineLength := 512; maxCommandLineLength := 512;
                 maxDataLineLength := 1000; sending := false; needsDrain := false;
                 secure := false; socket := true |}
              (str " MAIL  FROM:a@b ") no_options) as (_ & H & _).
  - reflexivity.
  - repeat constructor.
  - apply (H (mkCommand (str "MAIL") None (Some (str "a@b")) None [])).
    + vm_compute. reflexivity.
    + discriminate.
    + constructor.
    + vm_compute. discriminate.
Defined.


Lemma Buffer_from_line_bytes s :
  ascii_only s -> has_cr_or_lf s = false -> Forall line_byte (Buffer_from s).
Proof.
  intros Hascii Hbr. apply no_break_chars in Hbr. unfold ascii_only in Hascii.
  unfold Buffer_from. apply Forall_map.
  apply Forall_forall. intros ch Hin. rewrite Forall_forall in Hascii, Hbr.
  specialize (Hascii ch Hin). specialize (Hbr ch Hin). cbn in Hascii, Hbr.
  apply negb_true_iff in Hbr. unfold is_cr_or_lf in Hbr. apply orb_false_iff in Hbr as [H13 H10].
  apply Nat.eqb_neq in H13, H10. unfold line_byte. cbn. lia.
Qed.

(** X17: What [serializeCommand] writes, the streaming command parser
    reads: for a command that [parseCommandLine] returned (verb not empty,
    no __proto__ param, canonical line within the limit and of code units
    below 0x80), [serializeCommand] succeeds and its bytes, delivered in any
    chunks, resolve the promise of [parse] with the same command. *)
Theorem parse_resolves_serialized_command this line c :
  parseCommandLine this line = Ok c ->
  verb c <> [] ->
  Forall (fun p => p <> ParamObj []) (params c) ->
  Z.of_nat (length (canonical_line c)) + 2 <= maxLineLength this ->
  ascii_only (canonical_line c) ->
  exists out,
    serializeCommand this (Some c) = Ok out
    /\ forall chunks,
         concat chunks = Buffer_from out ->
         exists st, SMTPCmdLineInput.deliver this (SMTPCmdLineInput.parse this) chunks = (st, None)
           /\ SMTPCmdLineInput.promise st = SMTPCmdLineInput.Resolved c.
Proof.
  intros Hparse Hverb Hproto Hfits Hascii.
  destruct (parsed_command_canonical this line c Hparse Hverb Hproto Hfits)
    as (Hser & Hre & Hbr).
  exists (canonical_line c ++ CRLF). split; [done|]. intros chunks Hchunks.
  assert (Hbytes : Buffer_from (canonical_line c ++ CRLF)
                   = Buffer_from (canonical_line c) ++ [13; 10]).
  { unfold Buffer_from. by rewrite map_app. }
  rewrite Hbytes in Hchunks.
  pose proof (Buffer_from_line_bytes _ Hascii Hbr) as Hline.
  destruct (deliver_line this (Buffer_from (canonical_line c)) chunks
              (SMTPCmdLineInput.parse this) []) as (st & Hst & Hp & _).
  - apply holds_parse. lia.
  - done.
  - rewrite Hchunks. apply line_rest_body; [|done].
    eapply Forall_impl; [exact Hline|]. by intros b (_ & ? & ?).
  - unfold Buffer_from. rewrite length_map. lia.
  - exists st. split; [done|]. rewrite Hp, Buffer_toString_from, Hre. done.
Qed.

Lemma parse_resolves_serialized_command_witness :
  exists st,
    SMTPCmdLineInput.deliver new_parser (SMTPCmdLineInput.parse new_parser)
      [Buffer_from (str "MAIL FROM:<a"); Buffer_from (str "@b>" ++ CRLF)] = (st, None)
    /\ SMTPCmdLineInput.promise st
       = SMTPCmdLineInput.Resolved (mkCommand (str "MAIL") None (Some (str "a@b")) None []).
Proof.
  destruct (parse_resolves_serialized_command new_parser (str " MAIL  FROM:a@b ")
              (mkCommand (str "MAIL") None (Some (str "a@b")) None []))
    as (out & Hout & Hparse).
  - vm_compute. reflexivity.
  - discriminate.
  - constructor.
  - vm_compute. discriminate.
  - repeat constructor.
  - assert (Hwire : out = str "MAIL FROM:<a@b>" ++ CRLF).
    { vm_compute in Hout. by injection Hout as <-. }
    subst out.
    apply (Hparse [Buffer_from (str "MAIL FROM:<a"); Buffer_from (str "@b>" ++ CRLF)]).
    reflexivity.
Defined.

End ClientCommands.

Section SessionExtras.
Import SMTPClientSession.

Lemma end_not_ended this :
  ended (state this) = false ->
  end_ this = (set_ended this (error (state this)), [Emitted "end"]).
Proof.
  intros He. unfold end_. rewrite He.
  by destruct (connected (state (set_ended this (error (state this))))).
Qed.

Lemma abort_ended this err : ended (state this) = true -> abort this err = (this, []).
Proof. intros He. unfold abort. by rewrite He. Qed.

Lemma end_ended this : ended (state this) = true -> end_ this = (this, []).
Proof. intros He. unfold end_. by rewrite He. Qed.

(** X18: [abort] keeps the first error: on a session that has ended it
    does nothing; otherwise it sets [state.ended] to true, stores the error
    in [state.error] and emits 'error' once.  It never closes the client and
    leaves [state.connected] as it is, and every later [abort] or [end], and
    an [abort] after [end], is a no-op. *)
Theorem abort_first_error_wins this err :
  (ended (state this) = true -> abort this err = (this, []))
  /\ (ended (state this) = false ->
      abort this err = (set_ended this (Some err), [Emitted "error"]))
  /\ (ClientClosed ∉ (abort this err).2)
  /\ connected (state (abort this err).1) = connected (state this)
  /\ (forall err', abort (abort this err).1 err' = ((abort this err).1, []))
  /\ end_ (abort this err).1 = ((abort this err).1, [])
  /\ abort (end_ this).1 err = ((end_ this).1, []).
Proof.
  split; [apply abort_ended|]. split; [apply abort_not_ended|].
  pose proof (abort_effects this err) as (He & _). pose proof (end_effects this) as (He' & _).
  split; [|split; [|split; [|split]]].
  - destruct (ended (state this)) eqn:E.
    + rewrite abort_ended by done. apply not_elem_of_nil.
    + rewrite abort_not_ended by done. cbn [snd]. intros Hin.
      apply list_elem_of_singleton in Hin. discriminate Hin.
  - destruct (ended (state this)) eqn:E.
    + by rewrite abort_ended.
    + by rewrite abort_not_ended.
  - intros err'. by apply abort_ended.
  - by apply end_ended.
  - by apply abort_ended.
Qed.

(** On an ended session no event at a checkpoint has any effect. *)
Lemma steps_ended evs : forall this cp,
  ended (state this) = true -> exists cp', steps this cp evs = (this, [], cp').
Proof.
  induction evs as [|ev evs IH]; intros this cp He; [by exists cp|].
  cbn [steps]. destruct ev as [err| |]; cbn [step].
  - unfold callback. destruct (timer cp); cbn [negb]; rewrite ?He.
    + destruct (IH this {| eventName := eventName cp; queue := queue cp;
                           timer := false; scheduled := false |} He) as (cp' & ->).
      by exists cp'.
    + destruct (IH this cp He) as (cp' & ->). by exists cp'.
  - unfold on_timeout. destruct (scheduled cp).
    + rewrite abort_ended by done.
      destruct (IH this {| eventName := eventName cp; queue := queue cp;
                           timer := false; scheduled := false |} He) as (cp' & ->).
      by exists cp'.
    + destruct (IH this cp He) as (cp' & ->). by exists cp'.
  - rewrite end_ended by done. destruct (IH this cp He) as (cp' & ->). by exists cp'.
Qed.

(** X19: A checkpoint that is emitted on a session that has ended calls
    its first listener and nothing else, whatever happens afterwards:
    callbacks are ignored, no timer is running, no further listener is
    called and the session is unchanged. *)
Theorem checkpoint_on_ended_session this name first rest evs :
  is_checkpoint name = true ->
  ended (state this) = true ->
  listeners this name = first :: rest ->
  checkpoint_run this name evs = (this, [Called first name]).
Proof.
  intros Hcp He Hls. unfold checkpoint_run, emit. rewrite Hcp, Hls.
  destruct (steps_ended evs this
              {| eventName := name; queue := rest; timer := true; scheduled := true |} He)
    as (cp' & ->). done.
Qed.

Lemma checkpoint_on_ended_session_witness :
  checkpoint_run (three_listeners true true) "command"
    [CallbackInvoked None; TimerFired; CallbackInvoked None; EndCalled]
  = (three_listeners true true, [Called 1%nat "command"]).
Proof.
  apply (checkpoint_on_ended_session (three_listeners true true) "command" 1%nat [2; 3]%nat);
    reflexivity.
Defined.

(** [k] callbacks without error, not enough to complete the chain, and then
    the timer. *)
Lemma steps_timeout name q : forall k this cp post,
  ended (state this) = false -> timer cp = true -> scheduled cp = true ->
  queue cp = q -> eventName cp = name ->
  (k <= length q)%nat ->
  exists cp',
    steps this cp (replicate k (CallbackInvoked None) ++ TimerFired :: post)
    = (set_ended this (Some (VetoExpired name)),
       map (fun o => Called o name) (take k q) ++ [Emitted "error"], cp').
Proof.
  assert (Hfire : forall this cp post,
            ended (state this) = false -> scheduled cp = true -> eventName cp = name ->
            exists cp', steps this cp (TimerFired :: post)
                        = (set_ended this (Some (VetoExpired name)), [Emitted "error"], cp')).
  { intros this cp post He Hs Hn. cbn [steps step]. unfold on_timeout.
    rewrite Hs. cbn [eventName]. rewrite Hn, (abort_not_ended _ _ He).
    edestruct (steps_ended post (set_ended this (Some (VetoExpired name)))) as (cp' & ->);
      [done | by exists cp']. }
  induction q as [|o q IH]; intros k this cp post He Ht Hs Hq Hn Hk.
  - assert (k = 0%nat) as -> by (cbn [length] in Hk; lia).
    cbn [replicate app take map]. by apply Hfire.
  - destruct k as [|k].
    + cbn [replicate app take map]. by apply Hfire.
    + cbn [replicate app steps step take map]. unfold callback at 1.
      rewrite Ht, He, Hq, Hn. cbn [negb].
      edestruct (IH k this) as [cp' ->]; [done | | | | | | by exists cp'];
        cbn [timer scheduled queue eventName length] in *; try done; lia.
Qed.

(** X20: The veto timer of a checkpoint: when the timer fires after [k]
    successful callbacks and before the last listener called back, the
    session is aborted with the timeout error of that checkpoint, exactly
    the first [k+1] listeners were called, 'error' is emitted, and nothing
    that happens later has an effect. *)
Theorem checkpoint_timeout this name k post :
  is_checkpoint name = true ->
  ended (state this) = false ->
  (k < length (listeners this name))%nat ->
  checkpoint_run this name (replicate k (CallbackInvoked None) ++ TimerFired :: post)
  = (set_ended this (Some (VetoExpired name)),
     map (fun o => Called o name) (take (S k) (listeners this name)) ++ [Emitted "error"]).
Proof.
  intros Hcp He Hk. unfold checkpoint_run, emit. rewrite Hcp.
  destruct (listeners this name) as [|first rest] eqn:Els; [cbn [length] in Hk; lia|].
  cbn [length] in Hk.
  destruct (steps_timeout name rest k this
              {| eventName := name; queue := rest; timer := true; scheduled := true |} post
              He eq_refl eq_refl eq_refl eq_refl ltac:(lia)) as [cp' ->].
  done.
Qed.

Lemma checkpoint_timeout_witness :
  checkpoint_run (three_listeners true false) "command"
    [CallbackInvoked None; TimerFired; CallbackInvoked None; CallbackInvoked None]
  = (set_ended (three_listeners true false) (Some (VetoExpired "command")),
     [Called 1%nat "command"; Called 2%nat "command"; Emitted "error"]).
Proof.
  apply (checkpoint_timeout (three_listeners true false) "command" 1
           [CallbackInvoked None; CallbackInvoked None]).
  - reflexivity.
  - reflexivity.
  - vm_compute. lia.
Defined.

End SessionExtras.

Section EncoderOutput.
Import Bytes DotEncoder.

Lemma crlf_only_enc_step lc c r :
  crlf_only c r -> crlf_only lc (enc_step lc c ++ r).
Proof.
  intros Hr. unfold enc_step.
  destruct (Z.eqb_spec lc 0) as [Hl0|Hl0], (Z.eqb_spec lc LF) as [Hll|Hll],
           (Z.eqb_spec lc CR) as [Hlc|Hlc], (Z.eqb_spec c DOT) as [Hcd|Hcd],
           (Z.eqb_spec c LF) as [Hcl|Hcl];
    subst; cbn [orb andb negb app crlf_only]; try done;
    repeat split; try done; try (intros; congruence); try (unfold CR, LF, DOT in *; lia).
Qed.

Lemma crlf_only_encoded x : forall lc,
  crlf_only lc (enc_stream lc x ++ line_end (last_char lc x) ++ [DOT; CR; LF]).
Proof.
  induction x as [|c x IH]; intros lc.
  - cbn [enc_stream last_char app]. unfold line_end.
    destruct (Z.eqb_spec lc CR) as [->|Hcr]; [by repeat split|].
    destruct (Z.eqb_spec lc LF) as [->|Hlf]; cbn [negb app crlf_only];
      repeat split; try done; intros; congruence.
  - cbn [enc_stream last_char]. rewrite <- app_assoc. apply crlf_only_enc_step, IH.
Qed.

(** X21: The encoder always succeeds, for every input and every
    chunking, and its output is in canonical form: it ends with the
    end-of-data line, every CR in it is followed by LF and every LF preceded
    by CR, and it is the same for every way of cutting the input into
    chunks. *)
Theorem encoder_output_is_canonical chunks :
  exists body,
    encode chunks = Some (Ok (body ++ [DOT; CR; LF]))
    /\ crlf_only 0 (body ++ [DOT; CR; LF])
    /\ forall chunks', concat chunks' = concat chunks ->
         encode chunks' = Some (Ok (body ++ [DOT; CR; LF])).
Proof.
  exists (enc_stream 0 (concat chunks) ++ line_end (last_char 0 (concat chunks))).
  rewrite <- app_assoc. split; [apply encode_stream|]. split.
  - apply crlf_only_encoded.
  - intros chunks' Heq. by rewrite encode_stream, Heq.
Qed.

End EncoderOutput.

Section DecoderExtras.
Import Bytes DotDecoder.

(** *** After the end of the data *)

Lemma loop_ended_stalled s : forall this lc this',
  ended this = stalled this -> loop this lc s = Ok this' -> ended this' = stalled this'.
Proof.
  induction s as [|c s IH]; intros this lc this' Hinv; [by intros [= <-]|].
  rewrite dec_loop_cons.
  destruct (bufferSize this >? maxLineLength this); [done|].
  destruct (writeUInt8 (buffer this) c (bufferSize this)) as [buf|]; [|done]. cbn [bind].
  destruct ((lc =? CR) && (c =? LF)); [|by apply IH].
  destruct (if bufferSize (set_buffer this buf (bufferSize this + 1)) >? 0
            then readUInt8 (buffer (set_buffer this buf (bufferSize this + 1))) 0
            else Ok 0) as [first|]; [|done].
  cbn [bind].
  destruct ((bufferSize (set_buffer this buf (bufferSize this + 1)) >? 0) && (first =? DOT)).
  - destruct (bufferSize (set_buffer this buf (bufferSize this + 1)) =? 3);
      [by intros [= <-] | by apply IH].
  - by apply IH.
Qed.

Lemma transform_ended_stalled this chunk this' :
  ended this = stalled this -> _transform this chunk = Ok this' -> ended this' = stalled this'.
Proof.
  intros Hinv. unfold _transform.
  destruct (if negb (Z.of_nat (length (buffer this)) =? 0)
            then readUInt8 (buffer this) (Z.of_nat (length (buffer this)) - 1)
            else Ok 0) as [v|]; [|done].
  cbn [bind]. by apply loop_ended_stalled.
Qed.

Lemma write_all_cons this c chunks :
  write_all this (c :: chunks)
  = if stalled this then Ok this else (this1 <- _transform this c ;; write_all this1 chunks).
Proof. reflexivity. Qed.

Lemma write_all_ended_stalled chunks : forall this this',
  ended this = stalled this -> write_all this chunks = Ok this' -> ended this' = stalled this'.
Proof.
  induction chunks as [|c chunks IH]; intros this this' Hinv; [by intros [= <-]|].
  rewrite write_all_cons. destruct (stalled this) eqn:Hst; [intros [= <-]; congruence|].
  destruct (_transform this c) as [this1|] eqn:Ht; [|done]. cbn [bind].
  apply IH. apply (transform_ended_stalled this c); [congruence | done].
Qed.

Lemma write_all_stalled chunks this : stalled this = true -> write_all this chunks = Ok this.
Proof. intros H. destruct chunks; [done|]. by rewrite write_all_cons, H. Qed.

Lemma write_all_app a : forall this b,
  write_all this (a ++ b) = (this1 <- write_all this a ;; write_all this1 b).
Proof.
  induction a as [|c a IH]; intros this b; [done|]. cbn [app]. rewrite !write_all_cons.
  destruct (stalled this) eqn:Hst; [cbn [bind]; by rewrite write_all_stalled|].
  destruct (_transform this c) as [this1|]; [|done]. cbn [bind]. apply IH.
Qed.

(** X22: Once the decoder has seen the end-of-data line, it ignores all
    further input: more chunks, and bytes behind the end-of-data line in
    the same chunk, change neither the output nor the state. *)
Theorem decoder_ignores_data_after_end chunks out :
  decode chunks = Ok (out, true) ->
  (forall more, decode (chunks ++ more) = Ok (out, true))
  /\ (forall front final extra, chunks = front ++ [final] ->
        decode (front ++ [final ++ extra]) = Ok (out, true)).
Proof.
  unfold decode. destruct (write_all new chunks) as [this|] eqn:Hw; [|done].
  cbn [bind]. intros [= Hout Hended].
  assert (Hst : stalled this = true).
  { rewrite <- Hended. symmetry. by apply (write_all_ended_stalled chunks new). }
  split.
  - intros more. rewrite write_all_app, Hw. cbn [bind].
    rewrite write_all_stalled by done. cbn [bind]. by rewrite Hout, Hended.
  - intros front final extra ->. rewrite write_all_app in Hw |- *.
    destruct (write_all new front) as [this0|] eqn:Hfront; [|done]. cbn [bind] in *.
    rewrite write_all_cons in Hw |- *. destruct (stalled this0) eqn:Hst0.
    { injection Hw as ->. cbn [bind]. by rewrite Hout, Hended. }
    unfold _transform in *.
    destruct (if negb (Z.of_nat (length (buffer this0)) =? 0)
              then readUInt8 (buffer this0) (Z.of_nat (length (buffer this0)) - 1)
              else Ok 0) as [v|]; [|done].
    cbn [bind] in *. rewrite loop_app by done.
    destruct (loop this0 v final) as [this1|]; [|done]. cbn [bind write_all] in *.
    injection Hw as ->. rewrite Hst. cbn [bind]. by rewrite Hout, Hended.
Qed.

Lemma decoder_ignores_data_after_end_witness :
  decode [[97; 13; 10; 46; 13; 10]; [98; 13; 10]] = Ok ([97; 13; 10], true)
  /\ decode [[97; 13; 10; 46; 13; 10; 98; 13; 10]] = Ok ([97; 13; 10], true).
Proof.
  destruct (decoder_ignores_data_after_end [[97; 13; 10; 46; 13; 10]] [97; 13; 10])
    as [H1 H2]; [vm_compute; reflexivity|].
  split; [apply (H1 [[98; 13; 10]]) | apply (H2 [] [97; 13; 10; 46; 13; 10] [98; 13; 10])].
  reflexivity.
Defined.

(** *** Bytes without a line end *)

Lemma loop_plain s : forall this line lc,
  dec_rel this line ->
  Forall (fun b => b <> LF) s ->
  (length line + length s <= 1000)%nat ->
  exists this', loop this lc s = Ok this'
    /\ dec_rel this' (line ++ s) /\ pushed this' = pushed this.
Proof.
  induction s as [|b s IH]; intros this line lc Hrel Hs Hfit.
  - exists this. rewrite app_nil_r. split; [done|]. by split.
  - inversion Hs as [|? ? Hb Hs']; subst. cbn [length] in Hfit. rewrite dec_loop_cons.
    destruct (write_line this line b Hrel ltac:(lia)) as (-> & buf & -> & Hlen & Htake).
    cbn [bind]. rewrite (proj2 (Z.eqb_neq _ _) Hb), andb_false_r.
    destruct Hrel as (Hmax & _ & Hsize & _ & Hst & He).
    edestruct (IH (set_buffer this buf (bufferSize this + 1)) (line ++ [b]) b)
      as (this' & -> & Hrel' & Hp).
    + unfold dec_rel. rewrite length_app.
      cbn [length set_buffer maxLineLength buffer bufferSize stalled ended].
      replace (length line + 1)%nat with (S (length line)) by lia.
      repeat split; try done. lia.
    + done.
    + rewrite length_app. cbn [length]. lia.
    + exists this'. rewrite <- app_assoc in Hrel'. split; [done|]. by split.
Qed.

Lemma dec_rel_new : dec_rel new [].
Proof. by repeat split. Qed.

Lemma write_all_plain chunks : forall this line,
  dec_rel this line -> good this ->
  Forall (fun b => b <> LF) (concat chunks) ->
  (length line + length (concat chunks) <= 1000)%nat ->
  exists this', write_all this chunks = Ok this'
    /\ dec_rel this' (line ++ concat chunks) /\ good this' /\ pushed this' = pushed this.
Proof.
  induction chunks as [|c chunks IH]; intros this line Hrel Hgood Hs Hfit.
  - exists this. cbn [concat]. rewrite app_nil_r. split; [done|]. split; [done|]. by split.
  - cbn [concat] in *. apply Forall_app in Hs as [Hc Hs]. rewrite length_app in Hfit.
    rewrite write_all_cons.
    assert (Hst : stalled this = false) by apply Hrel. rewrite Hst.
    rewrite (transform_as_loop this 0 c Hgood).
    2:{ intros [H _]. discriminate H. }
    destruct (loop_plain c this line 0 Hrel Hc ltac:(lia)) as (this1 & Hloop & Hrel1 & Hp1).
    rewrite Hloop. cbn [bind].
    assert (Hgood1 : good this1).
    { apply (loop_good c this 0 this1 Hgood Hloop). apply Hrel1. }
    destruct (IH this1 (line ++ c) Hrel1 Hgood1 Hs) as (this' & -> & Hrel' & Hgood' & Hp').
    + rewrite length_app. lia.
    + exists this'. rewrite <- app_assoc in Hrel'. split; [done|]. split; [done|].
      split; [done | congruence].
Qed.

(** X23: The decoder emits complete lines only: input of at most 1000
    bytes without LF produces no output, and the stream is not ended. *)
Theorem decoder_withholds_unterminated_line chunks :
  Forall (fun b => b <> LF) (concat chunks) ->
  (length (concat chunks) <= 1000)%nat ->
  decode chunks = Ok ([], false).
Proof.
  intros Hs Hfit. unfold decode.
  destruct (write_all_plain chunks new [] dec_rel_new good_new Hs Hfit)
    as (this & -> & Hrel & _ & Hp).
  cbn [bind]. rewrite Hp. destruct Hrel as (_ & _ & _ & _ & _ & ->). done.
Qed.

Lemma decoder_withholds_unterminated_line_witness :
  decode [[97; 98]; [99; 13]] = Ok ([], false).
Proof.
  apply (decoder_withholds_unterminated_line [[97; 98]; [99; 13]]).
  - repeat constructor; discriminate.
  - vm_compute. lia.
Defined.

End DecoderExtras.

Section CodecRoundTrip.
Import Bytes.

Lemma nul_dots_plain prev c x :
  ~ (prev = Some 0 /\ c = DOT) -> nul_dots prev (c :: x) = c :: nul_dots (Some c) x.
Proof.
  intros H. cbn [nul_dots]. destruct prev as [p|]; [|done].
  destruct (Z.eqb_spec p 0) as [->|]; [|done].
  destruct (Z.eqb_spec c DOT) as [->|]; [|done]. by destruct H.
Qed.

Ltac use_encoded_any IH prev line Hstate :=
  let H := fresh in
  pose proof (IH prev line Hstate) as H; cbn [lc_of] in H;
  cbn [app] in H |- *; rewrite H.

(** The decoder run on the encoded form of any input [x], final dot line
    included. *)
Lemma dec_lines_encoded_any x : forall prev line,
  line_state prev line ->
  dec_lines line (lc_of prev)
    (enc_stream (lc_of prev) x ++ line_end (last_char (lc_of prev) x) ++ [DOT; CR; LF])
  = (unstuff line ++ norm (lc_of prev) (nul_dots prev x), true).
Proof.
  induction x as [|c x IH]; intros prev line Hstate.
  { by apply (dec_lines_encoded [] prev line Hstate). }
  destruct (decide (prev = Some 0 /\ c = DOT)) as [[-> ->]|Hnul].
  - (* a dot after a NUL byte *)
    cbn [lc_of enc_stream last_char nul_dots norm]. unfold enc_step, norm_step.
    change ((0 =? 0) || (0 =? LF)) with true. change (DOT =? DOT) with true.
    cbn [andb app negb]. change (DOT =? LF) with false. change (0 =? CR) with false.
    change (DOT =? CR) with false. cbn [andb negb app].
    assert (Hne : line <> []).
    { destruct Hstate as [Hl _]. cbn in Hl. by destruct line. }
    rewrite dec_lines_plain by done. rewrite dec_lines_plain by done.
    assert (Hs1 : line_state (Some DOT) (line ++ [DOT])).
    { by apply (line_state_snoc (Some 0)). }
    assert (Hs2 : line_state (Some DOT) ((line ++ [DOT]) ++ [DOT])).
    { apply (line_state_snoc (Some DOT)); [done | done |]. by destruct line. }
    pose proof (IH (Some DOT) _ Hs2) as Henc. cbn [lc_of] in Henc. rewrite Henc.
    rewrite !unstuff_snoc; [by rewrite <- !app_assoc | by left |].
    left. by destruct line.
  - rewrite (nul_dots_plain _ _ _ Hnul). cbn [enc_stream last_char norm].
    rewrite <- !app_assoc. unfold enc_step, norm_step.
    set (lc := lc_of prev) in *.
    destruct (((lc =? 0) || (lc =? LF)) && (c =? DOT)) eqn:Hstuff.
    + apply andb_prop in Hstuff as [Hlc Hc]. apply Z.eqb_eq in Hc as ->.
      assert (line = []) as ->.
      { destruct Hstate as [Hl _]. destruct prev as [p|]; [|done]. cbn [lc_of] in lc.
        subst lc. destruct (Z.eqb_spec p LF); [done|].
        destruct (Z.eqb_spec p 0) as [->|]; [|done]. by destruct Hnul. }
      assert (Hcr : (lc =? CR) = false).
      { apply orb_prop in Hlc as [H|H]; apply Z.eqb_eq in H; rewrite H; done. }
      rewrite Hcr. cbn [app negb andb].
      rewrite dec_lines_plain by (by rewrite Hcr).
      rewrite dec_lines_plain by done.
      use_encoded_any IH (Some DOT) [DOT; DOT] line_state_stuffed. done.
    + destruct (negb (c =? LF) && (lc =? CR)) eqn:Hbare.
      * apply andb_prop in Hbare as [Hc Hlc]. apply negb_true_iff in Hc.
        apply Z.eqb_eq in Hlc. rewrite Hlc. cbn [app].
        rewrite dec_lines_crlf.
        2:{ intros b Hb. destruct (line_state_not_marker _ _ _ Hstate Hb) as [_ Hp].
            subst prev. cbn [lc_of] in lc. subst lc. done. }
        rewrite (unstuff_snoc line LF) by (by right).
        destruct (Z.eqb_spec c DOT) as [->|Hdot].
        -- cbn [app]. rewrite dec_lines_plain by done. rewrite dec_lines_plain by done.
           use_encoded_any IH (Some DOT) [DOT; DOT] line_state_stuffed.
           cbn [fst snd unstuff]. by rewrite <- !app_assoc.
        -- cbn [app]. rewrite dec_lines_plain by (by rewrite Hc).
           assert (Hs : line_state (Some c) [c]).
           { apply (line_state_snoc (Some LF) [] c line_state_line_end);
               [by apply Z.eqb_neq | done]. }
           use_encoded_any IH (Some c) [c] Hs.
           cbn [fst snd unstuff app]. apply Z.eqb_neq in Hdot. rewrite Hdot.
           by rewrite <- !app_assoc.
      * destruct ((c =? LF) && negb (lc =? CR)) eqn:Hlf.
        -- apply andb_prop in Hlf as [Hc Hlc]. apply Z.eqb_eq in Hc as ->.
           apply negb_true_iff in Hlc. cbn [app].
           rewrite dec_lines_plain by (by change (CR =? LF) with false; rewrite andb_false_r).
           rewrite dec_lines_crlf.
           2:{ by apply (line_state_snoc_not_marker prev). }
           use_encoded_any IH (Some LF) (@nil Z) line_state_line_end.
           cbn [fst snd unstuff app]. rewrite <- (app_assoc line). cbn [app].
           rewrite (unstuff_app line [CR; LF]) by done.
           by rewrite <- !app_assoc.
        -- destruct (Z.eqb_spec c LF) as [->|Hnlf].
           ++ cbn [negb andb] in Hbare, Hlf.
              assert (Hlc : lc = CR).
              { destruct (Z.eqb_spec lc CR); [done|]. done. }
              rewrite Hlc. cbn [app]. rewrite dec_lines_crlf.
              2:{ intros b Hb. destruct (line_state_not_marker _ _ _ Hstate Hb) as [_ Hp].
                  subst prev. cbn [lc_of] in lc. subst lc. done. }
              use_encoded_any IH (Some LF) (@nil Z) line_state_line_end.
              cbn [fst snd unstuff app]. rewrite (unstuff_snoc line LF) by (by right).
              by rewrite <- !app_assoc.
           ++ cbn [app]. apply Z.eqb_neq in Hnlf.
              rewrite dec_lines_plain by (by rewrite Hnlf, andb_false_r).
              assert (Hfirst : line = [] -> c <> DOT).
              { intros -> ->. destruct (line_state_nil_lc _ Hstate) as [->| ->];
                  cbn [lc_of] in lc; subst lc; done. }
              assert (Hs : line_state (Some c) (line ++ [c])).
              { apply (line_state_snoc prev); [done | by apply Z.eqb_neq | done]. }
              pose proof (IH (Some c) (line ++ [c]) Hs) as Henc.
              cbn [lc_of] in Henc. rewrite Henc.
              rewrite unstuff_snoc; [by rewrite <- app_assoc|].
              destruct line; [right; by apply Hfirst | by left].
Qed.

(** X24: Decoding what the encoder wrote, for EVERY input: when the chunks
    fed to the decoder keep CR and LF together and the lines fit its
    buffer, the decoder ends and returns the input with normalized line
    endings in which every dot that directly follows a NUL byte is
    doubled. *)
Theorem decode_encode_any_input chunks_in :
  exists out,
    DotEncoder.encode chunks_in = Some (Ok out)
    /\ forall chunks_out,
         concat chunks_out = out ->
         keeps_crlf 0 chunks_out ->
         lines_fit 0 0 out ->
         DotDecoder.decode chunks_out
         = Ok (crlf_normalize (nul_dots None (concat chunks_in)), true).
Proof.
  eexists. split; [apply encode_stream|].
  intros chunks_out Hout Hkeeps Hfit. unfold DotDecoder.decode.
  rewrite (write_all_concat chunks_out DotDecoder.new 0 good_new eq_refl Hkeeps), Hout.
  destruct (loop_dec_lines _ DotDecoder.new [] 0 ltac:(by repeat split) Hfit)
    as (this' & -> & Hpushed & Hended & _).
  pose proof (dec_lines_encoded_any (concat chunks_in) None []
                ltac:(split; [done | by intros r [=]])) as Hlines.
  cbn [lc_of] in Hlines. rewrite Hlines in Hpushed, Hended.
  cbn [bind fst snd unstuff app] in *. by rewrite Hpushed, Hended.
Qed.

End CodecRoundTrip.

Section SplitLineEnd.
Import Bytes DotDecoder.

Lemma dec_lines_run s : forall line lc rest,
  Forall (fun b => b <> LF) s ->
  dec_lines line lc (s ++ rest) = dec_lines (line ++ s) (last_char lc s) rest.
Proof.
  induction s as [|b s IH]; intros line lc rest Hs.
  - by rewrite app_nil_r.
  - inversion Hs as [|? ? Hb Hs']; subst. cbn [app last_char].
    rewrite dec_lines_plain by (by rewrite (proj2 (Z.eqb_neq _ _) Hb), andb_false_r).
    rewrite IH by done. by rewrite <- app_assoc.
Qed.

Lemma lines_fit_run s : forall n lc rest,
  Forall (fun b => b <> LF) s ->
  (n + length s <= 1000)%nat ->
  lines_fit (n + length s) (last_char lc s) rest ->
  lines_fit n lc (s ++ rest).
Proof.
  induction s as [|b s IH]; intros n lc rest Hs Hn Hrest.
  - cbn [length] in Hrest. by rewrite Nat.add_0_r in Hrest.
  - inversion Hs as [|? ? Hb Hs']; subst. cbn [app lines_fit length last_char] in *.
    split; [lia|]. rewrite (proj2 (Z.eqb_neq _ _) Hb), andb_false_r.
    apply IH; [done | lia |]. by replace (S n + length s)%nat with (n + S (length s))%nat by lia.
Qed.

(** X25: A line end that is cut between CR and LF is lost on the decoder:
    one line and the end-of-data line in one chunk decode to the line, but
    with the chunk boundary between CR and LF the decoder pushes the bytes
    of both lines, dot line included, as one line and does not end. *)
Theorem decoder_misses_split_line_end x :
  x <> [] ->
  hd_error x <> Some DOT ->
  Forall (fun b => b <> CR /\ b <> LF) x ->
  (length x + 5 <= 1000)%nat ->
  decode [x ++ [CR; LF; DOT; CR; LF]] = Ok (x ++ [CR; LF], true)
  /\ decode [x ++ [CR]; [LF; DOT; CR; LF]] = Ok (x ++ [CR; LF; DOT; CR; LF], false).
Proof.
  intros Hne Hdot Hx Hlen.
  destruct x as [|d x']; [done|]. set (x := d :: x') in *.
  assert (Hd : (d =? DOT) = false).
  { apply Z.eqb_neq. intros ->. by apply Hdot. }
  assert (Hplain : Forall (fun b => b <> LF) (x ++ [CR])).
  { apply Forall_app_2; [|by repeat constructor].
    eapply Forall_impl; [exact Hx|]. by intros b [_ ?]. }
  assert (Hl : length (x ++ [CR]) = S (length x)).
  { rewrite length_app. cbn [length]. lia. }
  split.
  - unfold decode.
    rewrite (write_all_concat _ new 0 good_new eq_refl).
    2:{ split; [|done]. intros [H _]. discriminate H. }
    cbn [concat]. rewrite app_nil_r.
    change (x ++ [CR; LF; DOT; CR; LF]) with (x ++ [CR] ++ [LF; DOT; CR; LF]).
    rewrite app_assoc.
    destruct (loop_dec_lines ((x ++ [CR]) ++ [LF; DOT; CR; LF]) new [] 0 dec_rel_new)
      as (this' & -> & Hpushed & Hended & _).
    { apply lines_fit_run; [done | cbn [length]; lia |].
      rewrite last_char_app. cbn [last_char length lines_fit]. rewrite Hl.
      change ((CR =? CR) && (LF =? LF)) with true. cbn iota.
      change ((LF =? CR) && (DOT =? LF)) with false.
      change ((DOT =? CR) && (CR =? LF)) with false. cbn iota.
      repeat split; lia. }
    rewrite dec_lines_run in Hpushed, Hended by done.
    rewrite last_char_app in Hpushed, Hended. cbn [last_char app] in Hpushed, Hended.
    rewrite dec_lines_crlf in Hpushed, Hended.
    2,3: intros b Hb; unfold x in Hb; cbn [app] in Hb; injection Hb as Hb _;
         rewrite Hb in Hd; discriminate Hd.
    rewrite dec_lines_marker in Hpushed, Hended. cbn [fst snd bind] in *.
    rewrite Hpushed, Hended, app_nil_r. unfold x. cbn [app unstuff pushed new concat].
    rewrite Hd. by rewrite <- !app_assoc.
  - unfold decode. rewrite !write_all_cons. change (stalled new) with false. cbn iota.
    rewrite (transform_as_loop new 0 (x ++ [CR]) good_new).
    2:{ intros [H _]. discriminate H. }
    destruct (loop_plain (x ++ [CR]) new [] 0 dec_rel_new Hplain ltac:(cbn [length]; lia))
      as (this1 & Hloop & Hrel1 & Hp1).
    rewrite Hloop. cbn [bind app] in *.
    assert (Hgood1 : good this1).
    { apply (loop_good _ new 0 this1 good_new Hloop). apply Hrel1. }
    assert (Hst1 : stalled this1 = false) by apply Hrel1. rewrite write_all_cons, Hst1.
    rewrite (transform_as_loop this1 0 [LF; DOT; CR; LF] Hgood1).
    2:{ intros [H _]. discriminate H. }
    destruct (loop_dec_lines [LF; DOT; CR; LF] this1 (x ++ [CR]) 0 Hrel1)
      as (this2 & -> & Hpushed & Hended & _).
    { rewrite Hl. cbn [lines_fit]. change ((0 =? CR) && (LF =? LF)) with false.
      change ((LF =? CR) && (DOT =? LF)) with false.
      change ((DOT =? CR) && (CR =? LF)) with false.
      change ((CR =? CR) && (LF =? LF)) with true. cbn iota. repeat split; lia. }
    cbn [bind write_all]. rewrite Hpushed, Hended, Hp1.
    cbn [dec_lines]. change ((0 =? CR) && (LF =? LF)) with false.
    change ((LF =? CR) && (DOT =? LF)) with false.
    change ((DOT =? CR) && (CR =? LF)) with false.
    change ((CR =? CR) && (LF =? LF)) with true. cbn iota.
    unfold x. cbn [app]. rewrite Hd. cbn [fst snd concat app].
    rewrite app_nil_r, <- !app_assoc. done.
Qed.

Lemma decoder_misses_split_line_end_witness :
  decode [[97; 13]; [10; 46; 13; 10]] = Ok ([97; 13; 10; 46; 13; 10], false).
Proof.
  apply (decoder_misses_split_line_end [97]).
  - discriminate.
  - discriminate.
  - repeat constructor; discriminate.
  - vm_compute. lia.
Defined.

End SplitLineEnd.
